(** * A pool allocator and an allocator-aware doubly-linked list

    Shallow embedding of [fastallocator.h]:
    - [FixedAllocator<chunkSize>]: the per-size-class pool,
    - [FastAllocator<T>]: the dispatcher in front of the pools,
    - [List<T, Allocator>]: the doubly-linked list with two sentinels.

    Conventions.  A pointer is its address, a [Z]; [nullptr] is [0].
    [size_t] is a [Z] in [[0, 2^64)] and every [size_t] operation of the
    source is written with its wrap-around ([SizeT.add], [SizeT.mul], ...).
    A [std::vector] is a [list] whose [back()] is the last element.
    A C++ function that can throw or run into undefined behaviour returns
    an [outcome]; state is passed explicitly. *)

From stdpp Require Import base numbers list option gmap.

Local Open Scope Z_scope.

(** ** size_t *)

Module SizeT.
Definition modulus : Z := 2 ^ 64.
Definition wrap (x : Z) : Z := x `mod` modulus.
Definition add (a b : Z) : Z := wrap (a + b).
Definition sub (a b : Z) : Z := wrap (a - b).
Definition mul (a b : Z) : Z := wrap (a * b).
End SizeT.

(** ** Outcomes of a call

    [Ok r s]: the call returns [r] and leaves state [s];
    [Throw s]: an exception leaves the call (std::bad_alloc, or one raised by
    the element type's copy constructor), the state it leaves behind is [s];
    [Undefined]: the call has undefined behaviour (an invalid pointer is
    dereferenced, a precondition of the interface is broken);
    [OutOfFuel]: a loop of the model was not given enough iterations. *)

Inductive outcome (S R : Type) : Type :=
| Ok (r : R) (s : S)
| Throw (s : S)
| Undefined
| OutOfFuel.

Arguments Ok {S R} r s.
Arguments Throw {S R} s.
Arguments Undefined {S R}.
Arguments OutOfFuel {S R}.

Definition M (S R : Type) : Type := S → outcome S R.

Definition ret {S R} (r : R) : M S R := λ s, Ok r s.

Definition bind {S A B} (m : M S A) (k : A → M S B) : M S B :=
  λ s, match m s with
       | Ok a s' => k a s'
       | Throw s' => Throw s'
       | Undefined => Undefined
       | OutOfFuel => OutOfFuel
       end.

Notation "x <- m ;; k" := (bind m (λ x, k))
  (at level 20, m at level 99, k at level 200, only parsing).
Notation "m ;; k" := (bind m (λ _, k))
  (at level 100, k at level 200, only parsing, right associativity).

(** ** The general-purpose allocator

    [::operator new] and [::operator delete] are outside the repository.
    They are modelled by a heap that places every new region at the current
    break [brk] (so regions never overlap and are never at address 0) and
    that refuses a request, with std::bad_alloc, when the request exceeds
    the bytes still available ([room]) or would pass the top of the address
    space ([limit]).  [::operator delete] gives the bytes of a region back
    to [room]. *)

Module Heap.
Record t := mk {
    brk : Z;
    room : Z;
    limit : Z;
    live : gmap Z Z   (* base address ↦ byte size of every live region *)
  }.

Definition operator_new (n : Z) (h : t) : option (Z * t) :=
    if (n <=? room h) && (brk h + n <=? limit h) then
      Some (brk h,
            {| brk := brk h + Z.max n 1;
               room := room h - n;
               limit := limit h;
               live := <[brk h := n]> (live h) |})
    else None.

Definition operator_delete (p : Z) (h : t) : option t :=
    if p =? 0 then Some h
    else match live h !! p with
         | Some n => Some {| brk := brk h;
                             room := room h + n;
                             limit := limit h;
                             live := delete p (live h) |}
         | None => None
         end.

Definition init (room limit : Z) : t :=
    {| brk := 4096; room := room; limit := limit; live := ∅ |}.
End Heap.

(** ** FixedAllocator<chunkSize> *)

Module FixedAllocator.
Record t := mk {
    capacity_ : Z;
    size_ : Z;
    chunks_ : list Z;
    returned_ : list Z
  }.

  (** A pool together with the heap its regions come from. *)
Definition state : Type := t * Heap.t.

Section Pool.
Variable chunkSize : Z.

    (** [FixedAllocator()], lines 50-54.  When [::operator new] throws no
        object exists afterwards.  The storage of the two vectors is not
        part of the heap model: [push_back] (lines 53, 63 and 108) is
        taken to return, and an exception of a call is the std::bad_alloc
        of [::operator new]. *)
Definition ctor : M Heap.t t := λ h,
      let capacity_ := 32 in
      let size_ := 0 in
      match Heap.operator_new (SizeT.mul capacity_ chunkSize) h with
      | Some (chunk, h') =>
          Ok {| capacity_ := capacity_; size_ := size_;
                chunks_ := [] ++ [chunk]; returned_ := [] |} h'
      | None => Throw h
      end.

    (** [allocate_memory_], lines 59-65: [capacity_] is doubled before
        [::operator new] is called, so a std::bad_alloc leaves the doubled
        value behind. *)
Definition allocate_memory_ : M state unit := λ '(a, h),
      let a := {| capacity_ := SizeT.mul (capacity_ a) 2; size_ := size_ a;
                  chunks_ := chunks_ a; returned_ := returned_ a |} in
      match Heap.operator_new (SizeT.mul (capacity_ a) chunkSize) h with
      | Some (new_chunk, h') =>
          Ok tt ({| capacity_ := capacity_ a; size_ := 0;
                    chunks_ := chunks_ a ++ [new_chunk];
                    returned_ := returned_ a |}, h')
      | None => Throw (a, h)
      end.

    (** [allocate], lines 85-101. *)
Definition allocate : M state Z := λ '(a, h),
      match last (returned_ a) with
      | Some memory =>
          Ok memory ({| capacity_ := capacity_ a; size_ := size_ a;
                        chunks_ := chunks_ a;
                        returned_ := removelast (returned_ a) |}, h)
      | None =>
          ((if size_ a =? capacity_ a then allocate_memory_ else ret tt) ;;
           λ '(a, h),
             match last (chunks_ a) with
             | Some back =>
                 let memory := back + SizeT.mul (size_ a) chunkSize in
                 Ok memory ({| capacity_ := capacity_ a;
                               size_ := SizeT.add (size_ a) 1;
                               chunks_ := chunks_ a;
                               returned_ := returned_ a |}, h)
             | None => Undefined
             end) (a, h)
      end.

    (** [deallocate], lines 106-109. *)
Definition deallocate (ptr : Z) : M state unit := λ '(a, h),
      Ok tt ({| capacity_ := capacity_ a; size_ := size_ a;
                chunks_ := chunks_ a;
                returned_ := returned_ a ++ [ptr] |}, h).

    (** [~FixedAllocator()], lines 114-119: the regions go back to
        [::operator delete] in the order they were created; deleting what
        is not a live region is undefined.  No pool exists afterwards, so
        the state that is left is the heap. *)
Fixpoint delete_chunks (chunks : list Z) (h : Heap.t) : outcome Heap.t unit :=
  match chunks with
  | [] => Ok tt h
  | chunk :: chunks =>
      match Heap.operator_delete chunk h with
      | Some h' => delete_chunks chunks h'
      | None => Undefined
      end
  end.

Definition dtor : state → outcome Heap.t unit := λ '(a, h),
  delete_chunks (chunks_ a) h.

(** *** A session with one pool

    The calls a program makes on one pool, in order.  [Acquire] is
    [allocate()], [Release p] is [deallocate(p)], [ForeignDelete p] is the
    rest of the program giving a region of its own back to the
    general-purpose allocator.  A caller may catch the std::bad_alloc of an
    [Acquire] and go on; [threw] records that this has happened.
    [outstanding] lists the addresses issued and not yet released.  A step
    is [None] when the call breaks its precondition: a [Release] of an
    address that is not outstanding, a [ForeignDelete] of a region of the
    pool or of no region at all. *)

Inductive event := Acquire | Release (p : Z) | ForeignDelete (p : Z).

Record session := mkSession {
  pool : t;
  heap : Heap.t;
  outstanding : list Z;
  threw : bool
}.

Definition step (s : session) (e : event) : option session :=
  match e with
  | Acquire =>
      match allocate (pool s, heap s) with
      | Ok p (a, h) =>
          Some {| pool := a; heap := h;
                  outstanding := outstanding s ++ [p]; threw := threw s |}
      | Throw (a, h) =>
          Some {| pool := a; heap := h;
                  outstanding := outstanding s; threw := true |}
      | Undefined | OutOfFuel => None
      end
  | Release p =>
      if decide (p ∈ outstanding s) then
        match deallocate p (pool s, heap s) with
        | Ok _ (a, h) =>
            Some {| pool := a; heap := h;
                    outstanding := filter (λ q, q ≠ p) (outstanding s);
                    threw := threw s |}
        | _ => None
        end
      else None
  | ForeignDelete p =>
      if decide (p ∈ chunks_ (pool s)) then None
      else match Heap.operator_delete p (heap s) with
           | Some h => Some {| pool := pool s; heap := h;
                               outstanding := outstanding s;
                               threw := threw s |}
           | None => None
           end
  end.

Fixpoint run (es : list event) (s : session) : option session :=
  match es with
  | [] => Some s
  | e :: es => match step s e with Some s' => run es s' | None => None end
  end.

(** The session that starts with the construction of the pool. *)
Definition start (h : Heap.t) : option session :=
  match ctor h with
  | Ok a h' => Some {| pool := a; heap := h'; outstanding := []; threw := false |}
  | _ => None
  end.

(** Number of blocks of the [i]-th region: 32, 64, 128, ... *)
Definition region_blocks (i : nat) : Z := 32 * 2 ^ Z.of_nat i.
End Pool.
End FixedAllocator.

(** ** FastAllocator<T>

    [FixedAllocator<chunkSize>::allocator_] is one static pointer per
    [chunkSize]: the pools are a map from the chunk size to the pool, a
    missing key standing for [nullptr].  The storage of the singleton object
    and of its two vectors is not charged to the heap model. *)

Module FastAllocator.
Definition maxSize : Z := 32.

Record world := mk {
  heap : Heap.t;
  pools : gmap Z FixedAllocator.t
}.

(** [FixedAllocator<chunkSize>::getFixedAllocator()], lines 70-76. *)
Definition getFixedAllocator (chunkSize : Z) : M world FixedAllocator.t := λ w,
  match pools w !! chunkSize with
  | Some a => Ok a w
  | None =>
      match FixedAllocator.ctor chunkSize (heap w) with
      | Ok a h => Ok a {| heap := h; pools := <[chunkSize := a]> (pools w) |}
      | Throw h => Throw {| heap := h; pools := pools w |}
      | Undefined => Undefined
      | OutOfFuel => OutOfFuel
      end
  end.

(** A member call on the pool [getFixedAllocator()] returned. *)
Definition on_pool {R} (chunkSize : Z) (call : M FixedAllocator.state R)
  : M world R := λ w,
  match pools w !! chunkSize with
  | Some a =>
      match call (a, heap w) with
      | Ok r (a', h) => Ok r {| heap := h; pools := <[chunkSize := a']> (pools w) |}
      | Throw (a', h) => Throw {| heap := h; pools := <[chunkSize := a']> (pools w) |}
      | Undefined => Undefined
      | OutOfFuel => OutOfFuel
      end
  | None => Undefined
  end.

Definition operator_new (n : Z) : M world Z := λ w,
  match Heap.operator_new n (heap w) with
  | Some (p, h) => Ok p {| heap := h; pools := pools w |}
  | None => Throw w
  end.

Definition operator_delete (p : Z) : M world unit := λ w,
  match Heap.operator_delete p (heap w) with
  | Some h => Ok tt {| heap := h; pools := pools w |}
  | None => Undefined
  end.

Section Dispatcher.
(** [sizeof(T)] of the element type the allocator is instantiated for. *)
Variable sizeofT : Z.

(** [allocate], lines 158-166. *)
Definition allocate (n : Z) : M world Z :=
  if (sizeofT <=? maxSize) && (n <=? 1) then
    (getFixedAllocator sizeofT ;;
     on_pool sizeofT (FixedAllocator.allocate sizeofT))
  else
    operator_new (SizeT.mul n sizeofT).

(** [deallocate], lines 168-175. *)
Definition deallocate (point : Z) (n : Z) : M world unit :=
  if (sizeofT <=? maxSize) && (n <=? 1) then
    (getFixedAllocator sizeofT ;;
     on_pool sizeofT (FixedAllocator.deallocate point))
  else
    operator_delete point.
End Dispatcher.
End FastAllocator.

(** ** List<T, Allocator> *)

Module LinkedList.

(** The element type's copy constructor: it yields an equal value or
    throws; [copy_throws v] tells that copying [v] throws. *)
Class CopyConstructible (T : Type) := {
  copy_throws : T → bool
}.

(** What [Node()] leaves in [elem_], for the lists built by
    [List(size_t count)]: [Some d] for an element type whose default
    constructor yields [d], [None] for a scalar type, which [Node()] leaves
    uninitialised; [default_throws] tells that the default constructor
    throws. *)
Class DefaultConstructible (T : Type) := {
  default_init : option T;
  default_throws : bool
}.

(** What the list uses of [std::allocator_traits<Allocator>]. *)
Class AllocatorTraits (Alloc : Type) := {
  select_on_container_copy_construction : Alloc → Alloc;
  propagate_on_container_copy_assignment : bool
}.

(** The node allocator ([node_allocator_], the allocator rebound to
    [Node]).  Every list default-constructs its own, so all lists draw
    from one state [A].  [na_allocate] is [allocate(node_allocator_, 1)],
    [None] when it throws std::bad_alloc; [na_deallocate] is
    [deallocate(node_allocator_, p, 1)].  The three laws are the contract
    of an allocator: [na_owns a live] holds when [live] is the set of
    blocks handed out and not yet given back; a block handed out is never
    null and never one that is still live; fewer than 2^64 blocks are live
    at a time. *)
Class NodeAllocator (A : Type) := {
  na_allocate : A → option (Z * A);
  na_deallocate : Z → A → A;
  na_owns : A → gset Z → Prop;
  na_allocate_fresh a live p a' :
    na_owns a live → na_allocate a = Some (p, a') →
    p ≠ 0 ∧ (p ∉ live) ∧ na_owns a' ({[p]} ∪ live);
  na_deallocate_owns a live p :
    na_owns a live → p ∈ live → na_owns (na_deallocate p a) (live ∖ {[p]});
  na_bounded a live :
    na_owns a live → Z.of_nat (size live) < SizeT.modulus
}.

Section List.
Context {T : Type} `{CopyConstructible T}.
Context {A : Type} `{NodeAllocator A}.
Context {Alloc : Type} `{AllocatorTraits Alloc}.

(** [struct Node], lines 236-242.  [elem_] is [None] while no element has
    been constructed in the node (the two sentinels, a node between
    [allocate] and [construct]). *)
Record Node := mkNode {
  elem_ : option T;
  next : Z;
  prev : Z
}.

(** The data members of a list object, lines 256-260. *)
Record List := mkList {
  allocator_ : Alloc;
  size_ : Z;
  begin_ : Z;
  end_ : Z
}.

(** The memory the lists live in: the nodes by address, the list objects
    by address, and the state of the node allocator.  [destroyed] is the
    record of the element destructors that have run: the elements
    destroyed so far, each with the address of its node, in the order of
    the calls. *)
Record World := mkWorld {
  nodes : gmap Z Node;
  lists : gmap Z List;
  na : A;
  destroyed : list (Z * T)
}.

Definition undefined {R} : M World R := λ _, Undefined.
Definition throw {R} : M World R := λ w, Throw w.
Definition out_of_fuel {R} : M World R := λ _, OutOfFuel.

(** Reading and writing a node through a pointer. *)
Definition load (p : Z) : M World Node := λ w,
  match nodes w !! p with
  | Some nd => Ok nd w
  | None => Undefined
  end.

Definition store (p : Z) (nd : Node) : M World unit := λ w,
  match nodes w !! p with
  | Some _ =>
      Ok tt {| nodes := <[p := nd]> (nodes w); lists := lists w; na := na w;
               destroyed := destroyed w |}
  | None => Undefined
  end.

Definition get_next (p : Z) : M World Z := nd <- load p ;; ret (next nd).
Definition get_prev (p : Z) : M World Z := nd <- load p ;; ret (prev nd).
Definition set_next (p q : Z) : M World unit :=
  nd <- load p ;; store p (mkNode (elem_ nd) q (prev nd)).
Definition set_prev (p q : Z) : M World unit :=
  nd <- load p ;; store p (mkNode (elem_ nd) (next nd) q).

(** Reading and writing the members of the list object at [this]. *)
Definition members (this : Z) : M World List := λ w,
  match lists w !! this with
  | Some l => Ok l w
  | None => Undefined
  end.

Definition set_members (this : Z) (l : List) : M World unit := λ w,
  match lists w !! this with
  | Some _ =>
      Ok tt {| nodes := nodes w; lists := <[this := l]> (lists w); na := na w;
               destroyed := destroyed w |}
  | None => Undefined
  end.

Definition set_allocator_ (this : Z) (a : Alloc) : M World unit :=
  l <- members this ;; set_members this (mkList a (size_ l) (begin_ l) (end_ l)).
Definition set_size_ (this : Z) (n : Z) : M World unit :=
  l <- members this ;; set_members this (mkList (allocator_ l) n (begin_ l) (end_ l)).
Definition set_begin_ (this : Z) (p : Z) : M World unit :=
  l <- members this ;; set_members this (mkList (allocator_ l) (size_ l) p (end_ l)).
Definition set_end_ (this : Z) (p : Z) : M World unit :=
  l <- members this ;; set_members this (mkList (allocator_ l) (size_ l) (begin_ l) p).

(** [node_allocator_traits_::allocate(node_allocator_, 1)]: raw storage. *)
Definition allocate_node : M World Z := λ w,
  match na_allocate (na w) with
  | Some (p, a) =>
      Ok p {| nodes := <[p := mkNode None 0 0]> (nodes w); lists := lists w;
              na := a; destroyed := destroyed w |}
  | None => Throw w
  end.

(** [node_allocator_traits_::deallocate(node_allocator_, p, 1)]. *)
Definition deallocate_node (p : Z) : M World unit := λ w,
  match nodes w !! p with
  | Some _ =>
      Ok tt {| nodes := delete p (nodes w); lists := lists w;
               na := na_deallocate p (na w); destroyed := destroyed w |}
  | None => Undefined
  end.

(** [construct(node_allocator_, p, value)]: [Node(const T &value)]. *)
Definition construct (p : Z) (value : T) : M World unit :=
  if copy_throws value then throw else store p (mkNode (Some value) 0 0).

(** The destructor of the element [x] of the node at [p] runs. *)
Definition destroy_elem (p : Z) (x : T) : M World unit := λ w,
  Ok tt {| nodes := nodes w; lists := lists w; na := na w;
           destroyed := destroyed w ++ [(p, x)] |}.

(** [destroy(node_allocator_, p)]: [p->~Node()] destroys the element the
    node holds. *)
Definition destroy (p : Z) : M World unit :=
  nd <- load p ;;
  match elem_ nd with Some x => destroy_elem p x | None => ret tt end ;;
  store p (mkNode None (next nd) (prev nd)).

(** [size], lines 337-340. *)
Definition size (this : Z) : M World Z := l <- members this ;; ret (size_ l).

(** [insert_before_], lines 386-402. *)
Definition insert_before_ (this : Z) (ptr : Z) (value : T) : M World unit :=
  newbie <- allocate_node ;;
  construct newbie value ;;
  set_next newbie ptr ;;
  ptr_prev <- get_prev ptr ;;
  set_prev newbie ptr_prev ;;
  ptr_prev <- get_prev ptr ;;
  (if bool_decide (ptr_prev ≠ 0) then set_next ptr_prev newbie
   else set_begin_ this newbie) ;;
  set_prev ptr newbie ;;
  n <- size this ;;
  set_size_ this (SizeT.add n 1).

(** [erase_], lines 366-384. *)
Definition erase_ (this : Z) (ptr : Z) : M World unit :=
  ptr_next <- get_next ptr ;;
  ptr_prev <- get_prev ptr ;;
  (if bool_decide (ptr_next ≠ 0) then set_prev ptr_next ptr_prev
   else set_end_ this ptr_prev) ;;
  ptr_prev <- get_prev ptr ;;
  ptr_next <- get_next ptr ;;
  (if bool_decide (ptr_prev ≠ 0) then set_next ptr_prev ptr_next
   else set_begin_ this ptr_next) ;;
  destroy ptr ;;
  deallocate_node ptr ;;
  n <- size this ;;
  set_size_ this (SizeT.sub n 1).

(** [list_iterator], lines 427-521. *)
Record list_iterator := Iter { ptr_ : Z }.

Definition deref (it : list_iterator) : M World T :=
  nd <- load (ptr_ it) ;;
  match elem_ nd with
  | Some v => ret v
  | None => undefined
  end.

(** A write through the reference [operator*] returns, as in [*it = v]:
    the element of the node becomes [v].  An assignment of the element
    type that throws half way is a write of the value it leaves behind. *)
Definition put (it : list_iterator) (v : T) : M World unit :=
  nd <- load (ptr_ it) ;;
  match elem_ nd with
  | Some _ => store (ptr_ it) (mkNode (Some v) (next nd) (prev nd))
  | None => undefined
  end.

Definition incr (it : list_iterator) : M World list_iterator :=
  p <- get_next (ptr_ it) ;; ret (Iter p).

Definition decr (it : list_iterator) : M World list_iterator :=
  p <- get_prev (ptr_ it) ;; ret (Iter p).

Definition iter_eqb (a b : list_iterator) : bool := ptr_ a =? ptr_ b.

(** [begin], [cbegin], [end], [cend], lines 523-539. *)
Definition begin (this : Z) : M World list_iterator :=
  l <- members this ;; p <- get_next (begin_ l) ;; ret (Iter p).
Definition cbegin (this : Z) : M World list_iterator := begin this.
Definition end' (this : Z) : M World list_iterator :=
  l <- members this ;; ret (Iter (end_ l)).
Definition cend (this : Z) : M World list_iterator := end' this.

(** [std::reverse_iterator<list_iterator>]: it holds the iterator one past
    the element it designates. *)
Record reverse_iterator := RIter { current : list_iterator }.

Definition rderef (r : reverse_iterator) : M World T :=
  tmp <- decr (current r) ;; deref tmp.

Definition rincr (r : reverse_iterator) : M World reverse_iterator :=
  c <- decr (current r) ;; ret (RIter c).

(** [rbegin], [rend], lines 541-558. *)
Definition rbegin (this : Z) : M World reverse_iterator :=
  l <- members this ;; ret (RIter (Iter (end_ l))).
Definition rend (this : Z) : M World reverse_iterator :=
  l <- members this ;; p <- get_next (begin_ l) ;; ret (RIter (Iter p)).

(** [insert], lines 560-564. *)
Definition insert (this : Z) (iter : list_iterator) (value : T)
  : M World list_iterator :=
  insert_before_ this (ptr_ iter) value ;;
  p <- get_next (ptr_ iter) ;;
  ret (Iter p).

(** [erase], lines 566-571. *)
Definition erase (this : Z) (iter : list_iterator) : M World list_iterator :=
  p <- get_next (ptr_ iter) ;;
  let ret_ := Iter p in
  erase_ this (ptr_ iter) ;;
  ret ret_.

(** [pop_front] and [pop_back], lines 342-354. *)
Definition pop_front (this : Z) : M World unit :=
  n <- size this ;;
  if bool_decide (n ≠ 0) then (it <- begin this ;; erase this it ;; ret tt)
  else ret tt.

Definition pop_back (this : Z) : M World unit :=
  n <- size this ;;
  if bool_decide (n ≠ 0) then
    (it <- end' this ;; it <- decr it ;; erase this it ;; ret tt)
  else ret tt.

(** [push_front] and [push_back], lines 356-364. *)
Definition push_front (this : Z) (value : T) : M World unit :=
  it <- begin this ;; insert this it value ;; ret tt.

Definition push_back (this : Z) (value : T) : M World unit :=
  it <- end' this ;; insert this it value ;; ret tt.

(** A constructor body run on the storage at [this]: the members start
    from their default initialisers and the object exists only if the body
    returns. *)
Definition constructing (this : Z) (l0 : List) (body : M World unit)
  : M World unit := λ w,
  match lists w !! this with
  | Some _ => Undefined
  | None =>
      match body {| nodes := nodes w; lists := <[this := l0]> (lists w);
                    na := na w; destroyed := destroyed w |} with
      | Throw w' =>
          Throw {| nodes := nodes w'; lists := delete this (lists w');
                   na := na w'; destroyed := destroyed w' |}
      | r => r
      end
  end.

(** [List(const Allocator &alloc)], lines 263-275. *)
Definition ctor (this : Z) (alloc : Alloc) : M World unit :=
  constructing this (mkList (select_on_container_copy_construction alloc) 0 0 0)
    (begin <- allocate_node ;;
     end' <- allocate_node ;;
     set_next begin end' ;;
     set_prev begin 0 ;;
     set_prev end' begin ;;
     set_next end' 0 ;;
     set_begin_ this begin ;;
     set_end_ this end').

(** The loop [while (size_ > 0) pop_back();] of lines 284-286 and
    322-324. *)
Fixpoint pop_all (fuel : nat) (this : Z) : M World unit :=
  match fuel with
  | O => out_of_fuel
  | S fuel =>
      n <- size this ;;
      if 0 <? n then (pop_back this ;; pop_all fuel this) else ret tt
  end.

(** The loop of [copy_], lines 330-335, from the iterator [it] on. *)
Fixpoint copy_from (fuel : nat) (this rhs : Z) (it : list_iterator)
  : M World unit :=
  match fuel with
  | O => out_of_fuel
  | S fuel =>
      last <- cend rhs ;;
      if negb (iter_eqb it last) then
        (v <- deref it ;;
         push_back this v ;;
         it <- incr it ;;
         copy_from fuel this rhs it)
      else ret tt
  end.

Definition copy_ (fuel : nat) (this rhs : Z) : M World unit :=
  it <- cbegin rhs ;; copy_from fuel this rhs it.

(** [~List()], lines 320-328; the storage at [this] holds no object
    afterwards. *)
Definition dtor (fuel : nat) (this : Z) : M World unit :=
  pop_all fuel this ;;
  l <- members this ;;
  deallocate_node (begin_ l) ;;
  l <- members this ;;
  deallocate_node (end_ l) ;;
  λ w, Ok tt {| nodes := nodes w; lists := delete this (lists w); na := na w;
                destroyed := destroyed w |}.

(** When the body of a delegating constructor throws, the destructor of the
    object the target constructor completed is run. *)
Definition unwinding (body cleanup : M World unit) : M World unit := λ w,
  match body w with
  | Throw w' =>
      match cleanup w' with
      | Ok _ w'' => Throw w''
      | r => r
      end
  | r => r
  end.

(** [List(const List &rhs)], lines 297-300. *)
Definition copy_ctor (fuel : nat) (this rhs : Z) : M World unit :=
  r <- members rhs ;;
  ctor this (allocator_ r) ;;
  unwinding (copy_ fuel this rhs) (dtor fuel this).

(** [operator=], lines 277-295. *)
Definition operator_assign (fuel : nat) (this rhs : Z) : M World unit :=
  if bool_decide (this = rhs) then ret tt
  else
    (pop_all fuel this ;;
     (if propagate_on_container_copy_assignment then
        (r <- members rhs ;; set_allocator_ this (allocator_ r))
      else ret tt) ;;
     copy_ fuel this rhs).



Context `{DefaultConstructible T}.





(** [get_allocator], lines 422-425. *)
Definition get_allocator (this : Z) : M World Alloc :=
  l <- members this ;; ret (allocator_ l).

(** *** Client code

    Loops a client writes with the iterators: the forward traversal
    [for (it = l.begin(); it != l.end(); ++it)] that collects every
    element it dereferences, and its reverse counterpart over [rbegin()]
    and [rend()]. *)
Fixpoint forward (fuel : nat) (it last : list_iterator) : M World (list T) :=
  match fuel with
  | O => out_of_fuel
  | S fuel =>
      if negb (iter_eqb it last) then
        (v <- deref it ;;
         it <- incr it ;;
         vs <- forward fuel it last ;;
         ret (v :: vs))
      else ret []
  end.

Definition traverse (fuel : nat) (this : Z) : M World (list T) :=
  b <- begin this ;; e <- end' this ;; forward fuel b e.

Fixpoint backward (fuel : nat) (r last : reverse_iterator) : M World (list T) :=
  match fuel with
  | O => out_of_fuel
  | S fuel =>
      if negb (iter_eqb (current r) (current last)) then
        (v <- rderef r ;;
         r <- rincr r ;;
         vs <- backward fuel r last ;;
         ret (v :: vs))
      else ret []
  end.

Definition rtraverse (fuel : nat) (this : Z) : M World (list T) :=
  b <- rbegin this ;; e <- rend this ;; backward fuel b e.

(** [std::next(it, k)]: [k] increments, none of them applied to [end()]. *)
Fixpoint advance (this : Z) (k : nat) (it : list_iterator)
  : M World list_iterator :=
  match k with
  | O => ret it
  | S k =>
      e <- end' this ;;
      if iter_eqb it e then undefined
      else (it <- incr it ;; advance this k it)
  end.

(** [l.begin() == l.end()]. *)
Definition empty (this : Z) : M World bool :=
  b <- begin this ;; e <- end' this ;; ret (iter_eqb b e).

(** The mutating calls of the interface.  The position of [Insert] and
    [Erase] is [std::next(l.begin(), k)]; [Erase] at [end()] is undefined. *)
Inductive op :=
| PushFront (v : T)
| PushBack (v : T)
| Insert (k : nat) (v : T)
| PopFront
| PopBack
| Erase (k : nat).

Definition perform (this : Z) (o : op) : M World unit :=
  match o with
  | PushFront v => push_front this v
  | PushBack v => push_back this v
  | Insert k v =>
      b <- begin this ;; it <- advance this k b ;; insert this it v ;; ret tt
  | PopFront => pop_front this
  | PopBack => pop_back this
  | Erase k =>
      b <- begin this ;; it <- advance this k b ;;
      e <- end' this ;;
      if iter_eqb it e then undefined else (erase this it ;; ret tt)
  end.

(** Successful insertions and successful removals counted along a run.
    An insertion succeeds when the call returns (a caller that catches its
    exception goes on with the list as the call left it); a pop succeeds
    when the list was not empty; [None] when a call is undefined. *)
Record tally := mkTally { inserted : nat; removed : nat }.

Definition counted (this : Z) (o : op) (st : World * tally)
  : option (World * tally) :=
  let '(w, t) := st in
  match o with
  | PushFront _ | PushBack _ | Insert _ _ =>
      match perform this o w with
      | Ok _ w' => Some (w', mkTally (S (inserted t)) (removed t))
      | Throw w' => Some (w', t)
      | Undefined | OutOfFuel => None
      end
  | PopFront | PopBack =>
      match empty this w with
      | Ok was_empty _ =>
          match perform this o w with
          | Ok _ w' =>
              Some (w', if was_empty then t
                        else mkTally (inserted t) (S (removed t)))
          | _ => None
          end
      | _ => None
      end
  | Erase _ =>
      match perform this o w with
      | Ok _ w' => Some (w', mkTally (inserted t) (S (removed t)))
      | _ => None
      end
  end.

Fixpoint run (this : Z) (os : list op) (st : World * tally)
  : option (World * tally) :=
  match os with
  | [] => Some st
  | o :: os =>
      match counted this o st with
      | Some st' => run this os st'
      | None => None
      end
  end.

(** Everything a client can do to change the list at [this]: a call of
    [op], a write of [v] to the element at [std::next(l.begin(), k)]
    through its iterator, and the assignment [l = src] from the list at
    [src].  The loops of [operator=] run for as many iterations as the two
    sizes ask for.  A caller may catch the exception of a call and go on;
    [None] when a call is undefined. *)
Inductive mutation :=
| Call (o : op)
| Write (k : nat) (v : T)
| Assign (src : Z).

Definition mutate (this : Z) (m : mutation) (w : World) : option World :=
  match m with
  | Call o => fst <$> counted this o (w, mkTally 0 0)
  | Write k v =>
      match (b <- begin this ;; it <- advance this k b ;; put it v) w with
      | Ok _ w' => Some w'
      | _ => None
      end
  | Assign src =>
      match (n <- size this ;;
             m <- size src ;;
             operator_assign (S (Z.to_nat (Z.max n m))) this src) w with
      | Ok _ w' | Throw w' => Some w'
      | Undefined | OutOfFuel => None
      end
  end.

Fixpoint mutations (this : Z) (ms : list mutation) (w : World)
  : option World :=
  match ms with
  | [] => Some w
  | m :: ms =>
      match mutate this m w with
      | Some w' => mutations this ms w'
      | None => None
      end
  end.
End List.
End LinkedList.

(** * Properties *)

Lemma wrap_small x : 0 ≤ x < SizeT.modulus → SizeT.wrap x = x.
Proof. intros. unfold SizeT.wrap. by apply Z.mod_small. Qed.

Lemma wrap_range x : 0 ≤ SizeT.wrap x < SizeT.modulus.
Proof. unfold SizeT.wrap. apply Z.mod_pos_bound. reflexivity. Qed.

Lemma bind_Ok {S X Y} (m : M S X) (k : X → M S Y) s x s' :
  m s = Ok x s' → bind m k s = k x s'.
Proof. unfold bind. by intros ->. Qed.

Lemma Ok_inj {S R} (r r' : R) (s s' : S) : Ok r s = Ok r' s' → r = r' ∧ s = s'.
Proof. by intros [= -> ->]. Qed.

Lemma bind_Throw {S X Y} (m : M S X) (k : X → M S Y) s s' :
  m s = Throw s' → bind m k s = Throw s'.
Proof. unfold bind. by intros ->. Qed.

(** ** The pool *)

Module PoolFacts.
Import FixedAllocator.

(** C5.  Releasing [X] and acquiring next returns [X] and leaves the pool
    as it was before the release; more generally a pool whose free list is
    not empty returns the address released last and issues no fresh block
    (cursor, regions and heap stay as they are). *)
Theorem released_block_is_acquired_next
  (chunkSize cap sz : Z) (chunks free : list Z) (X : Z) (h : Heap.t) :
  (deallocate X ;; allocate chunkSize) (mk cap sz chunks free, h)
    = Ok X (mk cap sz chunks free, h) ∧
  allocate chunkSize (mk cap sz chunks (free ++ [X]), h)
    = Ok X (mk cap sz chunks free, h).
Proof.
  assert (allocate chunkSize (mk cap sz chunks (free ++ [X]), h)
          = Ok X (mk cap sz chunks free, h)) as Hpop.
  { unfold allocate. cbn [returned_ capacity_ size_ chunks_].
    by rewrite last_snoc, removelast_last. }
  split; [|done].
  unfold bind, deallocate. cbn [returned_ capacity_ size_ chunks_]. exact Hpop.
Qed.

(** The heap of the failing run: the program holds one region of 4096
    bytes of its own and 256 more bytes are available. *)
Definition busy_heap : Heap.t :=
  {| Heap.brk := 8192; Heap.room := 256; Heap.limit := 2 ^ 47;
     Heap.live := {[ 4096 := 4096 ]} |}.

(** The failing run on a pool of 8-byte blocks: the first region is used
    up, the acquire that has to grow the pool throws std::bad_alloc, the
    program frees its own region and acquires 32 more blocks. *)
Definition failed_growth_run : list event :=
  replicate 32 Acquire ++ [Acquire; ForeignDelete 4096] ++ replicate 32 Acquire.

Lemma busy_heap_reachable :
  Heap.operator_new 4096 (Heap.init 4352 (2 ^ 47)) = Some (4096, busy_heap).
Proof. reflexivity. Qed.

(** C3, at the failing input.  After the run above the next acquire
    returns 8448, an address the pool issued before and that is still
    outstanding. *)
Theorem acquire_reissues_outstanding_address_after_failed_growth :
  ∃ s0 s s',
    start 8 busy_heap = Some s0 ∧
    run 8 failed_growth_run s0 = Some s ∧
    threw s = true ∧
    allocate 8 (pool s, heap s) = Ok 8448 s' ∧
    8448 ∈ outstanding s.
Proof.
  eexists _, _, _.
  split; [vm_compute; reflexivity|].
  split; [vm_compute; reflexivity|].
  split; [reflexivity|].
  split; [vm_compute; reflexivity|].
  cbn [outstanding]. apply list_elem_of_In. vm_compute. tauto.
Qed.

(** C4, at the failing input.  Along the same run the cursor passes the 32
    blocks of the only region (it reaches 64), and the region the next
    acquire creates has 128 blocks, four times the 32 blocks of the region
    before it. *)
Theorem region_after_failed_growth_is_not_double :
  ∃ s0 s a h,
    start 8 busy_heap = Some s0 ∧
    run 8 failed_growth_run s0 = Some s ∧
    chunks_ (pool s) = [8192] ∧
    Heap.live (heap s) !! 8192 = Some (32 * 8) ∧
    size_ (pool s) = 64 ∧
    allocate 8 (pool s, heap s) = Ok 8448 (a, h) ∧
    chunks_ a = [8192; 8448] ∧
    Heap.live h !! 8192 = Some (32 * 8) ∧
    Heap.live h !! 8448 = Some (128 * 8).
Proof.
  eexists _, _, _, _.
  split; [vm_compute; reflexivity|].
  split; [vm_compute; reflexivity|].
  repeat split; vm_compute; reflexivity.
Qed.

Section Consistent.
Variable chunkSize : Z.
Hypothesis chunk_pos : 0 < chunkSize.

(** The heap is well formed: every live region lies between address 1 and
    the limit, below the break, and regions do not overlap; the address
    space it manages is at most half the range of [size_t]. *)
Definition heap_ok (h : Heap.t) : Prop :=
  0 < Heap.brk h ∧ 2 * Heap.limit h < SizeT.modulus ∧
  (∀ b n, Heap.live h !! b = Some n →
          0 < b ∧ 0 ≤ n ∧ b + n ≤ Heap.limit h ∧ b + Z.max n 1 ≤ Heap.brk h) ∧
  (∀ b n b' n', Heap.live h !! b = Some n → Heap.live h !! b' = Some n' →
                b < b' → b + Z.max n 1 ≤ b').

(** [p] is a block the pool has issued: block [j] of region [i], below the
    cursor when the region is the current one. *)
Definition issued (a : t) (p : Z) : Prop :=
  ∃ (i : nat) (b j : Z),
    chunks_ a !! i = Some b ∧ 0 ≤ j < region_blocks i ∧
    (S i = length (chunks_ a) → j < size_ a) ∧
    p = b + j * chunkSize.

(** The class invariant of the pool.  The constructor establishes it and
    every call that returns keeps it. *)
Record consistent (s : session) : Prop := {
  c_heap : heap_ok (heap s);
  c_chunks : chunks_ (pool s) ≠ [];
  c_capacity : capacity_ (pool s) = region_blocks (length (chunks_ (pool s)) - 1);
  c_cursor : 0 ≤ size_ (pool s) ≤ capacity_ (pool s);
  c_regions : ∀ (i : nat) b, chunks_ (pool s) !! i = Some b →
      Heap.live (heap s) !! b = Some (region_blocks i * chunkSize);
  c_issued : ∀ p, p ∈ outstanding s ++ returned_ (pool s) → issued (pool s) p;
  c_nodup : NoDup (outstanding s ++ returned_ (pool s))
}.

Lemma region_blocks_pos i : 0 < region_blocks i.
Proof. unfold region_blocks. assert (0 < 2 ^ Z.of_nat i) by (apply Z.pow_pos_nonneg; lia). lia. Qed.

Lemma region_blocks_S i : region_blocks (S i) = 2 * region_blocks i.
Proof. unfold region_blocks. rewrite Nat2Z.inj_succ, Z.pow_succ_r by lia. lia. Qed.

Lemma region_blocks_lt i j : (i < j)%nat → region_blocks i < region_blocks j.
Proof.
  unfold region_blocks. intros.
  assert (2 ^ Z.of_nat i < 2 ^ Z.of_nat j) by (apply Z.pow_lt_mono_r; lia). lia.
Qed.

Lemma region_blocks_inj i j : region_blocks i = region_blocks j → i = j.
Proof.
  intros E. destruct (Nat.lt_trichotomy i j) as [Hl|[->|Hl]]; [|done|];
    apply region_blocks_lt in Hl; lia.
Qed.

Lemma operator_new_ok n h p h' :
  heap_ok h → 0 ≤ n → Heap.operator_new n h = Some (p, h') →
  p = Heap.brk h ∧ Heap.live h !! p = None ∧
  Heap.live h' = <[p := n]> (Heap.live h) ∧ heap_ok h'.
Proof.
  intros (Hb & Hl & Hr & Hd) Hn Hnew. unfold Heap.operator_new in Hnew.
  destruct (_ && _) eqn:E; [|done]. simplify_eq.
  apply andb_true_iff in E as [E1 E2]. apply Z.leb_le in E1, E2.
  assert (Heap.live h !! Heap.brk h = None) as Hfresh.
  { destruct (Heap.live h !! Heap.brk h) eqn:E; [|done]. apply Hr in E. lia. }
  split; [done|]. split; [done|]. split; [done|].
  split; [simpl; lia|]. split; [done|]. simpl. split.
  - intros b m Hlk.
    destruct (decide (b = Heap.brk h)) as [->|Hne].
    + rewrite lookup_insert_eq in Hlk. simplify_eq. lia.
    + rewrite lookup_insert_ne in Hlk by done. apply Hr in Hlk. lia.
  - intros b m b' m' Hlk Hlk' Hlt.
    destruct (decide (b = Heap.brk h)) as [->|Hne];
      destruct (decide (b' = Heap.brk h)) as [->|Hne'].
    + lia.
    + rewrite lookup_insert_ne in Hlk' by done. apply Hr in Hlk'. lia.
    + rewrite lookup_insert_ne in Hlk by done. apply Hr in Hlk. lia.
    + rewrite lookup_insert_ne in Hlk, Hlk' by done. eauto.
Qed.

Lemma operator_delete_ok p h h' :
  heap_ok h → Heap.operator_delete p h = Some h' →
  heap_ok h' ∧ ∀ b, b ≠ p → Heap.live h' !! b = Heap.live h !! b.
Proof.
  intros (Hb & Hl & Hr & Hd) Hdel. unfold Heap.operator_delete in Hdel.
  destruct (p =? 0); [by simplify_eq|].
  destruct (Heap.live h !! p) eqn:E; [|done]. simplify_eq. simpl.
  split.
  - split; [done|]. split; [done|]. simpl. split.
    + intros b m Hlk.
      apply lookup_delete_Some in Hlk as [? Hlk]. apply Hr in Hlk. lia.
    + intros b m b' m' Hlk Hlk'.
      apply lookup_delete_Some in Hlk as [? Hlk].
      apply lookup_delete_Some in Hlk' as [? Hlk']. eauto.
  - intros b ?. by rewrite lookup_delete_ne.
Qed.

(** The current region fits below the heap limit. *)
Lemma current_region_fits s :
  consistent s →
  ∃ back, last (chunks_ (pool s)) = Some back ∧
    chunks_ (pool s) !! (length (chunks_ (pool s)) - 1)%nat = Some back ∧
    Heap.live (heap s) !! back = Some (capacity_ (pool s) * chunkSize) ∧
    0 < capacity_ (pool s) ∧
    capacity_ (pool s) * chunkSize ≤ Heap.limit (heap s).
Proof.
  intros Hc. destruct (last (chunks_ (pool s))) as [back|] eqn:E.
  2:{ apply last_None in E. by destruct (c_chunks _ Hc). }
  exists back. rewrite last_lookup in E.
  replace (pred (length (chunks_ (pool s)))) with (length (chunks_ (pool s)) - 1)%nat in E by lia.
  pose proof (c_regions _ Hc _ _ E) as Hlive.
  rewrite <- (c_capacity _ Hc) in Hlive.
  destruct (c_heap _ Hc) as (_ & _ & Hr & _). pose proof (Hr _ _ Hlive).
  rewrite (c_capacity _ Hc). pose proof (region_blocks_pos (length (chunks_ (pool s)) - 1)).
  rewrite <- (c_capacity _ Hc) in *.
  repeat split; try done; lia.
Qed.

Lemma start_consistent h s :
  heap_ok h → 32 * chunkSize < SizeT.modulus →
  start chunkSize h = Some s →
  consistent s ∧ threw s = false ∧ outstanding s = [].
Proof.
  intros Hh Hsmall Hs. unfold start, ctor in Hs.
  unfold SizeT.mul in Hs. rewrite wrap_small in Hs by lia.
  destruct (Heap.operator_new _ h) as [[c h']|] eqn:E; [|done]. simplify_eq.
  apply operator_new_ok in E as (-> & Hfresh & Hlive & Hh'); [|done|lia].
  split; [|done]. constructor; simpl; try done.
  - intros [|i] b Hi; [|done]. simpl in Hi. simplify_eq.
    rewrite Hlive, lookup_insert_eq. done.
  - intros p Hp. by apply elem_of_nil in Hp.
  - constructor.
Qed.

Lemma acquire_consistent s p a h :
  consistent s →
  allocate chunkSize (pool s, heap s) = Ok p (a, h) →
  consistent {| pool := a; heap := h;
                outstanding := outstanding s ++ [p]; threw := threw s |}.
Proof.
  intros Hc Hal.
  destruct (current_region_fits s Hc) as (back & Hlast & Hidx & Hlive & Hcap0 & Hfit).
  pose proof (c_heap _ Hc) as Hheap.
  pose proof (c_cursor _ Hc) as Hcur.
  pose proof (c_nodup _ Hc) as Hnd.
  pose proof (c_issued _ Hc) as Hiss.
  pose proof (c_regions _ Hc) as Hregs.
  pose proof (c_capacity _ Hc) as Hcapeq.
  pose proof (c_chunks _ Hc) as Hne.
  destruct Hheap as (Hbrk & Hlim & Hreg & Hdisj).
  destruct s as [[cap sz chunks free] hp out thr]; unfold issued in *;
    cbn [chunks_ size_ capacity_ returned_ pool heap outstanding threw] in *.
  assert (S (length chunks - 1) = length chunks) as Hlen
    by (destruct chunks; [done|simpl; lia]).
  assert (cap ≤ cap * chunkSize) as Hcc by nia.
  assert (0 ≤ sz * chunkSize ≤ cap * chunkSize) as Hsc by nia.
  clear Hc. unfold allocate in Hal. simpl in Hal.
  destruct (last free) as [m|] eqn:Efree.
  - apply Ok_inj in Hal as [<- [= <- <-]]. apply last_Some in Efree as [free' ->].
    rewrite removelast_last.
    constructor; simpl; try done.
    + intros q Hq. unfold issued. cbn [chunks_ size_ capacity_ returned_ pool heap outstanding threw].
      destruct (Hiss q) as (i & b & j & ?); [set_solver|].
      by exists i, b, j.
    + eapply NoDup_Permutation_proper; [|exact Hnd].
      rewrite <- !(assoc_L (++)). apply Permutation_app_head, Permutation_app_comm.
  - apply last_None in Efree. subst free. unfold bind in Hal.
    rewrite app_nil_r in *.
    destruct (sz =? cap) eqn:Esz.
    + apply Z.eqb_eq in Esz. subst sz.
      unfold allocate_memory_ in Hal. simpl in Hal.
      unfold SizeT.mul in Hal.
      rewrite (wrap_small (cap * 2)) in Hal by lia.
      rewrite (wrap_small (cap * 2 * chunkSize)) in Hal by lia.
      destruct (Heap.operator_new _ hp) as [[c h']|] eqn:E; [|done].
      apply operator_new_ok in E as (Hc & Hfresh & Hlive' & Hh'); [|done|lia].
      subst c. simpl in Hal. rewrite last_snoc in Hal.
      apply Ok_inj in Hal as [<- [= <- <-]].
      unfold SizeT.add. rewrite Z.mul_0_l, (wrap_small 0), (wrap_small (0 + 1))
        by (unfold SizeT.modulus; lia).
      rewrite Z.add_0_r.
      assert (∀ (i : nat) b, chunks !! i = Some b → b ≠ Heap.brk hp) as Hold.
      { intros i b Hi ->. apply Hregs in Hi. congruence. }
      constructor; simpl.
      * done.
      * by destruct chunks.
      * rewrite length_app. simpl.
        replace (length chunks + 1 - 1)%nat with (S (length chunks - 1)) by lia.
        rewrite region_blocks_S. lia.
      * lia.
      * intros i b Hi. rewrite Hlive'.
        apply lookup_app_Some in Hi as [Hi|[Hge Hi]].
        -- rewrite lookup_insert_ne by (intros <-; by eapply Hold). by apply Hregs.
        -- destruct (i - length chunks)%nat as [|k] eqn:Ek; [|done].
           simpl in Hi. injection Hi as <-. rewrite lookup_insert_eq.
           replace i with (S (length chunks - 1)) by lia.
           rewrite region_blocks_S, <- Hcapeq. f_equal. lia.
      * intros q Hq. unfold issued. cbn [chunks_ size_ capacity_ returned_ pool heap outstanding threw]. rewrite app_nil_r in Hq. apply elem_of_app in Hq as [Hq|Hq].
        -- destruct (Hiss q Hq) as (i & b & j & Hi & Hj & _ & ->).
           exists i, b, j. split; [by apply lookup_app_l_Some|]. split; [done|].
           split; [|done]. rewrite length_app. simpl.
           apply lookup_lt_Some in Hi. lia.
        -- apply list_elem_of_singleton in Hq. subst q.
           exists (length chunks), (Heap.brk hp), 0.
           split; [by rewrite lookup_app_r, Nat.sub_diag|].
           split; [pose proof (region_blocks_pos (length chunks)); lia|].
           split; [lia|lia].
      * rewrite app_nil_r. apply NoDup_app. split; [done|]. split; [|apply NoDup_singleton].
        intros q Hq Hq'. apply list_elem_of_singleton in Hq'. subst q.
        destruct (Hiss _ Hq) as (i & b & j & Hi & Hj & _ & Heq).
        apply Hregs in Hi. apply Hreg in Hi. nia.
    + apply Z.eqb_neq in Esz. unfold ret in Hal. simpl in Hal.
      rewrite Hlast in Hal. apply Ok_inj in Hal as [<- [= <- <-]].
      unfold SizeT.mul, SizeT.add.
      rewrite (wrap_small (sz * chunkSize)), wrap_small by lia.
      constructor; simpl; try done.
      * lia.
      * intros q Hq. unfold issued. cbn [chunks_ size_ capacity_ returned_ pool heap outstanding threw]. rewrite app_nil_r in Hq. apply elem_of_app in Hq as [Hq|Hq].
        -- destruct (Hiss q Hq) as (i & b & j & Hi & Hj & Hk & ->).
           exists i, b, j. split; [done|]. split; [done|]. split; [|done].
           intros Hl. specialize (Hk Hl). lia.
        -- apply list_elem_of_singleton in Hq. subst q.
           exists (length chunks - 1)%nat, back, sz.
           split; [done|]. rewrite <- Hcapeq. repeat split; lia.
      * rewrite app_nil_r. apply NoDup_app. split; [done|]. split; [|apply NoDup_singleton].
        intros q Hq Hq'. apply list_elem_of_singleton in Hq'. subst q.
        destruct (Hiss _ Hq) as (i & b & j & Hi & Hj & Hk & Heq).
        destruct (decide (S i = length chunks)) as [Hl|Hl].
        -- specialize (Hk Hl). replace (length chunks - 1)%nat with i in Hidx by lia.
           rewrite Hidx in Hi. injection Hi as <-. nia.
        -- assert (i < length chunks - 1)%nat as Hlt
             by (apply lookup_lt_Some in Hi; lia).
           pose proof (Hregs _ _ Hi) as Hli.
           pose proof (region_blocks_lt _ _ Hlt) as Hrb. rewrite <- Hcapeq in Hrb.
           assert (b ≠ back) as Hbb.
           { intros ->. rewrite Hlive in Hli. injection Hli as Hli.
             apply Z.mul_reg_r in Hli; lia. }
           destruct (Z.lt_total b back) as [Hbl|[?|Hbl]]; [|done|].
           ++ pose proof (Hdisj _ _ _ _ Hli Hlive Hbl). nia.
           ++ pose proof (Hdisj _ _ _ _ Hlive Hli Hbl). nia.
Qed.

Lemma release_consistent s p :
  consistent s → p ∈ outstanding s →
  consistent {| pool := mk (capacity_ (pool s)) (size_ (pool s))
                           (chunks_ (pool s)) (returned_ (pool s) ++ [p]);
                heap := heap s;
                outstanding := filter (λ q, q ≠ p) (outstanding s);
                threw := threw s |}.
Proof.
  intros Hc Hp. pose proof (c_nodup _ Hc) as Hnd.
  apply NoDup_app in Hnd as (Hnd1 & Hnd2 & Hnd3).
  constructor; simpl; try apply Hc.
  - intros q Hq. destruct (c_issued _ Hc q) as (i & b & j & ?).
    + apply elem_of_app in Hq as [Hq|Hq].
      * apply list_elem_of_filter in Hq as [_ Hq]. set_solver.
      * apply elem_of_app in Hq as [Hq|Hq]; [set_solver|].
        apply list_elem_of_singleton in Hq. subst q. set_solver.
    + by exists i, b, j.
  - apply NoDup_app. split; [by apply NoDup_filter|]. split.
    + intros q Hq Hq'. apply list_elem_of_filter in Hq as [Hqp Hq].
      apply elem_of_app in Hq' as [Hq'|Hq']; [by eapply Hnd2|].
      by apply list_elem_of_singleton in Hq'.
    + apply NoDup_app. split; [done|]. split; [|apply NoDup_singleton].
      intros q Hq Hq'. apply list_elem_of_singleton in Hq'. subst q.
      by eapply Hnd2.
Qed.

Lemma step_consistent s e s' :
  consistent s → step chunkSize s e = Some s' → threw s' = false →
  consistent s' ∧ threw s = false.
Proof.
  intros Hc Hstep Hthrew. destruct e as [|p|p]; unfold step in Hstep.
  - destruct (allocate chunkSize (pool s, heap s)) as [q [a h]|[a h]| |] eqn:E;
      simplify_eq; simpl in *; try done.
    split; [|done]. by apply acquire_consistent.
  - destruct (decide (p ∈ outstanding s)); [|done].
    unfold deallocate in Hstep. injection Hstep as <-. simpl in *.
    split; [|done]. by apply release_consistent.
  - destruct (decide (p ∈ chunks_ (pool s))) as [|Hp]; [done|].
    destruct (Heap.operator_delete p (heap s)) as [h|] eqn:E; [|done].
    simplify_eq. simpl in *. split; [|done].
    apply operator_delete_ok in E as [Hh Hlive]; [|apply Hc].
    constructor; simpl; try apply Hc; [done|].
    intros i b Hi. rewrite Hlive; [by apply Hc|].
    intros ->. apply Hp. by eapply list_elem_of_lookup_2.
Qed.

Lemma run_consistent es s s' :
  consistent s → run chunkSize es s = Some s' → threw s' = false →
  consistent s'.
Proof.
  revert s. induction es as [|e es IH]; intros s Hc Hrun Hthrew; simpl in Hrun.
  - by simplify_eq.
  - destruct (step chunkSize s e) as [s1|] eqn:E; [|done].
    assert (threw s1 = false) as Hs1.
    { clear IH Hc E. revert s1 Hrun. induction es as [|e' es IH']; intros s1 Hrun; simpl in Hrun.
      - by simplify_eq.
      - destruct (step chunkSize s1 e') as [s2|] eqn:E'; [|done].
        specialize (IH' _ Hrun).
        destruct e'; unfold step in E'.
        + destruct (allocate chunkSize (pool s1, heap s1)) as [q [a h]|[a h]| |];
            simplify_eq; simpl in *; done.
        + destruct (decide (p ∈ outstanding s1)); [|done].
          unfold deallocate in E'. by injection E' as <-.
        + destruct (decide (p ∈ chunks_ (pool s1))); [done|].
          destruct (Heap.operator_delete p (heap s1)); simplify_eq; done. }
    eapply IH; [|done..]. by eapply step_consistent.
Qed.

Lemma heap_ok_init room limit :
  2 * limit < SizeT.modulus → heap_ok (Heap.init room limit).
Proof.
  intros. split; [done|]. split; [done|]. simpl.
  split; intros *; by rewrite lookup_empty.
Qed.

(** Every run from the construction of the pool on in which no acquire
    has thrown leaves the pool consistent. *)
Lemma reachable_consistent h s0 es s :
  heap_ok h → 32 * chunkSize < SizeT.modulus →
  start chunkSize h = Some s0 → run chunkSize es s0 = Some s →
  threw s = false → consistent s.
Proof.
  intros Hh Hsmall Hstart Hrun Hthrew.
  apply (start_consistent _ _ Hh Hsmall) in Hstart as (Hc & _ & _).
  by eapply run_consistent.
Qed.

(** X1: C3 on the runs where it holds.  On a pool of positive block size, along every run
    of acquire and release calls (releases of outstanding addresses only)
    in which no acquire has thrown, the address an acquire returns is not
    outstanding and is block [j] of a live region [i] of the pool: its
    offset in that region is [j * chunkSize] with [j] below the capacity
    of the region. *)
Theorem acquire_fresh_and_aligned_while_no_acquire_threw h s0 es s p a h' :
  heap_ok h → 32 * chunkSize < SizeT.modulus →
  start chunkSize h = Some s0 → run chunkSize es s0 = Some s →
  threw s = false →
  allocate chunkSize (pool s, heap s) = Ok p (a, h') →
  (p ∉ outstanding s) ∧
  ∃ (i : nat) (b j : Z),
    chunks_ a !! i = Some b ∧
    Heap.live h' !! b = Some (region_blocks i * chunkSize) ∧
    0 ≤ j < region_blocks i ∧
    p = b + j * chunkSize.
Proof.
  intros Hh Hsmall Hstart Hrun Hthrew Hal.
  pose proof (reachable_consistent _ _ _ _ Hh Hsmall Hstart Hrun Hthrew) as Hc.
  pose proof (acquire_consistent _ _ _ _ Hc Hal) as Hc'.
  pose proof (c_nodup _ Hc') as Hnd. pose proof (c_issued _ Hc' p) as Hiss.
  cbn [pool heap outstanding] in Hnd, Hiss.
  split.
  - rewrite <- (assoc_L (++)) in Hnd. apply NoDup_app in Hnd as (_ & Hnd & _).
    intros Hin. apply (Hnd _ Hin). set_solver.
  - destruct Hiss as (i & b & j & Hi & Hj & _ & ->); [set_solver|].
    exists i, b, j. split; [done|]. split; [|done].
    by apply (c_regions _ Hc').
Qed.

(** X2: C4 on the runs where it holds.  The first region has 32 blocks; along every run in
    which no acquire has thrown the cursor never passes the capacity, an
    acquire creates a region exactly when the free list is empty and the
    cursor equals the capacity, the new region then has twice the blocks of
    the one before it, and the block returned is its block 0, the cursor
    ending at 1. *)
Theorem region_capacity_doubles_while_no_acquire_threw h s0 es s p a h' :
  heap_ok h → 32 * chunkSize < SizeT.modulus →
  start chunkSize h = Some s0 → run chunkSize es s0 = Some s →
  threw s = false →
  allocate chunkSize (pool s, heap s) = Ok p (a, h') →
  (∃ first, chunks_ (pool s0) = [first] ∧ capacity_ (pool s0) = 32 ∧
            size_ (pool s0) = 0 ∧
            Heap.live (heap s0) !! first = Some (32 * chunkSize)) ∧
  size_ (pool s) ≤ capacity_ (pool s) ∧
  if bool_decide (returned_ (pool s) = [] ∧ size_ (pool s) = capacity_ (pool s))
  then ∃ old new,
         last (chunks_ (pool s)) = Some old ∧
         chunks_ a = chunks_ (pool s) ++ [new] ∧
         Heap.live h' !! old = Some (capacity_ (pool s) * chunkSize) ∧
         Heap.live h' !! new = Some (2 * capacity_ (pool s) * chunkSize) ∧
         capacity_ a = 2 * capacity_ (pool s) ∧
         p = new + 0 * chunkSize ∧ size_ a = 1
  else chunks_ a = chunks_ (pool s) ∧ capacity_ a = capacity_ (pool s) ∧
       h' = heap s.
Proof.
  intros Hh Hsmall Hstart Hrun Hthrew Hal.
  pose proof (reachable_consistent _ _ _ _ Hh Hsmall Hstart Hrun Hthrew) as Hc.
  split.
  { unfold start, ctor in Hstart. unfold SizeT.mul in Hstart.
    rewrite wrap_small in Hstart by lia.
    destruct (Heap.operator_new _ h) as [[c h1]|] eqn:E; [|done].
    injection Hstart as <-. simpl.
    apply operator_new_ok in E as (-> & _ & Hlive & _); [|done|lia].
    exists (Heap.brk h). rewrite Hlive, lookup_insert_eq. done. }
  split; [apply Hc|].
  destruct (current_region_fits s Hc) as (back & Hlast & Hidx & Hlive & Hcap0 & Hfit).
  pose proof (c_heap _ Hc) as (Hbrk & Hlim & Hreg & Hdisj).
  pose proof (c_cursor _ Hc) as Hcur.
  destruct s as [[cap sz chunks free] hp out thr];
    cbn [chunks_ size_ capacity_ returned_ pool heap outstanding threw] in *.
  assert (cap ≤ cap * chunkSize) as Hcc by nia.
  unfold allocate in Hal. cbn [chunks_ size_ capacity_ returned_] in Hal.
  destruct (last free) as [m|] eqn:Efree.
  - apply Ok_inj in Hal as [<- [= <- <-]]. simpl.
    rewrite bool_decide_false; [done|].
    intros [-> _]. done.
  - apply last_None in Efree. subst free. unfold bind in Hal.
    destruct (sz =? cap) eqn:Esz.
    + apply Z.eqb_eq in Esz. subst sz. rewrite bool_decide_true by done.
      unfold allocate_memory_ in Hal. simpl in Hal.
      unfold SizeT.mul in Hal.
      rewrite (wrap_small (cap * 2)) in Hal by lia.
      rewrite (wrap_small (cap * 2 * chunkSize)) in Hal by lia.
      destruct (Heap.operator_new _ hp) as [[c h1]|] eqn:E; [|done].
      apply operator_new_ok in E as (Hcb & Hfresh & Hlive' & Hh'); [|done|lia].
      subst c. simpl in Hal. rewrite last_snoc in Hal.
      apply Ok_inj in Hal as [<- [= <- <-]]. simpl.
      exists back, (Heap.brk hp). rewrite Hlive'.
      rewrite lookup_insert_eq, lookup_insert_ne by congruence.
      unfold SizeT.add, SizeT.wrap.
      repeat split; try done; try (f_equal; lia). lia.
    + apply Z.eqb_neq in Esz. rewrite bool_decide_false by (intros [_ ?]; done).
      unfold ret in Hal. simpl in Hal.
      rewrite Hlast in Hal. by apply Ok_inj in Hal as [<- [= <- <-]].
Qed.
End Consistent.

(** A pool of 8-byte blocks on an empty heap, after a run that uses up the
    first region and returns one block: the next acquire hands that block
    out again. *)
Definition full_region_run : list event :=
  replicate 32 Acquire ++ [Release 4104].

Lemma acquire_fresh_and_aligned_while_no_acquire_threw_witness :
  ∃ s0 s a h',
    start 8 (Heap.init 4096 (2 ^ 47)) = Some s0 ∧
    run 8 full_region_run s0 = Some s ∧
    allocate 8 (pool s, heap s) = Ok 4104 (a, h') ∧
    (4104 ∉ outstanding s) ∧
    ∃ (i : nat) (b j : Z),
      chunks_ a !! i = Some b ∧
      Heap.live h' !! b = Some (region_blocks i * 8) ∧
      0 ≤ j < region_blocks i ∧
      4104 = b + j * 8.
Proof.
  assert (∃ s0 s a h',
            start 8 (Heap.init 4096 (2 ^ 47)) = Some s0 ∧
            run 8 full_region_run s0 = Some s ∧
            threw s = false ∧
            allocate 8 (pool s, heap s) = Ok 4104 (a, h'))
    as (s0 & s & a & h' & Hstart & Hrun & Hthrew & Hal).
  { eexists _, _, _, _. split; [vm_compute; reflexivity|].
    split; [vm_compute; reflexivity|]. split; vm_compute; reflexivity. }
  exists s0, s, a, h'. split; [exact Hstart|]. split; [exact Hrun|].
  split; [exact Hal|].
  apply (acquire_fresh_and_aligned_while_no_acquire_threw 8 ltac:(lia)
           (Heap.init 4096 (2 ^ 47)) s0 full_region_run s 4104 a h');
    [apply heap_ok_init; reflexivity|reflexivity|exact Hstart|exact Hrun
    |exact Hthrew|exact Hal].
Defined.

Lemma region_capacity_doubles_while_no_acquire_threw_witness :
  ∃ s0 s a h',
    start 8 (Heap.init 4096 (2 ^ 47)) = Some s0 ∧
    run 8 (replicate 32 Acquire) s0 = Some s ∧
    allocate 8 (pool s, heap s) = Ok 4352 (a, h') ∧
    chunks_ (pool s) = [4096] ∧ chunks_ a = [4096; 4352] ∧
    capacity_ (pool s) = 32 ∧ capacity_ a = 64 ∧ size_ a = 1 ∧
    Heap.live h' !! 4096 = Some (32 * 8) ∧
    Heap.live h' !! 4352 = Some (64 * 8).
Proof.
  assert (∃ s0 s a h',
            start 8 (Heap.init 4096 (2 ^ 47)) = Some s0 ∧
            run 8 (replicate 32 Acquire) s0 = Some s ∧
            threw s = false ∧
            allocate 8 (pool s, heap s) = Ok 4352 (a, h') ∧
            returned_ (pool s) = [] ∧ size_ (pool s) = capacity_ (pool s) ∧
            chunks_ (pool s) = [4096] ∧ capacity_ (pool s) = 32)
    as (s0 & s & a & h' & Hstart & Hrun & Hthrew & Hal & Hfree & Hfull
        & Hchunks & Hcap).
  { eexists _, _, _, _. split; [vm_compute; reflexivity|].
    split; [vm_compute; reflexivity|]. repeat split; vm_compute; reflexivity. }
  exists s0, s, a, h'. split; [exact Hstart|]. split; [exact Hrun|].
  split; [exact Hal|]. split; [exact Hchunks|].
  destruct (region_capacity_doubles_while_no_acquire_threw 8 ltac:(lia)
              (Heap.init 4096 (2 ^ 47)) s0 (replicate 32 Acquire) s 4352 a h')
    as (_ & _ & Hgrow);
    [apply heap_ok_init; reflexivity|reflexivity|exact Hstart|exact Hrun
    |exact Hthrew|exact Hal|].
  rewrite bool_decide_true in Hgrow by done.
  destruct Hgrow as (old & new & Hold & Hnew & Hlo & Hln & Hcap' & Hp & Hsz).
  rewrite Hchunks in Hold, Hnew. injection Hold as <-.
  assert (new = 4352) as -> by lia.
  rewrite Hcap in Hlo, Hln, Hcap'.
  split; [exact Hnew|]. split; [exact Hcap|]. split; [exact Hcap'|].
  split; [exact Hsz|]. split; [exact Hlo|exact Hln].
Defined.

(** *** Blocks do not overlap *)

(** X4.  On a pool of positive block size, after every run in which no
    acquire has thrown, every outstanding block lies wholly inside a live
    region of the pool, and the blocks of two different outstanding
    addresses do not overlap. *)
Theorem outstanding_blocks_are_disjoint_and_inside_regions
  chunkSize h s0 es s p q :
  0 < chunkSize →
  heap_ok h → 32 * chunkSize < SizeT.modulus →
  start chunkSize h = Some s0 → run chunkSize es s0 = Some s →
  threw s = false →
  p ∈ outstanding s → q ∈ outstanding s →
  (∃ b n, b ∈ chunks_ (pool s) ∧ Heap.live (heap s) !! b = Some n ∧
          b ≤ p ∧ p + chunkSize ≤ b + n) ∧
  (p ≠ q → p + chunkSize ≤ q ∨ q + chunkSize ≤ p).
Proof.
  intros Hpos Hh Hsmall Hstart Hrun Hthrew Hp Hq.
  pose proof (reachable_consistent chunkSize Hpos _ _ _ _ Hh Hsmall Hstart Hrun Hthrew)
    as Hc.
  destruct (c_issued _ _ Hc p) as (i & b & j & Hi & Hj & _ & ->);
    [apply elem_of_app; by left|].
  destruct (c_issued _ _ Hc q) as (i' & b' & j' & Hi' & Hj' & _ & ->);
    [apply elem_of_app; by left|].
  pose proof (c_regions _ _ Hc _ _ Hi) as Hl.
  pose proof (c_regions _ _ Hc _ _ Hi') as Hl'.
  pose proof (region_blocks_pos i) as Hri.
  pose proof (region_blocks_pos i') as Hri'.
  split.
  - exists b, (region_blocks i * chunkSize).
    split; [by eapply list_elem_of_lookup_2|]. split; [done|]. nia.
  - intros Hne. destruct (c_heap _ _ Hc) as (_ & _ & _ & Hsep).
    destruct (Z.lt_trichotomy b b') as [Hlt|[Heq|Hgt]].
    + left. pose proof (Hsep _ _ _ _ Hl Hl' Hlt). nia.
    + subst b'. rewrite Hl in Hl'. injection Hl' as Hsz.
      assert (region_blocks i = region_blocks i') as Hsame by nia.
      assert (j ≠ j') by (intros ->; done). nia.
    + right. pose proof (Hsep _ _ _ _ Hl' Hl Hgt). nia.
Qed.

(** *** The free list is a stack *)

(** [deallocate] of every address of [ps], in order. *)
Fixpoint release_all (ps : list Z) : M state unit :=
  match ps with
  | [] => ret tt
  | p :: ps => deallocate p ;; release_all ps
  end.

(** [n] calls of [allocate], the addresses they return in order. *)
Fixpoint acquire_n (chunkSize : Z) (n : nat) : M state (list Z) :=
  match n with
  | O => ret []
  | S n => p <- allocate chunkSize ;; ps <- acquire_n chunkSize n ;; ret (p :: ps)
  end.

Lemma release_all_pushes ps cap sz chunks free h :
  release_all ps (mk cap sz chunks free, h)
  = Ok tt (mk cap sz chunks (free ++ ps), h).
Proof.
  revert free. induction ps as [|p ps IH]; intros free; simpl.
  - by rewrite app_nil_r.
  - unfold bind. simpl. rewrite IH. by rewrite <- (assoc_L (++)).
Qed.

Lemma acquire_n_pops chunkSize ps cap sz chunks free h :
  acquire_n chunkSize (length ps) (mk cap sz chunks (free ++ ps), h)
  = Ok (rev ps) (mk cap sz chunks free, h).
Proof.
  induction ps as [|p ps IH] using rev_ind; simpl.
  - by rewrite app_nil_r.
  - rewrite length_app, Nat.add_comm. simpl.
    unfold bind at 1. unfold allocate. cbn [returned_ capacity_ size_ chunks_].
    rewrite (assoc_L (++)), last_snoc, removelast_last.
    unfold bind. rewrite IH. by rewrite rev_unit.
Qed.

(** X5.  Whatever the state of the pool, after [deallocate] of the
    addresses [ps] in order the next [length ps] calls of [allocate] return
    them in the reverse order, touch neither the cursor, the regions nor
    the heap, and leave the pool as it was before the releases. *)
Theorem released_blocks_are_acquired_in_reverse_order
  chunkSize (ps : list Z) cap sz chunks free h :
  (release_all ps ;; acquire_n chunkSize (length ps)) (mk cap sz chunks free, h)
  = Ok (rev ps) (mk cap sz chunks free, h).
Proof.
  unfold bind. rewrite release_all_pushes. apply acquire_n_pops.
Qed.

(** *** Destruction of the pool *)

(** Bytes of the live regions at the addresses [chunks]. *)
Definition bytes_of (h : Heap.t) (chunks : list Z) : Z :=
  foldr (λ c acc, default 0 (Heap.live h !! c) + acc) 0 chunks.

(** The regions of the pool are distinct live regions of the heap. *)
Definition regions_live (a : t) (h : Heap.t) : Prop :=
  heap_ok h ∧ NoDup (chunks_ a) ∧
  ∀ c, c ∈ chunks_ a → is_Some (Heap.live h !! c).

(** The heap [h] is the heap [h0] plus the regions of the pool. *)
Definition only_regions_added (h0 : Heap.t) (a : t) (h : Heap.t) : Prop :=
  (∀ b, b ∉ chunks_ a → Heap.live h !! b = Heap.live h0 !! b) ∧
  (∀ c, c ∈ chunks_ a → Heap.live h0 !! c = None) ∧
  Heap.room h + bytes_of h (chunks_ a) = Heap.room h0.

Lemma operator_new_Some n h c h' :
  Heap.operator_new n h = Some (c, h') →
  c = Heap.brk h ∧ Heap.room h' = Heap.room h - n ∧
  Heap.live h' = <[c := n]> (Heap.live h).
Proof.
  unfold Heap.operator_new. case_match; [|done]. by intros [= <- <-].
Qed.

Lemma bytes_of_frame h h' chunks :
  (∀ c, c ∈ chunks → Heap.live h' !! c = Heap.live h !! c) →
  bytes_of h' chunks = bytes_of h chunks.
Proof.
  induction chunks as [|c chunks IH]; intros Hsame; simpl; [done|].
  rewrite Hsame by (by left). rewrite IH; [done|].
  intros c' Hc'. apply Hsame. by right.
Qed.

Lemma bytes_of_app h xs ys :
  bytes_of h (xs ++ ys) = bytes_of h xs + bytes_of h ys.
Proof. induction xs as [|x xs IH]; simpl; [done|]. rewrite IH. lia. Qed.

(** What a call of [allocate] does to the regions and to the heap. *)
Lemma allocate_regions chunkSize a h :
  match allocate chunkSize (a, h) with
  | Ok _ (a', h') =>
      (chunks_ a' = chunks_ a ∧ h' = h) ∨
      (∃ c n, 0 ≤ n ∧ Heap.operator_new n h = Some (c, h') ∧
              chunks_ a' = chunks_ a ++ [c])
  | Throw (a', h') => chunks_ a' = chunks_ a ∧ h' = h
  | Undefined | OutOfFuel => True
  end.
Proof.
  unfold allocate. destruct (last (returned_ a)) as [m|]; [by left|].
  unfold bind. destruct (size_ a =? capacity_ a).
  - unfold allocate_memory_. cbn [capacity_ size_ chunks_ returned_].
    destruct (Heap.operator_new _ h) as [[c h1]|] eqn:E; [|done].
    cbn [chunks_]. rewrite last_snoc. right.
    exists c, (SizeT.mul (SizeT.mul (capacity_ a) 2) chunkSize).
    split; [apply wrap_range|]. by split.
  - unfold ret. destruct (last (chunks_ a)); [by left|done].
Qed.

Lemma grow_regions_live a h c n h' :
  regions_live a h → 0 ≤ n → Heap.operator_new n h = Some (c, h') →
  heap_ok h' ∧ NoDup (chunks_ a ++ [c]) ∧
  (∀ c', c' ∈ chunks_ a ++ [c] → is_Some (Heap.live h' !! c')) ∧
  (c ∉ chunks_ a) ∧ Heap.live h !! c = None.
Proof.
  intros (Hh & Hnd & Hlive) Hn Hnew.
  apply operator_new_ok in Hnew as (_ & Hfresh & Hl' & Hh'); [|done..].
  assert (c ∉ chunks_ a) as Hnotin.
  { intros Hin. destruct (Hlive _ Hin) as [x Hx]. congruence. }
  split; [done|]. split; [|split; [|done]].
  - apply NoDup_app. split; [done|]. split; [|apply NoDup_singleton].
    intros x Hx Hx'. apply list_elem_of_singleton in Hx'. by subst.
  - intros c' Hc'. rewrite Hl'. apply elem_of_app in Hc' as [Hc'|Hc'].
    + rewrite lookup_insert_ne by (intros <-; done). by apply Hlive.
    + apply list_elem_of_singleton in Hc' as ->. rewrite lookup_insert_eq. by eexists.
Qed.

Lemma step_regions_live chunkSize s e s' :
  regions_live (pool s) (heap s) → step chunkSize s e = Some s' →
  regions_live (pool s') (heap s').
Proof.
  intros Hr Hstep. destruct e as [|p|p]; unfold step in Hstep.
  - pose proof (allocate_regions chunkSize (pool s) (heap s)) as Ha.
    destruct (allocate chunkSize (pool s, heap s)) as [q [a h]|[a h]| |];
      try done; injection Hstep as <-; cbn [pool heap].
    + destruct Ha as [[Hc ->]|(c & n & Hn & Hnew & Hc)];
        [unfold regions_live in *; by rewrite Hc|].
      destruct (grow_regions_live _ _ _ _ _ Hr Hn Hnew) as (? & ? & ? & _).
      unfold regions_live. by rewrite Hc.
    + destruct Ha as [Hc ->]. unfold regions_live in *. by rewrite Hc.
  - case_decide; [|done]. simpl in Hstep. by injection Hstep as <-.
  - case_decide as Hin; [done|].
    destruct (Heap.operator_delete p (heap s)) as [h|] eqn:E; [|done].
    injection Hstep as <-. cbn [pool heap].
    destruct Hr as (Hh & Hnd & Hlive).
    apply operator_delete_ok in E as (Hh' & Hsame); [|done].
    split; [done|]. split; [done|].
    intros c Hc. rewrite Hsame by (intros ->; done). by apply Hlive.
Qed.

Lemma step_only_regions_added chunkSize h0 s e s' :
  regions_live (pool s) (heap s) →
  only_regions_added h0 (pool s) (heap s) →
  (∀ p, e ≠ ForeignDelete p) →
  step chunkSize s e = Some s' →
  only_regions_added h0 (pool s') (heap s').
Proof.
  intros Hr Ha0 Hpool Hstep. destruct e as [|p|p]; unfold step in Hstep.
  - pose proof (allocate_regions chunkSize (pool s) (heap s)) as Ha.
    destruct (allocate chunkSize (pool s, heap s)) as [q [a h]|[a h]| |];
      try done; injection Hstep as <-; cbn [pool heap].
    + destruct Ha as [[Hc ->]|(c & n & Hn & Hnew & Hc)];
        [unfold only_regions_added; by rewrite Hc|].
      destruct (grow_regions_live _ _ _ _ _ Hr Hn Hnew)
        as (_ & _ & _ & Hnotin & Hfresh).
      apply operator_new_Some in Hnew as (_ & Hroom & Hl').
      destruct Ha0 as (Hout & Hin & Hacct).
      unfold only_regions_added. rewrite Hc. split; [|split].
      * intros b Hb. rewrite Hl'.
        rewrite lookup_insert_ne by (intros <-; apply Hb, elem_of_app; right; by left).
        apply Hout. intros Hb'. apply Hb, elem_of_app. by left.
      * intros c' Hc'. apply elem_of_app in Hc' as [Hc'|Hc']; [by apply Hin|].
        apply list_elem_of_singleton in Hc' as ->. rewrite <- Hout; done.
      * rewrite bytes_of_app. simpl. rewrite Hl', lookup_insert_eq. simpl.
        rewrite (bytes_of_frame (heap s)); [lia|].
        intros c' Hc'. rewrite Hl'. apply lookup_insert_ne. by intros <-.
    + destruct Ha as [Hc ->]. unfold only_regions_added. by rewrite Hc.
  - case_decide; [|done]. simpl in Hstep. by injection Hstep as <-.
  - by destruct (Hpool p).
Qed.

Lemma start_regions chunkSize h s0 :
  heap_ok h → start chunkSize h = Some s0 →
  regions_live (pool s0) (heap s0) ∧ only_regions_added h (pool s0) (heap s0).
Proof.
  intros Hh Hstart. unfold start, ctor in Hstart.
  destruct (Heap.operator_new _ h) as [[c h1]|] eqn:E; [|done].
  injection Hstart as <-. cbn [pool heap chunks_ app].
  pose proof (operator_new_Some _ _ _ _ E) as (_ & Hroom & Hl').
  apply operator_new_ok in E as (_ & Hfresh & _ & Hh1);
    [|done|apply wrap_range].
  split.
  - split; [done|]. split; [apply NoDup_singleton|].
    intros c' Hc'. apply list_elem_of_singleton in Hc' as ->.
    rewrite Hl', lookup_insert_eq. by eexists.
  - split; [|split].
    + intros b Hb. rewrite Hl'. apply lookup_insert_ne.
      intros <-. apply Hb. by left.
    + intros c' Hc'. by apply list_elem_of_singleton in Hc' as ->.
    + simpl. rewrite Hl', lookup_insert_eq. simpl. lia.
Qed.

Lemma run_regions chunkSize h0 es s s' :
  regions_live (pool s) (heap s) → run chunkSize es s = Some s' →
  regions_live (pool s') (heap s') ∧
  (only_regions_added h0 (pool s) (heap s) →
   (∀ p, ForeignDelete p ∉ es) →
   only_regions_added h0 (pool s') (heap s')).
Proof.
  revert s. induction es as [|e es IH]; intros s Hr Hrun; simpl in Hrun.
  - injection Hrun as <-. by split.
  - destruct (step chunkSize s e) as [s1|] eqn:Hstep; [|done].
    pose proof (step_regions_live _ _ _ _ Hr Hstep) as Hr1.
    destruct (IH _ Hr1 Hrun) as (Hr' & Hadd). split; [done|].
    intros Ha0 Hpool. apply Hadd.
    + apply (step_only_regions_added chunkSize h0 s e s1 Hr Ha0); [|done].
      intros p ->. apply (Hpool p). by left.
    + intros p Hp. apply (Hpool p). by right.
Qed.

Lemma delete_chunks_ok chunks h :
  heap_ok h → NoDup chunks →
  (∀ c, c ∈ chunks → is_Some (Heap.live h !! c)) →
  ∃ h', delete_chunks chunks h = Ok tt h' ∧
        (∀ c, c ∈ chunks → Heap.live h' !! c = None) ∧
        (∀ b, b ∉ chunks → Heap.live h' !! b = Heap.live h !! b) ∧
        Heap.room h' = Heap.room h + bytes_of h chunks.
Proof.
  revert h. induction chunks as [|c chunks IH]; intros h Hh Hnd Hlive.
  - exists h. simpl. split; [done|]. split; [by intros c Hc; apply elem_of_nil in Hc|].
    split; [done|lia].
  - apply NoDup_cons in Hnd as [Hc Hnd].
    destruct (Hlive c) as [n Hn]; [by left|].
    destruct Hh as (Hbrk & Hlim & Hreg & Hsep).
    pose proof (Hreg _ _ Hn) as (Hc0 & _).
    assert (Heap.operator_delete c h
            = Some {| Heap.brk := Heap.brk h; Heap.room := Heap.room h + n;
                      Heap.limit := Heap.limit h;
                      Heap.live := delete c (Heap.live h) |}) as Hdel.
    { unfold Heap.operator_delete. rewrite Hn.
      by destruct (Z.eqb_spec c 0) as [->|_]; [lia|]. }
    pose proof (operator_delete_ok _ _ _
                  (conj Hbrk (conj Hlim (conj Hreg Hsep))) Hdel) as (Hh1 & _).
    destruct (IH _ Hh1 Hnd) as (h' & Hrun & Hgone & Hkept & Hroom).
    { intros c' Hc'. cbn [Heap.live].
      rewrite lookup_delete_ne by (intros <-; done). apply Hlive. by right. }
    exists h'. simpl. rewrite Hdel. split; [done|].
    cbn [Heap.live Heap.room] in *. split; [|split].
    + intros c' Hc'. apply elem_of_cons in Hc' as [->|Hc']; [|by apply Hgone].
      rewrite Hkept by done. apply lookup_delete_eq.
    + intros b Hb. rewrite Hkept by (intros ?; apply Hb; by right).
      apply lookup_delete_ne. intros <-. apply Hb. by left.
    + rewrite Hroom, Hn. simpl.
      rewrite (bytes_of_frame h); [lia|].
      intros c' Hc'. cbn [Heap.live]. apply lookup_delete_ne. by intros <-.
Qed.

(** X6.  After every run of calls on a pool the destructor returns: no
    region that [chunks_] records is live afterwards, every other region
    of the heap is as it was, and the bytes of the recorded regions are
    available again.  When no call of the run has thrown and the rest of
    the program has freed nothing in between, the live regions and the
    available bytes of the heap are those from before the pool was
    constructed. *)
Theorem destructor_gives_back_every_region chunkSize h s0 es s :
  heap_ok h →
  start chunkSize h = Some s0 → run chunkSize es s0 = Some s →
  ∃ h', dtor (pool s, heap s) = Ok tt h' ∧
        (∀ c, c ∈ chunks_ (pool s) → Heap.live h' !! c = None) ∧
        (∀ b, b ∉ chunks_ (pool s) →
              Heap.live h' !! b = Heap.live (heap s) !! b) ∧
        Heap.room h' = Heap.room (heap s) + bytes_of (heap s) (chunks_ (pool s)) ∧
        (threw s = false → (∀ p, ForeignDelete p ∉ es) →
         Heap.live h' = Heap.live h ∧ Heap.room h' = Heap.room h).
Proof.
  intros Hh Hstart Hrun.
  destruct (start_regions _ _ _ Hh Hstart) as (Hr0 & Ha0).
  destruct (run_regions chunkSize h _ _ _ Hr0 Hrun) as (Hr & Hadd).
  destruct Hr as (Hhs & Hnd & Hlive).
  destruct (delete_chunks_ok _ _ Hhs Hnd Hlive)
    as (h' & Hd & Hgone & Hkept & Hroom).
  exists h'. split; [done|]. split; [done|]. split; [done|]. split; [done|].
  intros _ Hpool. destruct (Hadd Ha0 Hpool) as (Hout & Hin & Hacct).
  split; [|lia].
  apply map_eq. intros b.
  destruct (decide (b ∈ chunks_ (pool s))) as [Hb|Hb].
  - by rewrite Hgone, Hin.
  - by rewrite Hkept, Hout.
Qed.

(** A pool of 8-byte blocks on an empty heap after 33 acquires: the first
    region is used up and the second one holds one block. *)
Definition two_region_run : list event := replicate 33 Acquire.

Lemma outstanding_blocks_are_disjoint_and_inside_regions_witness :
  ∃ s0 s,
    start 8 (Heap.init 4096 (2 ^ 47)) = Some s0 ∧
    run 8 two_region_run s0 = Some s ∧
    chunks_ (pool s) = [4096; 4352] ∧
    4344 ∈ outstanding s ∧ 4352 ∈ outstanding s ∧
    (∃ b n, b ∈ chunks_ (pool s) ∧ Heap.live (heap s) !! b = Some n ∧
            b ≤ 4344 ∧ 4344 + 8 ≤ b + n) ∧
    (4344 + 8 ≤ 4352 ∨ 4352 + 8 ≤ 4344).
Proof.
  assert (∃ s0 s,
            start 8 (Heap.init 4096 (2 ^ 47)) = Some s0 ∧
            run 8 two_region_run s0 = Some s ∧
            threw s = false ∧
            chunks_ (pool s) = [4096; 4352] ∧
            4344 ∈ outstanding s ∧ 4352 ∈ outstanding s)
    as (s0 & s & Hstart & Hrun & Hthrew & Hchunks & Hp & Hq).
  { eexists _, _. split; [vm_compute; reflexivity|].
    split; [vm_compute; reflexivity|]. split; [reflexivity|].
    split; [reflexivity|]. split; compute_done. }
  exists s0, s. split; [exact Hstart|]. split; [exact Hrun|].
  split; [exact Hchunks|]. split; [exact Hp|]. split; [exact Hq|].
  destruct (outstanding_blocks_are_disjoint_and_inside_regions
              8 (Heap.init 4096 (2 ^ 47)) s0 two_region_run s 4344 4352
              ltac:(lia) (heap_ok_init 4096 (2 ^ 47) eq_refl) eq_refl Hstart Hrun Hthrew Hp Hq)
    as [Hin Hdisj].
  split; [exact Hin|]. apply Hdisj. lia.
Defined.

Lemma destructor_gives_back_every_region_witness :
  ∃ s0 s h',
    start 8 (Heap.init 4096 (2 ^ 47)) = Some s0 ∧
    run 8 (two_region_run ++ [Release 4096]) s0 = Some s ∧
    chunks_ (pool s) = [4096; 4352] ∧
    dtor (pool s, heap s) = Ok tt h' ∧
    Heap.live h' = ∅ ∧ Heap.room h' = 4096.
Proof.
  assert (∃ s0 s,
            start 8 (Heap.init 4096 (2 ^ 47)) = Some s0 ∧
            run 8 (two_region_run ++ [Release 4096]) s0 = Some s ∧
            chunks_ (pool s) = [4096; 4352] ∧ threw s = false)
    as (s0 & s & Hstart & Hrun & Hchunks & Hthrew).
  { eexists _, _. split; [vm_compute; reflexivity|].
    split; [vm_compute; reflexivity|]. split; reflexivity. }
  destruct (destructor_gives_back_every_region
              8 (Heap.init 4096 (2 ^ 47)) s0 _ s
              (heap_ok_init 4096 (2 ^ 47) eq_refl) Hstart Hrun)
    as (h' & Hd & _ & _ & _ & Hback).
  exists s0, s, h'. split; [exact Hstart|]. split; [exact Hrun|].
  split; [exact Hchunks|]. split; [exact Hd|].
  apply Hback; [exact Hthrew|]. intros p Hp.
  apply elem_of_app in Hp as [Hp|Hp].
  - apply elem_of_replicate in Hp as [Hp _]. discriminate.
  - apply list_elem_of_singleton in Hp. discriminate.
Defined.

(** *** Fresh blocks *)

(** X24.  While the free list is empty and the current region is not
    used up, [allocate] carves the region in address order and does not
    call [::operator new]: with the cursor at [sz], the next [k] calls
    ([sz + k] at most the capacity) return the blocks [sz], [sz + 1], ...
    of the last region, each [chunkSize] bytes after the one before, leave
    the cursor at [sz + k] and touch neither the regions, the capacity nor
    the heap. *)
Theorem fresh_blocks_are_consecutive
  chunkSize cap sz chunks back h (k : nat) :
  0 ≤ chunkSize → 0 ≤ sz → sz + Z.of_nat k ≤ cap →
  cap * chunkSize < SizeT.modulus → cap < SizeT.modulus →
  last chunks = Some back →
  acquire_n chunkSize k (mk cap sz chunks [], h)
  = Ok ((λ i : nat, back + (sz + Z.of_nat i) * chunkSize) <$> seq 0 k)
       (mk cap (sz + Z.of_nat k) chunks [], h).
Proof.
  intros HB Hsz Hk Hfit Hcap Hback. revert sz Hsz Hk.
  induction k as [|k IH]; intros sz Hsz Hk.
  - simpl. unfold ret. by rewrite Z.add_0_r.
  - cbn [acquire_n]. unfold bind at 1. unfold allocate.
    cbn [returned_ last capacity_ size_ chunks_].
    destruct (Z.eqb_spec sz cap) as [->|_]; [lia|].
    unfold bind at 1. unfold ret at 1. cbn [chunks_ size_ capacity_ returned_].
    rewrite Hback. unfold SizeT.mul, SizeT.add.
    rewrite !wrap_small by nia.
    unfold bind. rewrite (IH (sz + 1)) by lia. unfold ret. f_equal.
    + cbn [seq fmap list_fmap]. rewrite Z.add_0_r. f_equal.
      rewrite <- fmap_S_seq, <- list_fmap_compose. apply list_fmap_ext.
      intros i x _. simpl. f_equal. lia.
    + do 2 f_equal. lia.
Qed.

Lemma fresh_blocks_are_consecutive_witness :
  ∃ s0, start 8 (Heap.init 4096 (2 ^ 47)) = Some s0 ∧
        acquire_n 8 4 (pool s0, heap s0)
        = Ok [4096; 4104; 4112; 4120] (mk 32 4 [4096] [], heap s0).
Proof.
  assert (∃ s0, start 8 (Heap.init 4096 (2 ^ 47)) = Some s0 ∧
                pool s0 = mk 32 0 [4096] []) as (s0 & Hstart & Hpool)
    by (eexists; split; vm_compute; reflexivity).
  exists s0. split; [exact Hstart|]. rewrite Hpool.
  exact (fresh_blocks_are_consecutive 8 32 0 [4096] 4096 (heap s0) 4
           ltac:(lia) ltac:(lia) ltac:(lia) eq_refl eq_refl eq_refl).
Defined.
End PoolFacts.

(** ** The dispatcher *)

Module DispatcherFacts.
Import FastAllocator.







(** A world in which no pool exists yet. *)
Definition fresh_world : world :=
  {| heap := Heap.init 65536 (2 ^ 47); pools := ∅ |}.


Lemma on_pool_Ok {R} chunkSize (call : M FixedAllocator.state R) w r w' :
  on_pool chunkSize call w = Ok r w' →
  ∃ a a', pools w !! chunkSize = Some a ∧
          call (a, heap w) = Ok r (a', heap w') ∧
          pools w' = <[chunkSize := a']> (pools w).
Proof.
  unfold on_pool. intros Ho.
  destruct (pools w !! chunkSize) as [a|] eqn:E; [|done].
  destruct (call (a, heap w)) as [r0 [a' h]|[a' h]| |] eqn:Ec; try done.
  apply Ok_inj in Ho as [<- <-]. by exists a, a'.
Qed.




(** The calls a program makes on the allocators of its element types, in
    order: [Allocate s n] is [FastAllocator<T>::allocate(n)] and
    [Deallocate s p n] is [FastAllocator<T>::deallocate(p, n)] for a [T]
    of [s] bytes.  A caller may catch the std::bad_alloc of a call and go
    on; a run is [None] when a call is undefined. *)
Inductive request :=
| Allocate (sizeofT n : Z)
| Deallocate (sizeofT point n : Z).

(** The block size of the pool a request goes to, if it goes to one: the
    test of lines 160 and 170. *)
Definition pool_of (r : request) : option Z :=
  match r with
  | Allocate s n | Deallocate s _ n =>
      if (s <=? maxSize) && (n <=? 1) then Some s else None
  end.

Definition serve (r : request) (w : world) : option world :=
  match r with
  | Allocate s n =>
      match allocate s n w with
      | Ok _ w' | Throw w' => Some w'
      | Undefined | OutOfFuel => None
      end
  | Deallocate s p n =>
      match deallocate s p n w with
      | Ok _ w' | Throw w' => Some w'
      | Undefined | OutOfFuel => None
      end
  end.

Fixpoint serve_all (rs : list request) (w : world) : option world :=
  match rs with
  | [] => Some w
  | r :: rs => match serve r w with Some w' => serve_all rs w' | None => None end
  end.

Lemma pool_allocate_keeps_regions chunkSize a h :
  match FixedAllocator.allocate chunkSize (a, h) with
  | Ok _ (a', _) | Throw (a', _) =>
      FixedAllocator.chunks_ a `prefix_of` FixedAllocator.chunks_ a'
  | Undefined | OutOfFuel => True
  end.
Proof.
  unfold FixedAllocator.allocate.
  destruct (last (FixedAllocator.returned_ a)) as [memory|]; [done|].
  unfold bind. destruct (FixedAllocator.size_ a =? FixedAllocator.capacity_ a).
  - unfold FixedAllocator.allocate_memory_.
    cbn [FixedAllocator.capacity_ FixedAllocator.chunks_].
    destruct (Heap.operator_new _ h) as [[new_chunk h']|]; [|done].
    cbn [FixedAllocator.chunks_]. rewrite last_snoc.
    cbn [FixedAllocator.chunks_]. by apply prefix_app_r.
  - unfold ret. destruct (last (FixedAllocator.chunks_ a)); done.
Qed.

Lemma getFixedAllocator_keeps_pools chunkSize w :
  match getFixedAllocator chunkSize w with
  | Ok a w' =>
      pools w' !! chunkSize = Some a ∧
      (∀ c, c ≠ chunkSize → pools w' !! c = pools w !! c) ∧
      (∀ a0, pools w !! chunkSize = Some a0 → a = a0)
  | Throw w' => pools w' = pools w ∧ pools w !! chunkSize = None
  | Undefined | OutOfFuel => False
  end.
Proof.
  unfold getFixedAllocator.
  destruct (pools w !! chunkSize) as [a|] eqn:E.
  - split; [done|]. split; [done|]. by intros a0 [= ->].
  - unfold FixedAllocator.ctor.
    destruct (Heap.operator_new _ (heap w)) as [[chunk h]|]; cbn [pools].
    + split; [apply lookup_insert_eq|].
      split; [intros c Hc; by apply lookup_insert_ne|]. done.
    + done.
Qed.

(** What one request leaves of the pools: a pool is never removed and
    keeps the regions it has, and only the pool the request goes to is
    touched or created. *)
Definition pools_kept (only : option Z) (w w' : world) : Prop :=
  (∀ c a, pools w !! c = Some a →
     ∃ a', pools w' !! c = Some a' ∧
           FixedAllocator.chunks_ a `prefix_of` FixedAllocator.chunks_ a') ∧
  (∀ c, only ≠ Some c → pools w' !! c = pools w !! c).

Lemma on_pool_keeps_pools {R} chunkSize (call : M FixedAllocator.state R) w :
  (∀ a h, match call (a, h) with
          | Ok _ (a', _) | Throw (a', _) =>
              FixedAllocator.chunks_ a `prefix_of` FixedAllocator.chunks_ a'
          | Undefined | OutOfFuel => True
          end) →
  match on_pool chunkSize call w with
  | Ok _ w' | Throw w' => pools_kept (Some chunkSize) w w'
  | Undefined | OutOfFuel => True
  end.
Proof.
  intros Hcall. unfold on_pool.
  destruct (pools w !! chunkSize) as [a|] eqn:E; [|done].
  specialize (Hcall a (heap w)).
  assert (∀ a' h,
            FixedAllocator.chunks_ a `prefix_of` FixedAllocator.chunks_ a' →
            pools_kept (Some chunkSize) w
              {| heap := h; pools := <[chunkSize := a']> (pools w) |})
    as Hkept.
  { intros a' h Hpre. split; cbn [pools].
    - intros c a0 Hc. destruct (decide (c = chunkSize)) as [->|Hne].
      + rewrite lookup_insert_eq. exists a'. split; [done|]. congruence.
      + rewrite lookup_insert_ne by done. by exists a0.
    - intros c Hc. apply lookup_insert_ne. congruence. }
  destruct (call (a, heap w)) as [r [a' h]|[a' h]| |]; auto.
Qed.

Lemma serve_keeps_pools r w w' :
  serve r w = Some w' → pools_kept (pool_of r) w w'.
Proof.
  assert (∀ w, pools_kept None w w) as Hrefl.
  { intros w0. split; [|done]. intros c a Hc. by exists a. }
  assert (∀ {R} s (call : M FixedAllocator.state R) w w',
            (∀ a h, match call (a, h) with
                    | Ok _ (a', _) | Throw (a', _) =>
                        FixedAllocator.chunks_ a
                          `prefix_of` FixedAllocator.chunks_ a'
                    | Undefined | OutOfFuel => True
                    end) →
            match (getFixedAllocator s ;; on_pool s call) w with
            | Ok _ w1 | Throw w1 => w' = w1
            | Undefined | OutOfFuel => False
            end → pools_kept (Some s) w w') as Hsmall.
  { intros R s call w0 w0' Hcall. unfold bind.
    pose proof (getFixedAllocator_keeps_pools s w0) as Hg.
    destruct (getFixedAllocator s w0) as [a w1| w1| |]; try done.
    - destruct Hg as (Ha & Hother & Hsame).
      pose proof (on_pool_keeps_pools s call w1 Hcall) as Ho.
      assert (pools_kept (Some s) w1 w0' → pools_kept (Some s) w0 w0') as Hstep.
      { intros [Hk1 Hk2]. split.
        - intros c a0 Hc. destruct (decide (c = s)) as [->|Hne].
          + rewrite (Hsame _ Hc) in Ha. exact (Hk1 _ _ Ha).
          + apply Hk1. by rewrite Hother.
        - intros c Hc. rewrite Hk2 by done. apply Hother. congruence. }
      destruct (on_pool s call w1) as [r1 w2|w2| |]; try done;
        intros ->; by apply Hstep.
    - destruct Hg as [Hp _]. intros ->. split.
      + intros c a0 Hc. exists a0. by rewrite Hp.
      + intros c _. by rewrite Hp. }
  destruct r as [s n|s p n]; unfold serve, pool_of.
  - unfold allocate.
    destruct ((s <=? maxSize) && (n <=? 1)).
    + intros Hs. apply (Hsmall _ s (FixedAllocator.allocate s) w w').
      * apply pool_allocate_keeps_regions.
      * destruct (bind _ _ w) as [r1 w1|w1| |]; try done; by injection Hs as <-.
    + unfold operator_new.
      destruct (Heap.operator_new _ (heap w)) as [[q h]|];
        intros [= <-]; [|apply Hrefl].
      split; [|done]. intros c a Hc. by exists a.
  - unfold deallocate.
    destruct ((s <=? maxSize) && (n <=? 1)).
    + intros Hs. apply (Hsmall _ s (FixedAllocator.deallocate p) w w').
      * intros a h. unfold FixedAllocator.deallocate.
        cbn [FixedAllocator.chunks_]. reflexivity.
      * destruct (bind _ _ w) as [r1 w1|w1| |]; try done; by injection Hs as <-.
    + unfold operator_delete.
      destruct (Heap.operator_delete _ (heap w)) as [h|];
        intros [= <-].
      split; [|done]. intros c a Hc. by exists a.
Qed.

(** X7.  The pools are singletons that live as long as the program.
    [getFixedAllocator] returns the pool registered for the block size and
    touches the pool of no other size; it constructs the pool, with one
    region of 32 blocks, only when none is registered, and registers
    nothing when the construction throws.  Over every run of [allocate]
    and [deallocate] calls of any element types, a pool that exists is
    never removed and keeps every region it has, in order; a pool that no
    call of the run goes to is as it was, and none is created for a size
    that no call of the run goes to. *)
Theorem one_pool_per_block_size chunkSize w :
  match getFixedAllocator chunkSize w with
  | Ok a w' =>
      pools w' !! chunkSize = Some a ∧
      getFixedAllocator chunkSize w' = Ok a w' ∧
      (∀ c, c ≠ chunkSize → pools w' !! c = pools w !! c) ∧
      (is_Some (pools w !! chunkSize) → w' = w) ∧
      (pools w !! chunkSize = None →
       ∃ chunk,
         a = FixedAllocator.mk 32 0 [chunk] [] ∧
         Heap.operator_new (SizeT.mul 32 chunkSize) (heap w)
           = Some (chunk, heap w'))
  | Throw w' => pools w' = pools w ∧ pools w !! chunkSize = None
  | Undefined | OutOfFuel => False
  end ∧
  ∀ rs w', serve_all rs w = Some w' →
    (∀ c a, pools w !! c = Some a →
       ∃ a', pools w' !! c = Some a' ∧
             FixedAllocator.chunks_ a `prefix_of` FixedAllocator.chunks_ a') ∧
    (∀ c, (∀ r, r ∈ rs → pool_of r ≠ Some c) → pools w' !! c = pools w !! c).
Proof.
  split.
  - unfold getFixedAllocator at 1.
    destruct (pools w !! chunkSize) as [a|] eqn:E.
    + split; [done|]. split; [unfold getFixedAllocator; by rewrite E|].
      split; [done|]. split; [done|]. done.
    + unfold FixedAllocator.ctor.
      destruct (Heap.operator_new _ (heap w)) as [[chunk h]|] eqn:En.
      * cbn [pools heap]. split; [apply lookup_insert_eq|].
        split; [unfold getFixedAllocator; cbn [pools];
                by rewrite lookup_insert_eq|].
        split; [intros c Hc; by apply lookup_insert_ne|].
        split; [by intros [? ?]|]. intros _. by exists chunk.
      * done.
  - intros rs. revert w. induction rs as [|r rs IH]; intros w w' Hrun.
    + injection Hrun as <-. split; [|done]. intros c a Hc. by exists a.
    + cbn [serve_all] in Hrun.
      destruct (serve r w) as [w1|] eqn:Hs; [|done].
      apply serve_keeps_pools in Hs as [Hk1 Hk2].
      destruct (IH _ _ Hrun) as [Hr1 Hr2]. split.
      * intros c a Hc. destruct (Hk1 _ _ Hc) as (a1 & Hc1 & Hpre1).
        destruct (Hr1 _ _ Hc1) as (a' & Hc' & Hpre').
        exists a'. split; [done|]. by etrans.
      * intros c Hc. rewrite Hr2.
        -- apply Hk2. apply Hc. by left.
        -- intros r0 Hr0. apply Hc. by right.
Qed.

(** Two element sizes share a program: the 8-byte pool is filled past its
    first region while the 16-byte pool exists; the 16-byte pool is as it
    was, and the 8-byte pool has kept its first region and gained one. *)
Definition mixed_requests : list request :=
  replicate 33 (Allocate 8 1) ++ [Allocate 8 5; Deallocate 8 4096 1].

Lemma one_pool_per_block_size_witness :
  ∃ w0 w',
    serve_all [Allocate 16 1; Allocate 8 1] fresh_world = Some w0 ∧
    serve_all mixed_requests w0 = Some w' ∧
    pools w' !! 16 = pools w0 !! 16 ∧
    ∃ a a', pools w0 !! 8 = Some a ∧ pools w' !! 8 = Some a' ∧
            FixedAllocator.chunks_ a `prefix_of` FixedAllocator.chunks_ a' ∧
            length (FixedAllocator.chunks_ a) = 1%nat ∧
            length (FixedAllocator.chunks_ a') = 2%nat.
Proof.
  assert (∃ w0 w' a,
            serve_all [Allocate 16 1; Allocate 8 1] fresh_world = Some w0 ∧
            serve_all mixed_requests w0 = Some w' ∧
            pools w0 !! 8 = Some a ∧
            length (FixedAllocator.chunks_ a) = 1%nat ∧
            (∀ a', pools w' !! 8 = Some a' →
                   length (FixedAllocator.chunks_ a') = 2%nat))
    as (w0 & w' & a & Hw0 & Hw' & Ha & Hlen & Hlen').
  { eexists _, _, _. split; [vm_compute; reflexivity|].
    split; [vm_compute; reflexivity|]. split; [vm_compute; reflexivity|].
    split; [reflexivity|]. intros a'. vm_compute. by intros [= <-]. }
  destruct (proj2 (one_pool_per_block_size 8 w0) mixed_requests w' Hw')
    as [Hkept Hother].
  destruct (Hkept 8 a Ha) as (a' & Ha' & Hpre).
  exists w0, w'. split; [exact Hw0|]. split; [exact Hw'|]. split.
  - apply Hother. intros r Hr. unfold mixed_requests in Hr.
    apply elem_of_app in Hr as [Hr|Hr].
    + apply elem_of_replicate in Hr as [-> _]. discriminate.
    + apply elem_of_cons in Hr as [->|Hr]; [discriminate|].
      apply list_elem_of_singleton in Hr as ->. discriminate.
  - exists a, a'. split; [exact Ha|]. split; [exact Ha'|].
    split; [exact Hpre|]. split; [exact Hlen|]. by apply Hlen'.
Defined.

Lemma allocate_small sizeofT n w :
  sizeofT ≤ maxSize → n ≤ 1 →
  allocate sizeofT n w =
    (getFixedAllocator sizeofT ;;
     on_pool sizeofT (FixedAllocator.allocate sizeofT)) w.
Proof.
  intros Hs Hn. unfold allocate.
  by rewrite (proj2 (Z.leb_le _ _) Hs), (proj2 (Z.leb_le _ _) Hn).
Qed.

Lemma deallocate_small sizeofT p n w :
  sizeofT ≤ maxSize → n ≤ 1 →
  deallocate sizeofT p n w =
    (getFixedAllocator sizeofT ;;
     on_pool sizeofT (FixedAllocator.deallocate p)) w.
Proof.
  intros Hs Hn. unfold deallocate.
  by rewrite (proj2 (Z.leb_le _ _) Hs), (proj2 (Z.leb_le _ _) Hn).
Qed.

Lemma large_test sizeofT n :
  ¬ (sizeofT ≤ maxSize ∧ n ≤ 1) → (sizeofT <=? maxSize) && (n <=? 1) = false.
Proof.
  intros Hl. apply andb_false_iff.
  destruct (Z.leb_spec sizeofT maxSize), (Z.leb_spec n 1); auto.
  destruct Hl. done.
Qed.

(** X8.  A block that [allocate] took from a pool and that [deallocate]
    gives back with the same count is the block the next [allocate]
    returns, and the pools and the heap are then as they were after the
    first [allocate]. *)
Theorem small_block_round_trip sizeofT n w p w1 :
  sizeofT ≤ maxSize → n ≤ 1 →
  allocate sizeofT n w = Ok p w1 →
  ∃ w2, deallocate sizeofT p n w1 = Ok tt w2 ∧
        heap w2 = heap w1 ∧
        (∀ c, c ≠ sizeofT → pools w2 !! c = pools w1 !! c) ∧
        allocate sizeofT n w2 = Ok p w1.
Proof.
  intros Hs Hn Hal. rewrite allocate_small in Hal by done.
  unfold bind in Hal.
  destruct (getFixedAllocator sizeofT w) as [a0 w0| | |] eqn:Eg; try done.
  apply on_pool_Ok in Hal as (a & a' & _ & _ & Hpools).
  assert (pools w1 !! sizeofT = Some a') as Hreg
    by (by rewrite Hpools, lookup_insert_eq).
  destruct a' as [cap sz chunks free]. destruct w1 as [h1 ps1].
  cbn [pools heap] in *.
  eexists. rewrite deallocate_small, allocate_small by done.
  split; [|split; [|split]].
  - unfold bind, getFixedAllocator, on_pool. cbn [pools heap].
    rewrite Hreg. cbn [pools heap]. rewrite Hreg. reflexivity.
  - reflexivity.
  - intros c Hc. cbn [pools]. by apply lookup_insert_ne.
  - unfold bind, getFixedAllocator, on_pool. cbn [pools heap].
    rewrite lookup_insert_eq. cbn [pools heap]. rewrite lookup_insert_eq.
    unfold FixedAllocator.allocate.
    cbn [FixedAllocator.returned_ FixedAllocator.capacity_
         FixedAllocator.size_ FixedAllocator.chunks_].
    rewrite last_snoc, removelast_last, insert_insert_eq.
    by rewrite (insert_id _ _ _ Hreg).
Qed.

(** X9.  Memory that [allocate] took from [::operator new] and that
    [deallocate] gives back with the same count goes to
    [::operator delete]: the live regions and the available bytes of the
    heap are as before the [allocate], and no pool is touched. *)
Theorem large_block_round_trip sizeofT n w p w1 :
  PoolFacts.heap_ok (heap w) →
  ¬ (sizeofT ≤ maxSize ∧ n ≤ 1) →
  allocate sizeofT n w = Ok p w1 →
  ∃ w2, deallocate sizeofT p n w1 = Ok tt w2 ∧
        Heap.live (heap w2) = Heap.live (heap w) ∧
        Heap.room (heap w2) = Heap.room (heap w) ∧
        pools w2 = pools w ∧ pools w1 = pools w.
Proof.
  intros Hh Hl Hal. unfold allocate in Hal. unfold deallocate.
  rewrite large_test in * by done.
  unfold operator_new in Hal.
  destruct (Heap.operator_new _ (heap w)) as [[q h]|] eqn:En; [|done].
  apply Ok_inj in Hal as [<- <-]. cbn [heap pools].
  pose proof (PoolFacts.operator_new_ok _ _ _ _ Hh
                (proj1 (wrap_range (n * sizeofT))) En)
    as (Hq & Hfresh & _ & _).
  unfold Heap.operator_new in En. case_match; [|done].
  injection En as <- <-.
  unfold operator_delete, Heap.operator_delete. cbn [heap pools Heap.live].
  destruct Hh as (Hbrk & _).
  destruct (Z.eqb_spec (Heap.brk (heap w)) 0) as [E0|_]; [lia|].
  rewrite lookup_insert_eq. eexists. split; [reflexivity|].
  cbn [heap pools Heap.live Heap.room].
  split; [by apply delete_insert_id|]. split; [lia|done].
Qed.

Lemma small_block_round_trip_witness :
  ∃ p w1 w2,
    allocate 8 1 fresh_world = Ok p w1 ∧
    deallocate 8 p 1 w1 = Ok tt w2 ∧
    heap w2 = heap w1 ∧
    (∀ c, c ≠ 8 → pools w2 !! c = pools w1 !! c) ∧
    allocate 8 1 w2 = Ok p w1.
Proof.
  assert (∃ p w1, allocate 8 1 fresh_world = Ok p w1) as (p & w1 & Hal)
    by (eexists _, _; vm_compute; reflexivity).
  destruct (small_block_round_trip 8 1 fresh_world p w1
              ltac:(vm_compute; discriminate) ltac:(lia) Hal)
    as (w2 & Hde & Hheap & Hpools & Hagain).
  exists p, w1, w2. split; [exact Hal|]. split; [exact Hde|].
  split; [exact Hheap|]. split; [exact Hpools|exact Hagain].
Defined.

Lemma large_block_round_trip_witness :
  ∃ p w1 w2,
    allocate 8 3 fresh_world = Ok p w1 ∧
    Heap.live (heap w1) !! p = Some 24 ∧
    deallocate 8 p 3 w1 = Ok tt w2 ∧
    Heap.live (heap w2) = Heap.live (heap fresh_world) ∧
    Heap.room (heap w2) = Heap.room (heap fresh_world) ∧
    pools w2 = pools fresh_world ∧ pools w1 = pools fresh_world.
Proof.
  assert (∃ p w1, allocate 8 3 fresh_world = Ok p w1 ∧
                  Heap.live (heap w1) !! p = Some 24) as (p & w1 & Hal & Hlive)
    by (eexists _, _; split; vm_compute; reflexivity).
  destruct (large_block_round_trip 8 3 fresh_world p w1
              (PoolFacts.heap_ok_init 65536 (2 ^ 47) eq_refl) ltac:(lia) Hal)
    as (w2 & Hde & Hrest).
  exists p, w1, w2. split; [exact Hal|]. split; [exact Hlive|].
  split; [exact Hde|exact Hrest].
Defined.
End DispatcherFacts.

(** ** The list *)

Module ListFacts.
Import LinkedList.

Section Rep.
Context {T : Type} `{CopyConstructible T}.
Context {A : Type} `{NodeAllocator A}.
Context {Alloc : Type} `{AllocatorTraits Alloc}.

Local Abbreviation World := (World (T:=T) (A:=A) (Alloc:=Alloc)).
Local Abbreviation Node := (Node (T:=T)).
Local Abbreviation List := (List (Alloc:=Alloc)).

(** A cell of the chain: the address of a node and the element it holds
    ([None] for a sentinel). *)
Definition cell : Type := Z * option T.

Definition hd_addr (cs : list cell) (d : Z) : Z :=
  match cs with
  | [] => d
  | c :: _ => c.1
  end.

Fixpoint last_addr (d : Z) (cs : list cell) : Z :=
  match cs with
  | [] => d
  | c :: cs => last_addr c.1 cs
  end.

(** [chain m pv cs nx]: in the memory [m] the cells [cs] are linked in this
    order, the first one having [pv] as [prev] and the last one [nx] as
    [next]. *)
Fixpoint chain (m : gmap Z Node) (pv : Z) (cs : list cell) (nx : Z) : Prop :=
  match cs with
  | [] => True
  | c :: cs' =>
      m !! c.1 = Some (mkNode c.2 (hd_addr cs' nx) pv) ∧ chain m c.1 cs' nx
  end.

Definition elems (live : list (Z * T)) : list cell := prod_map id Some <$> live.

(** The cells up to a position and from it on. *)
Definition pre (l : List) (live : list (Z * T)) : list cell :=
  (begin_ l, None) :: elems live.
Definition post (l : List) (live : list (Z * T)) : list cell :=
  elems live ++ [(end_ l, None)].

Definition addrs (l : List) (live : list (Z * T)) : list Z :=
  begin_ l :: live.*1 ++ [end_ l].

(** The address an iterator to the first element of [live] holds, [end_]
    when there is none. *)
Definition pos_addr (l : List) (live : list (Z * T)) : Z :=
  match live with
  | [] => end_ l
  | c :: _ => c.1
  end.

(** The address of the last node of [live], [begin_] when there is none. *)
Definition back_addr (l : List) (live : list (Z * T)) : Z :=
  match last live with
  | Some c => c.1
  | None => begin_ l
  end.

(** The list object [l] with the live nodes [live], in order, in the
    memory [m]: the two sentinels and the live nodes form one doubly-linked
    chain, all at different non-null addresses, and [size_] is the number of
    live nodes. *)
Record rep (m : gmap Z Node) (l : List) (live : list (Z * T)) : Prop := {
  rep_size : size_ l = Z.of_nat (length live);
  rep_range : Z.of_nat (length live) < SizeT.modulus;
  rep_chain : chain m 0 (pre l [] ++ post l live) 0;
  rep_nodup : NoDup (addrs l live);
  rep_nonnull : 0 ∉ addrs l live
}.

Definition is_list (w : World) (this : Z) (l : List) (live : list (Z * T)) : Prop :=
  lists w !! this = Some l ∧ rep (nodes w) l live.

(** The node allocator has handed out exactly the nodes in memory. *)
Definition alloc_ok (w : World) : Prop := na_owns (na w) (dom (nodes w)).

Lemma hd_addr_app cs1 cs2 d : hd_addr (cs1 ++ cs2) d = hd_addr cs1 (hd_addr cs2 d).
Proof. by destruct cs1. Qed.

Lemma last_addr_app d cs1 cs2 :
  last_addr d (cs1 ++ cs2) = last_addr (last_addr d cs1) cs2.
Proof. revert d. induction cs1 as [|c cs1 IH]; intros d; simpl; auto. Qed.

Lemma last_addr_elem d cs : cs ≠ [] → last_addr d cs ∈ cs.*1.
Proof.
  revert d. induction cs as [|c cs IH]; intros d Hne; [done|]. simpl.
  destruct cs as [|c' cs]; [simpl; set_solver|].
  apply list_elem_of_further. by apply IH.
Qed.

Lemma chain_app m pv cs1 cs2 nx :
  chain m pv (cs1 ++ cs2) nx ↔
  chain m pv cs1 (hd_addr cs2 nx) ∧ chain m (last_addr pv cs1) cs2 nx.
Proof.
  revert pv. induction cs1 as [|c cs1 IH]; intros pv; simpl; [tauto|].
  rewrite IH, hd_addr_app. tauto.
Qed.

Lemma chain_frame m m' pv cs nx :
  (∀ p, p ∈ cs.*1 → m' !! p = m !! p) → chain m pv cs nx → chain m' pv cs nx.
Proof.
  revert pv. induction cs as [|c cs IH]; intros pv Hsame; simpl; [done|].
  intros [Hc Hcs]. split.
  - rewrite Hsame; [done|]. simpl. set_solver.
  - apply IH; [|done]. intros p Hp. apply Hsame. simpl. set_solver.
Qed.

Lemma chain_dom m pv cs nx p : chain m pv cs nx → p ∈ cs.*1 → p ∈ dom m.
Proof.
  revert pv. induction cs as [|c cs IH]; intros pv; simpl; [set_solver|].
  intros [Hc Hcs] Hp. apply elem_of_cons in Hp as [->|Hp].
  - by apply elem_of_dom_2 in Hc.
  - by eapply IH.
Qed.

Lemma chain_last m pv cs nx :
  cs ≠ [] → chain m pv cs nx →
  ∃ nd, m !! last_addr pv cs = Some nd ∧ next nd = nx.
Proof.
  revert pv. induction cs as [|c cs IH]; intros pv Hne; [done|]. simpl.
  intros [Hc Hcs]. destruct cs as [|c' cs]; [by eexists|].
  by apply IH.
Qed.

Lemma chain_set_last_next m pv cs nx nx' nd :
  cs ≠ [] → NoDup cs.*1 → chain m pv cs nx →
  m !! last_addr pv cs = Some nd →
  chain (<[last_addr pv cs := mkNode (elem_ nd) nx' (prev nd)]> m) pv cs nx'.
Proof.
  revert pv. induction cs as [|c cs IH]; intros pv Hne Hnd; [done|]. simpl.
  intros [Hc Hcs] Hlast. apply NoDup_cons in Hnd as [Hc1 Hnd].
  destruct cs as [|c' cs].
  - simpl in *. rewrite Hc in Hlast. injection Hlast as <-.
    by rewrite lookup_insert_eq.
  - split.
    + rewrite lookup_insert_ne; [done|].
      intros E. apply Hc1. rewrite <- E. by apply last_addr_elem.
    + by apply IH.
Qed.

Lemma chain_set_head_prev m pv pv' c cs nx :
  c.1 ∉ cs.*1 → chain m pv (c :: cs) nx →
  chain (<[c.1 := mkNode c.2 (hd_addr cs nx) pv']> m) pv' (c :: cs) nx.
Proof.
  simpl. intros Hc [_ Hcs]. split; [by rewrite lookup_insert_eq|].
  eapply chain_frame; [|done]. intros p Hp. rewrite lookup_insert_ne; [done|].
  by intros <-.
Qed.

Lemma last_addr_last d (cs : list cell) :
  last_addr d cs = match last cs with Some c => c.1 | None => d end.
Proof.
  revert d. induction cs as [|c cs IH]; intros d; [done|]. simpl.
  rewrite IH. destruct cs as [|c' cs']; [done|].
  change (last (c :: c' :: cs')) with (last (c' :: cs')).
  destruct (last (c' :: cs')) eqn:E; [done|]. by apply last_None in E.
Qed.

Lemma cells_split l live1 live2 :
  pre l [] ++ post l (live1 ++ live2) = pre l live1 ++ post l live2.
Proof.
  unfold pre, post, elems. rewrite fmap_app. simpl. by rewrite <- (assoc_L (++)).
Qed.

Lemma hd_post l live d : hd_addr (post l live) d = pos_addr l live.
Proof. by destruct live. Qed.

Lemma last_pre d l live : last_addr d (pre l live) = back_addr l live.
Proof.
  unfold pre, back_addr, elems. simpl. rewrite last_addr_last, fmap_last.
  by destruct (last live) as [[]|].
Qed.

Lemma pre_addrs l live : (pre l live).*1 = begin_ l :: live.*1.
Proof.
  unfold pre, elems. simpl. f_equal. rewrite <- list_fmap_compose.
  apply list_fmap_ext. by intros ? [].
Qed.

Lemma post_addrs l live : (post l live).*1 = live.*1 ++ [end_ l].
Proof.
  unfold post, elems. rewrite fmap_app. simpl. f_equal.
  rewrite <- list_fmap_compose. apply list_fmap_ext. by intros ? [].
Qed.

Lemma addrs_split l live1 live2 :
  addrs l (live1 ++ live2) = (pre l live1).*1 ++ (post l live2).*1.
Proof.
  unfold addrs. rewrite pre_addrs, post_addrs, fmap_app. simpl.
  by rewrite <- (assoc_L (++)).
Qed.

Lemma pos_addr_elem l live : pos_addr l live ∈ (post l live).*1.
Proof. rewrite post_addrs. destruct live; simpl; set_solver. Qed.

Lemma back_addr_elem l live : back_addr l live ∈ (pre l live).*1.
Proof.
  rewrite <- (last_pre 0). apply last_addr_elem. done.
Qed.

(** The two nodes around a position. *)
Lemma rep_around m l live1 live2 :
  rep m l (live1 ++ live2) →
  chain m 0 (pre l live1) (pos_addr l live2) ∧
  chain m (back_addr l live1) (post l live2) 0 ∧
  NoDup ((pre l live1).*1 ++ (post l live2).*1) ∧
  (∃ ndq, m !! back_addr l live1 = Some ndq ∧ next ndq = pos_addr l live2) ∧
  (∃ ndp, m !! pos_addr l live2 = Some ndp ∧ prev ndp = back_addr l live1) ∧
  back_addr l live1 ≠ 0 ∧ pos_addr l live2 ≠ 0 ∧
  back_addr l live1 ≠ pos_addr l live2.
Proof.
  intros [Hsz Hrg Hch Hnd Hnn].
  rewrite cells_split in Hch. apply chain_app in Hch as [Hpre Hpost].
  rewrite hd_post in Hpre. rewrite last_pre in Hpost.
  rewrite addrs_split in Hnd, Hnn.
  pose proof (pos_addr_elem l live2) as Hp.
  pose proof (back_addr_elem l live1) as Hq.
  split; [done|]. split; [done|]. split; [done|].
  split; [|split; [|split; [|split]]].
  - rewrite <- (last_pre 0). by apply chain_last.
  - unfold post in Hpost. destruct live2 as [|c live2]; simpl in Hpost.
    + destruct Hpost as [Hpost _]. by eexists.
    + destruct Hpost as [Hpost _]. by eexists.
  - intros E. apply Hnn, elem_of_app. left. by rewrite E in Hq.
  - intros E. apply Hnn, elem_of_app. right. by rewrite E in Hp.
  - intros E. apply NoDup_app in Hnd as (_ & Hnd & _).
    apply (Hnd _ Hq). by rewrite E.
Qed.

Lemma cells_addrs l live : (pre l [] ++ post l live).*1 = addrs l live.
Proof. by rewrite fmap_app, pre_addrs, post_addrs. Qed.

Lemma rep_dom m l live p : rep m l live → p ∈ addrs l live → p ∈ dom m.
Proof.
  intros Hr Hp. eapply chain_dom; [apply (rep_chain _ _ _ Hr)|].
  by rewrite cells_addrs.
Qed.

Lemma rep_bound m l live a :
  rep m l live → na_owns a (dom m) →
  Z.of_nat (length live) + 2 < SizeT.modulus.
Proof.
  intros Hr Hown. apply na_bounded in Hown.
  assert (length (addrs l live) ≤ base.size (dom m))%nat as Hle.
  { rewrite <- (size_list_to_set (C:=gset Z)) by apply Hr.
    apply subseteq_size. intros p Hp. apply elem_of_list_to_set in Hp.
    by eapply rep_dom. }
  unfold addrs in Hle. simpl in Hle. rewrite length_app, length_fmap in Hle.
  simpl in Hle. lia.
Qed.

(** A list object that differs in [size_] only. *)
Definition resized (l : List) (n : Z) : List :=
  mkList (allocator_ l) n (begin_ l) (end_ l).

Lemma insert_rep m l live1 live2 n v ndp ndq :
  rep m l (live1 ++ live2) → n ∉ dom m → n ≠ 0 →
  Z.of_nat (length (live1 ++ live2)) + 1 < SizeT.modulus →
  m !! pos_addr l live2 = Some ndp →
  m !! back_addr l live1 = Some ndq →
  rep (<[pos_addr l live2 := mkNode (elem_ ndp) (next ndp) n]>
        (<[back_addr l live1 := mkNode (elem_ ndq) n (prev ndq)]>
          (<[n := mkNode (Some v) (pos_addr l live2) (back_addr l live1)]> m)))
      (resized l (size_ l + 1)) (live1 ++ (n, v) :: live2).
Proof.
  intros Hr Hn Hn0 Hbound Hp Hq.
  destruct (rep_around _ _ _ _ Hr) as
    (Hpre & Hpost & Hnd & _ & (ndp' & Hp' & Hpq) & Hq0 & Hp0 & Hqp).
  rewrite Hp in Hp'. injection Hp' as <-.
  assert (∀ p, p ∈ addrs l (live1 ++ live2) → p ≠ n) as Hfresh.
  { intros p Hin ->. apply Hn. by eapply rep_dom. }
  rewrite addrs_split in Hfresh.
  pose proof (pos_addr_elem l live2) as Hpe.
  pose proof (back_addr_elem l live1) as Hqe.
  apply NoDup_app in Hnd as (Hnd1 & Hnd12 & Hnd2).
  assert (n ∉ (pre l live1).*1) as Hn1.
  { intros Hin. apply (Hfresh n); [|done]. apply elem_of_app. by left. }
  assert (n ∉ (post l live2).*1) as Hn2.
  { intros Hin. apply (Hfresh n); [|done]. apply elem_of_app. by right. }
  assert (n ≠ pos_addr l live2) as Hnp by (by intros ->).
  assert (n ≠ back_addr l live1) as Hnq by (by intros ->).
  assert (pos_addr l live2 ∉ (pre l live1).*1) as Hp1 by (intros ?; by eapply Hnd12).
  assert (back_addr l live1 ∉ (post l live2).*1) as Hq2 by (by apply Hnd12).
  set (m1 := <[n := mkNode (Some v) (pos_addr l live2) (back_addr l live1)]> m).
  set (m2 := <[back_addr l live1 := mkNode (elem_ ndq) n (prev ndq)]> m1).
  set (m3 := <[pos_addr l live2 := mkNode (elem_ ndp) (next ndp) n]> m2).
  assert (chain m3 0 (pre l live1) n) as Hpre'.
  { eapply chain_frame.
    { intros p Hin. apply lookup_insert_ne. by intros <-. }
    unfold m2. rewrite <- (last_pre 0).
    apply chain_set_last_next with (nx := pos_addr l live2); [done|done| |].
    - eapply chain_frame; [|exact Hpre].
      intros p Hin. apply lookup_insert_ne. by intros <-.
    - rewrite last_pre. unfold m1. by rewrite lookup_insert_ne. }
  assert (m3 !! n = Some (mkNode (Some v) (pos_addr l live2) (back_addr l live1)))
    as Hnode.
  { unfold m3, m2, m1. rewrite 2!lookup_insert_ne by congruence.
    by rewrite lookup_insert_eq. }
  assert (chain m3 n (post l live2) 0) as Hpost'.
  { assert (chain m2 (back_addr l live1) (post l live2) 0) as Hpost2.
    { eapply chain_frame; [|exact Hpost].
      intros p Hin. unfold m2, m1. rewrite !lookup_insert_ne; [done| |].
      - by intros <-.
      - by intros <-. }
    unfold post in *. destruct live2 as [|[p x] live2].
    - simpl in *. destruct Hpost as [Hpost _]. rewrite Hp in Hpost.
      injection Hpost as ->. split; [|done]. unfold m3. by rewrite lookup_insert_eq.
    - change (elems ((p, x) :: live2) ++ [(end_ l, None)])
        with ((p, Some x) :: (elems live2 ++ [(end_ l, None)])) in *.
      pose proof Hpost as [Hpost1 _]. cbn [pos_addr fst snd] in Hp, Hpost1.
      rewrite Hp in Hpost1. injection Hpost1 as ->.
      apply NoDup_cons in Hnd2 as [Hpn _].
      by apply (chain_set_head_prev m2 (back_addr l live1) n (p, Some x)). }
  constructor.
  - simpl. rewrite (rep_size _ _ _ Hr), !length_app. simpl. lia.
  - rewrite length_app in *. simpl. lia.
  - change (pre (resized l (size_ l + 1)) []) with (pre l []).
    change (post (resized l (size_ l + 1))) with (post l).
    rewrite cells_split. apply chain_app. rewrite hd_post, last_pre.
    split; [done|]. split; [|done].
    by rewrite (hd_post l live2 0 : hd_addr (elems live2 ++ [(end_ l, None)]) 0 = _).
  - rewrite addrs_split. change (post (resized l (size_ l + 1))) with (post l).
    change (pre (resized l (size_ l + 1))) with (pre l).
    replace ((post l ((n, v) :: live2)).*1) with (n :: (post l live2).*1)
      by (by rewrite !post_addrs).
    apply NoDup_app. split; [done|]. split.
    + intros p Hp1' Hp2. apply elem_of_cons in Hp2 as [->|Hp2]; [done|].
      by eapply Hnd12.
    + by apply NoDup_cons.
  - pose proof (rep_nonnull _ _ _ Hr) as Hnn. rewrite addrs_split in *.
    change (post (resized l (size_ l + 1))) with (post l).
    change (pre (resized l (size_ l + 1))) with (pre l).
    replace ((post l ((n, v) :: live2)).*1) with (n :: (post l live2).*1)
      by (by rewrite !post_addrs).
    intros Hin. apply elem_of_app in Hin as [Hin|Hin].
    + apply Hnn, elem_of_app. by left.
    + apply elem_of_cons in Hin as [?|Hin]; [done|]. apply Hnn, elem_of_app. by right.
Qed.

Lemma erase_rep m l live1 p x live2 ndq ndr :
  rep m l (live1 ++ (p, x) :: live2) →
  m !! back_addr l live1 = Some ndq →
  m !! pos_addr l live2 = Some ndr →
  rep (delete p
        (<[back_addr l live1 := mkNode (elem_ ndq) (pos_addr l live2) (prev ndq)]>
          (<[pos_addr l live2 := mkNode (elem_ ndr) (next ndr) (back_addr l live1)]> m)))
      (resized l (size_ l - 1)) (live1 ++ live2).
Proof.
  intros Hr Hq Hrn.
  destruct (rep_around _ _ _ _ Hr) as (Hpre & Hpost & Hnd & _ & _ & _ & _ & _).
  pose proof (rep_nonnull _ _ _ Hr) as Hnn. rewrite addrs_split in Hnn.
  pose proof (back_addr_elem l live1) as Hqe.
  pose proof (pos_addr_elem l live2) as Hre.
  replace ((post l ((p, x) :: live2)).*1) with (p :: (post l live2).*1) in *
    by (by rewrite !post_addrs).
  apply NoDup_app in Hnd as (Hnd1 & Hnd12 & Hnd2).
  apply NoDup_cons in Hnd2 as [Hp2 Hnd2].
  assert (p ∉ (pre l live1).*1) as Hp1.
  { intros Hin. apply (Hnd12 _ Hin). by left. }
  assert (∀ a, a ∈ (pre l live1).*1 → a ∉ (post l live2).*1) as Hdisj.
  { intros a Ha Ha'. apply (Hnd12 _ Ha). by right. }
  change (post l ((p, x) :: live2)) with ((p, Some x) :: post l live2) in Hpost.
  destruct Hpost as [Hpnode Hpost]. cbn [fst snd] in Hpnode, Hpost.
  set (m1 := <[pos_addr l live2 := mkNode (elem_ ndr) (next ndr) (back_addr l live1)]> m).
  set (m2 := <[back_addr l live1 := mkNode (elem_ ndq) (pos_addr l live2) (prev ndq)]> m1).
  assert (chain (delete p m2) 0 (pre l live1) (pos_addr l live2)) as Hpre'.
  { eapply chain_frame.
    { intros a Ha. apply lookup_delete_ne. by intros <-. }
    unfold m2. rewrite <- (last_pre 0).
    apply chain_set_last_next with (nx := p); [done|done| |].
    - eapply chain_frame; [|exact Hpre].
      intros a Ha. apply lookup_insert_ne. intros <-. by eapply Hdisj.
    - rewrite last_pre. unfold m1. rewrite lookup_insert_ne; [done|].
      intros E. eapply Hdisj; [done|]. by rewrite <- E. }
  assert (chain (delete p m2) (back_addr l live1) (post l live2) 0) as Hpost'.
  { eapply chain_frame with (m := m1).
    { intros a Ha. rewrite lookup_delete_ne by (by intros <-).
      unfold m2. apply lookup_insert_ne. intros <-. by eapply Hdisj. }
    unfold m1, post in *. destruct live2 as [|[r y] live2].
    - simpl in *. destruct Hpost as [Hpost _]. rewrite Hrn in Hpost.
      injection Hpost as ->. split; [|done]. by rewrite lookup_insert_eq.
    - change (elems ((r, y) :: live2) ++ [(end_ l, None)])
        with ((r, Some y) :: (elems live2 ++ [(end_ l, None)])) in *.
      pose proof Hpost as [Hpost1 _]. cbn [pos_addr fst snd] in Hrn, Hpost1.
      rewrite Hrn in Hpost1. injection Hpost1 as ->.
      apply NoDup_cons in Hnd2 as [Hrn2 _].
      by apply (chain_set_head_prev m p (back_addr l live1) (r, Some y)). }
  constructor.
  - simpl. rewrite (rep_size _ _ _ Hr), !length_app. simpl. lia.
  - pose proof (rep_range _ _ _ Hr) as Hrg. rewrite length_app in *. simpl in Hrg. lia.
  - change (pre (resized l (size_ l - 1)) []) with (pre l []).
    change (post (resized l (size_ l - 1))) with (post l).
    rewrite cells_split. apply chain_app. by rewrite hd_post, last_pre.
  - rewrite addrs_split. change (post (resized l (size_ l - 1))) with (post l).
    change (pre (resized l (size_ l - 1))) with (pre l).
    apply NoDup_app. by split.
  - rewrite addrs_split. change (post (resized l (size_ l - 1))) with (post l).
    change (pre (resized l (size_ l - 1))) with (pre l).
    intros Hin. apply Hnn. apply elem_of_app in Hin as [Hin|Hin].
    + apply elem_of_app. by left.
    + apply elem_of_app. right. by right.
Qed.

(** *** Running the two primitives *)

Ltac exec_cbn :=
  cbn [nodes lists na destroyed elem_ next prev size_ begin_ end_ allocator_
       ptr_ resized].

Ltac exec_simpl :=
  exec_cbn;
  repeat (first
    [ rewrite lookup_insert_eq
    | rewrite lookup_insert_ne by congruence
    | match goal with
      | Hl : ?m !! ?p = Some _ |- context [?m !! ?p] => rewrite Hl
      end ]; exec_cbn).

Ltac exec :=
  unfold insert_before_, erase_, size, construct, destroy, destroy_elem,
    get_next, get_prev,
    set_next, set_prev, set_size_, set_begin_, set_end_, members, set_members,
    load, store, allocate_node, deallocate_node, throw, undefined, ret, bind;
  exec_simpl.

Lemma insert_before__exec this ptr v (w : World) l ndp ndq :
  alloc_ok w →
  lists w !! this = Some l →
  nodes w !! ptr = Some ndp →
  prev ndp ≠ 0 →
  nodes w !! prev ndp = Some ndq →
  prev ndp ≠ ptr →
  insert_before_ this ptr v w =
    match na_allocate (na w) with
    | None => Throw w
    | Some (n, a') =>
        if copy_throws v then
          Throw {| nodes := <[n := mkNode None 0 0]> (nodes w);
                   lists := lists w; na := a'; destroyed := destroyed w |}
        else
          Ok tt {| nodes := <[ptr := mkNode (elem_ ndp) (next ndp) n]>
                             (<[prev ndp := mkNode (elem_ ndq) n (prev ndq)]>
                               (<[n := mkNode (Some v) ptr (prev ndp)]> (nodes w)));
                   lists := <[this := resized l (SizeT.add (size_ l) 1)]> (lists w);
                   na := a'; destroyed := destroyed w |}
    end.
Proof.
  intros Hok Hl Hp Hq0 Hq Hqp.
  destruct (na_allocate (na w)) as [[n a']|] eqn:Ha.
  2:{ unfold insert_before_, bind, allocate_node. by rewrite Ha. }
  destruct (na_allocate_fresh _ _ _ _ Hok Ha) as (Hn0 & Hn & _).
  assert (n ≠ ptr) as Hnp by (intros ->; apply Hn; by apply elem_of_dom_2 in Hp).
  assert (n ≠ prev ndp) as Hnq by (intros ->; apply Hn; by apply elem_of_dom_2 in Hq).
  exec. rewrite Ha. exec_simpl.
  destruct (copy_throws v); [done|]. exec.
  rewrite bool_decide_true by done. exec_simpl.
  f_equal. f_equal.
  apply map_eq. intros x.
  destruct (decide (x = ptr)) as [->|]; [by rewrite !lookup_insert_eq|].
  rewrite !(lookup_insert_ne _ ptr) by done.
  destruct (decide (x = prev ndp)) as [->|]; [by rewrite !lookup_insert_eq|].
  rewrite !(lookup_insert_ne _ (prev ndp)) by done.
  destruct (decide (x = n)) as [->|]; [by rewrite !lookup_insert_eq|].
  by rewrite !(lookup_insert_ne _ n) by done.
Qed.

Lemma erase__exec this ptr (w : World) l ndp ndq ndr :
  lists w !! this = Some l →
  nodes w !! ptr = Some ndp →
  next ndp ≠ 0 → prev ndp ≠ 0 →
  nodes w !! prev ndp = Some ndq →
  nodes w !! next ndp = Some ndr →
  prev ndp ≠ ptr → next ndp ≠ ptr → prev ndp ≠ next ndp →
  erase_ this ptr w =
    Ok tt {| nodes := delete ptr
                        (<[prev ndp := mkNode (elem_ ndq) (next ndp) (prev ndq)]>
                          (<[next ndp := mkNode (elem_ ndr) (next ndr) (prev ndp)]>
                            (nodes w)));
             lists := <[this := resized l (SizeT.sub (size_ l) 1)]> (lists w);
             na := na_deallocate ptr (na w);
             destroyed := match elem_ ndp with
                          | Some x => destroyed w ++ [(ptr, x)]
                          | None => destroyed w
                          end |}.
Proof.
  intros Hl Hp Hr0 Hq0 Hq Hr Hqp Hrp Hqr.
  exec. rewrite !bool_decide_true by done. exec_simpl.
  rewrite !bool_decide_true by done. exec_simpl.
  assert (∀ m : gmap Z Node,
            delete ptr (<[ptr := mkNode None (next ndp) (prev ndp)]> m)
            = delete ptr m) as Hdel.
  { intros m. apply map_eq. intros x.
    destruct (decide (x = ptr)) as [->|]; [by rewrite !lookup_delete_eq|].
    rewrite !lookup_delete_ne by done.
    by rewrite (lookup_insert_ne _ ptr) by done. }
  destruct (elem_ ndp); exec_simpl; by rewrite Hdel.
Qed.

(** *** What a call on the list at [this] leaves alone *)

(** Every other list object, and every node outside the addresses [X], is
    as before. *)
Definition untouched (w w' : World) (this : Z) (X : list Z) : Prop :=
  (∀ that, that ≠ this → lists w' !! that = lists w !! that) ∧
  (∀ a, a ∈ dom (nodes w) → a ∉ X → nodes w' !! a = nodes w !! a).

(** A call took the list at [this] from [live] to [live']: the list is
    well formed again, the allocator agrees with the memory, nothing else
    was touched, and a node of the list afterwards is one it had before or
    one that was not in memory. *)
Definition evolved (w w' : World) (this : Z)
  (l : List) (live : list (Z * T)) (l' : List) (live' : list (Z * T)) : Prop :=
  is_list w' this l' live' ∧ alloc_ok w' ∧
  untouched w w' this (addrs l live) ∧
  (∀ a, a ∈ addrs l' live' → a ∈ addrs l live ∨ a ∉ dom (nodes w)).

Lemma rep_frame m m' l live :
  (∀ a, a ∈ addrs l live → m' !! a = m !! a) → rep m l live → rep m' l live.
Proof.
  intros Hsame [Hsz Hrg Hch Hnd Hnn]. constructor; try done.
  eapply chain_frame; [|done]. intros p Hp. apply Hsame. by rewrite <- cells_addrs.
Qed.

Lemma evolved_refl w this l live :
  alloc_ok w → is_list w this l live → evolved w w this l live l live.
Proof. intros. split; [done|]. split; [done|]. split; [by split|]. by left. Qed.

(** Another list, disjoint from the one a call worked on, is kept. *)
Lemma evolved_other w w' this l live l' live' that l2 live2 :
  evolved w w' this l live l' live' →
  that ≠ this → is_list w that l2 live2 → addrs l2 live2 ## addrs l live →
  is_list w' that l2 live2 ∧ addrs l2 live2 ## addrs l' live'.
Proof.
  intros (_ & _ & [Hlists Hnodes] & Hnew) Hne [Hl2 Hr2] Hdisj. split.
  - split; [by rewrite Hlists|].
    eapply rep_frame; [|done]. intros a Ha. apply Hnodes.
    + by eapply rep_dom.
    + intros Ha'. by eapply Hdisj.
  - intros a Ha Ha'. destruct (Hnew _ Ha') as [Hold|Hfresh].
    + by eapply Hdisj.
    + apply Hfresh. by eapply rep_dom.
Qed.

Lemma evolved_trans w w1 w2 this l live l1 live1 l2 live2 :
  is_list w this l live →
  evolved w w1 this l live l1 live1 →
  evolved w1 w2 this l1 live1 l2 live2 →
  evolved w w2 this l live l2 live2.
Proof.
  intros [_ Hr] (_ & _ & [Hl1 Hn1] & Hnew1) (Hlist & Hok & [Hl2 Hn2] & Hnew2).
  split; [done|]. split; [done|]. split; [split|].
  - intros that Hne. by rewrite Hl2, Hl1.
  - intros a Ha Hx. rewrite <- Hn1 by done. apply Hn2.
    + apply elem_of_dom. rewrite Hn1 by done. by apply elem_of_dom.
    + intros Ha1. destruct (Hnew1 _ Ha1); done.
  - intros a Ha. destruct (Hnew2 _ Ha) as [Ha1|Hfresh].
    + by apply Hnew1.
    + destruct (decide (a ∈ addrs l live)) as [|Hx]; [by left|]. right.
      intros Hd. apply Hfresh. apply elem_of_dom. rewrite Hn1 by done.
      by apply elem_of_dom.
Qed.

Lemma insert_before__spec (w : World) this l live1 live2 v :
  alloc_ok w → is_list w this l (live1 ++ live2) →
  match insert_before_ this (pos_addr l live2) v w with
  | Ok _ w' =>
      ∃ n, copy_throws v = false ∧ (n ∉ dom (nodes w)) ∧ n ≠ 0 ∧
           evolved w w' this l (live1 ++ live2)
             (resized l (size_ l + 1)) (live1 ++ (n, v) :: live2)
  | Throw w' => evolved w w' this l (live1 ++ live2) l (live1 ++ live2)
  | Undefined | OutOfFuel => False
  end.
Proof.
  intros Hok [Hl Hr].
  destruct (rep_around _ _ _ _ Hr) as
    (_ & _ & _ & (ndq & Hq & _) & (ndp & Hp & Hpq) & Hq0 & Hp0 & Hqp).
  pose proof (rep_bound _ _ _ _ Hr Hok) as Hbound.
  rewrite (insert_before__exec this _ v w l ndp ndq); try done; try congruence.
  destruct (na_allocate (na w)) as [[n a']|] eqn:Ha.
  2:{ by apply evolved_refl. }
  destruct (na_allocate_fresh _ _ _ _ Hok Ha) as (Hn0 & Hn & Hown).
  assert (∀ a, a ∈ addrs l (live1 ++ live2) → a ≠ n) as Hfresh.
  { intros a Ha' ->. apply Hn. by eapply rep_dom. }
  destruct (copy_throws v) eqn:Hc.
  - split; [|split; [|split; [split|]]]; simpl.
    + split; simpl; [done|]. eapply rep_frame; [|done].
      intros a Ha'. apply lookup_insert_ne. intros <-. by eapply Hfresh.
    + unfold alloc_ok. simpl. by rewrite dom_insert_L.
    + done.
    + intros a Ha' _. apply lookup_insert_ne. intros <-. by apply Hn.
    + by left.
  - exists n. split; [done|]. split; [done|]. split; [done|].
    rewrite Hpq.
    unfold SizeT.add. rewrite wrap_small.
    2:{ rewrite (rep_size _ _ _ Hr). lia. }
    split; [|split; [|split; [split|]]]; simpl.
    + split; simpl; [by rewrite lookup_insert_eq|].
      apply insert_rep; try done. lia.
    + unfold alloc_ok. simpl. rewrite !dom_insert_L.
      replace ({[pos_addr l live2]} ∪ ({[back_addr l live1]} ∪ ({[n]} ∪ dom (nodes w))))
        with ({[n]} ∪ dom (nodes w)); [done|].
      apply elem_of_dom_2 in Hp, Hq. set_solver.
    + intros that Hne. by rewrite lookup_insert_ne.
    + intros a Ha' Hx. rewrite !lookup_insert_ne; [done| | |].
      * intros <-. by apply Hn.
      * intros <-. apply Hx. rewrite addrs_split. apply elem_of_app. left.
        apply back_addr_elem.
      * intros <-. apply Hx. rewrite addrs_split. apply elem_of_app. right.
        apply pos_addr_elem.
    + intros a Ha'. rewrite addrs_split in Ha'.
      change (post (resized l (size_ l + 1))) with (post l) in Ha'.
      change (pre (resized l (size_ l + 1))) with (pre l) in Ha'.
      replace ((post l ((n, v) :: live2)).*1) with (n :: (post l live2).*1) in Ha'
        by (by rewrite !post_addrs).
      rewrite addrs_split.
      apply elem_of_app in Ha' as [Ha'|Ha'].
      * left. apply elem_of_app. by left.
      * apply elem_of_cons in Ha' as [->|Ha']; [by right|].
        left. apply elem_of_app. by right.
Qed.

Lemma erase__spec (w : World) this l live1 p x live2 :
  alloc_ok w → is_list w this l (live1 ++ (p, x) :: live2) →
  ∃ w', erase_ this p w = Ok tt w' ∧
        evolved w w' this l (live1 ++ (p, x) :: live2)
          (resized l (size_ l - 1)) (live1 ++ live2).
Proof.
  intros Hok [Hl Hr].
  destruct (rep_around _ _ _ _ Hr) as
    (_ & Hpost & Hnd & (ndq & Hq & Hqn) & _ & Hq0 & _ & Hqp).
  replace (live1 ++ (p, x) :: live2) with ((live1 ++ [(p, x)]) ++ live2) in Hr
    by (by rewrite <- (assoc_L (++))).
  destruct (rep_around _ _ _ _ Hr) as
    (_ & _ & Hnd' & _ & (ndr & Hrn & Hrp) & _ & Hr0 & Hpr).
  rewrite <- (assoc_L (++)) in Hr. simpl in Hr.
  assert (back_addr l (live1 ++ [(p, x)]) = p) as Hback
    by (unfold back_addr; by rewrite last_snoc).
  rewrite Hback in *.
  change (post l ((p, x) :: live2)) with ((p, Some x) :: post l live2) in Hpost.
  destruct Hpost as [Hp _]. cbn [fst snd pos_addr] in Hp, Hqn, Hqp.
  rewrite hd_post in Hp.
  assert (back_addr l live1 ≠ pos_addr l live2) as Hqr.
  { apply NoDup_app in Hnd as (_ & Hnd & _). intros E.
    apply (Hnd _ (back_addr_elem l live1)). rewrite E.
    change (post l ((p, x) :: live2)) with ((p, Some x) :: post l live2).
    rewrite fmap_cons. right. apply pos_addr_elem. }
  eexists. split.
  { apply (erase__exec this p w l
             (mkNode (Some x) (pos_addr l live2) (back_addr l live1)) ndq ndr);
      simpl; try done; congruence. }
  pose proof (rep_size _ _ _ Hr) as Hsz. rewrite length_app in Hsz. simpl in Hsz.
  pose proof (rep_range _ _ _ Hr) as Hrg. rewrite length_app in Hrg. simpl in Hrg.
  unfold SizeT.sub. rewrite wrap_small by lia. simpl.
  split; [|split; [|split; [split|]]]; simpl.
  - split; simpl; [by rewrite lookup_insert_eq|]. by eapply erase_rep.
  - unfold alloc_ok. simpl. rewrite dom_delete_L, !dom_insert_L.
    replace (({[back_addr l live1]} ∪ ({[pos_addr l live2]} ∪ dom (nodes w))) ∖ {[p]})
      with (dom (nodes w) ∖ {[p]}).
    + apply na_deallocate_owns; [done|]. by apply elem_of_dom_2 in Hp.
    + apply elem_of_dom_2 in Hq, Hrn. set_solver.
  - intros that Hne. by rewrite lookup_insert_ne.
  - intros a Ha Hx.
    assert (∀ b, b ∈ addrs l (live1 ++ (p, x) :: live2) → a ≠ b) as Hab
      by (by intros b Hb ->).
    rewrite lookup_delete_ne, !lookup_insert_ne; [done| | |].
    + intros E. apply (Hab (pos_addr l live2)); [|done].
      rewrite addrs_split. apply elem_of_app. right.
      change (post l ((p, x) :: live2)) with ((p, Some x) :: post l live2).
      rewrite fmap_cons. right. apply pos_addr_elem.
    + intros E. apply (Hab (back_addr l live1)); [|done].
      rewrite addrs_split. apply elem_of_app. left. apply back_addr_elem.
    + intros E. apply (Hab p); [|done].
      rewrite addrs_split. apply elem_of_app. right.
      change (post l ((p, x) :: live2)) with ((p, Some x) :: post l live2).
      rewrite fmap_cons. by left.
  - intros a Ha. left. rewrite addrs_split in *.
    change (post (resized l (size_ l - 1))) with (post l) in Ha.
    change (pre (resized l (size_ l - 1))) with (pre l) in Ha.
    change (post l ((p, x) :: live2)) with ((p, Some x) :: post l live2).
    rewrite fmap_cons.
    apply elem_of_app in Ha as [Ha|Ha]; apply elem_of_app; [by left|].
    right. by right.
Qed.

(** *** Nodes of a well-formed list *)

Lemma rep_node m l live1 p x live2 :
  rep m l (live1 ++ (p, x) :: live2) →
  m !! p = Some (mkNode (Some x) (pos_addr l live2) (back_addr l live1)).
Proof.
  intros Hr. destruct (rep_around _ _ _ _ Hr) as (_ & Hpost & _).
  change (post l ((p, x) :: live2)) with ((p, Some x) :: post l live2) in Hpost.
  destruct Hpost as [Hp _]. by rewrite hd_post in Hp.
Qed.

Lemma rep_begin m l live :
  rep m l live → m !! begin_ l = Some (mkNode None (pos_addr l live) 0).
Proof.
  intros Hr. pose proof (rep_chain _ _ _ Hr) as Hch.
  change (pre l [] ++ post l live) with ((begin_ l, None) :: post l live) in Hch.
  destruct Hch as [Hb _]. by rewrite hd_post in Hb.
Qed.

Lemma rep_end m l live :
  rep m l live → m !! end_ l = Some (mkNode None 0 (back_addr l live)).
Proof.
  intros Hr. rewrite <- (app_nil_r live) in Hr.
  by destruct (rep_around _ _ _ _ Hr) as (_ & [He _] & _).
Qed.

Lemma pos_addr_not_end m l live1 c live2 :
  rep m l (live1 ++ c :: live2) → c.1 ≠ end_ l.
Proof.
  intros Hr E. pose proof (rep_nodup _ _ _ Hr) as Hnd.
  unfold addrs in Hnd. apply NoDup_cons in Hnd as [_ Hnd].
  rewrite fmap_app, fmap_cons, <- (assoc_L (++)) in Hnd.
  apply NoDup_app in Hnd as (_ & _ & Hnd). simpl in Hnd.
  apply NoDup_cons in Hnd as [Hnd _]. apply Hnd. rewrite E.
  apply elem_of_app. right. by left.
Qed.

Lemma members_ok (w : World) this l live :
  is_list w this l live → members this w = Ok l w.
Proof. intros [Hl _]. unfold members. by rewrite Hl. Qed.

Lemma size_ok (w : World) this l live :
  is_list w this l live → size this w = Ok (Z.of_nat (length live)) w.
Proof.
  intros Hlist. unfold size. rewrite (bind_Ok _ _ _ _ _ (members_ok _ _ _ _ Hlist)).
  unfold ret. by rewrite (rep_size _ _ _ (proj2 Hlist)).
Qed.

Lemma begin_ok (w : World) this l live :
  is_list w this l live → begin this w = Ok (Iter (pos_addr l live)) w.
Proof.
  intros Hlist. unfold begin.
  rewrite (bind_Ok _ _ _ _ _ (members_ok _ _ _ _ Hlist)).
  unfold get_next, load, bind, ret. by rewrite (rep_begin _ _ _ (proj2 Hlist)).
Qed.

Lemma end_ok (w : World) this l live :
  is_list w this l live → end' this w = Ok (Iter (end_ l)) w.
Proof.
  intros Hlist. unfold end'.
  by rewrite (bind_Ok _ _ _ _ _ (members_ok _ _ _ _ Hlist)).
Qed.

Lemma incr_ok (w : World) this l live1 c live2 :
  is_list w this l (live1 ++ c :: live2) →
  incr (Iter c.1) w = Ok (Iter (pos_addr l live2)) w.
Proof.
  intros [_ Hr]. destruct c as [p x].
  unfold incr, get_next, load, bind, ret. simpl.
  by rewrite (rep_node _ _ _ _ _ _ Hr).
Qed.

Lemma deref_ok (w : World) this l live1 p x live2 :
  is_list w this l (live1 ++ (p, x) :: live2) → deref (Iter p) w = Ok x w.
Proof.
  intros [_ Hr]. unfold deref, load, bind, ret. simpl.
  by rewrite (rep_node _ _ _ _ _ _ Hr).
Qed.

Lemma decr_ok (w : World) this l live1 live2 :
  is_list w this l (live1 ++ live2) →
  decr (Iter (pos_addr l live2)) w = Ok (Iter (back_addr l live1)) w.
Proof.
  intros [_ Hr].
  destruct (rep_around _ _ _ _ Hr) as (_ & _ & _ & _ & (ndp & Hp & Hpq) & _).
  unfold decr, get_prev, load, bind, ret. simpl. by rewrite Hp, Hpq.
Qed.

(** The node after a position, null after [end()]. *)
Definition after (l : List) (live : list (Z * T)) : Z :=
  match live with
  | [] => 0
  | _ :: rest => pos_addr l rest
  end.

Lemma next_of_position m l live1 live2 :
  rep m l (live1 ++ live2) →
  ∃ nd, m !! pos_addr l live2 = Some nd ∧ next nd = after l live2.
Proof.
  intros Hr. destruct live2 as [|[p x] live2].
  - rewrite app_nil_r in Hr. eexists. split; [by eapply rep_end|done].
  - eexists. split; [by eapply rep_node|done].
Qed.

(** *** The calls of the interface *)

Lemma insert_spec (w : World) this l live1 live2 v :
  alloc_ok w → is_list w this l (live1 ++ live2) →
  match insert this (Iter (pos_addr l live2)) v w with
  | Ok it w' =>
      ∃ n, copy_throws v = false ∧ (n ∉ dom (nodes w)) ∧ n ≠ 0 ∧
           evolved w w' this l (live1 ++ live2)
             (resized l (size_ l + 1)) (live1 ++ (n, v) :: live2) ∧
           ptr_ it = after l live2
  | Throw w' => evolved w w' this l (live1 ++ live2) l (live1 ++ live2)
  | Undefined | OutOfFuel => False
  end.
Proof.
  intros Hok Hlist. pose proof (insert_before__spec w this l live1 live2 v Hok Hlist) as Hs.
  unfold insert. cbn [ptr_]. unfold bind at 1.
  destruct (insert_before_ this (pos_addr l live2) v w) as [[] w'|w'| |]; try done.
  destruct Hs as (n & Hc & Hn & Hn0 & Hev).
  pose proof Hev as ([_ Hr'] & _).
  replace (live1 ++ (n, v) :: live2) with ((live1 ++ [(n, v)]) ++ live2) in Hr'
    by (by rewrite <- (assoc_L (++))).
  destruct (next_of_position _ _ _ _ Hr') as (nd & Hnd & Hnext).
  change (pos_addr (resized l (size_ l + 1)) live2) with (pos_addr l live2) in Hnd.
  unfold get_next, load, bind, ret. rewrite Hnd.
  exists n. repeat (split; [done|]). cbn [ptr_]. rewrite Hnext. by destruct live2.
Qed.

Lemma erase_spec (w : World) this l live1 p x live2 :
  alloc_ok w → is_list w this l (live1 ++ (p, x) :: live2) →
  ∃ w', erase this (Iter p) w = Ok (Iter (pos_addr l live2)) w' ∧
        evolved w w' this l (live1 ++ (p, x) :: live2)
          (resized l (size_ l - 1)) (live1 ++ live2).
Proof.
  intros Hok Hlist.
  destruct (erase__spec w this l live1 p x live2 Hok Hlist) as (w' & He & Hev).
  exists w'. split; [|done].
  unfold erase, get_next, load, bind, ret. cbn [ptr_].
  rewrite (rep_node _ _ _ _ _ _ (proj2 Hlist)). cbn [next].
  by rewrite He.
Qed.

Lemma push_back_spec (w : World) this l live v :
  alloc_ok w → is_list w this l live →
  match push_back this v w with
  | Ok _ w' =>
      ∃ n, copy_throws v = false ∧ (n ∉ dom (nodes w)) ∧ n ≠ 0 ∧
           evolved w w' this l live (resized l (size_ l + 1)) (live ++ [(n, v)])
  | Throw w' => evolved w w' this l live l live
  | Undefined | OutOfFuel => False
  end.
Proof.
  intros Hok Hlist. unfold push_back.
  rewrite (bind_Ok _ _ _ _ _ (end_ok _ _ _ _ Hlist)).
  rewrite <- (app_nil_r live) in Hlist.
  pose proof (insert_spec w this l live [] v Hok Hlist) as Hs.
  rewrite app_nil_r in *. unfold bind, ret.
  change (pos_addr l []) with (end_ l) in Hs.
  destruct (insert this (Iter (end_ l)) v w) as [it w'|w'| |]; try done.
  destruct Hs as (n & ? & ? & ? & ? & _). by exists n.
Qed.

Lemma push_front_spec (w : World) this l live v :
  alloc_ok w → is_list w this l live →
  match push_front this v w with
  | Ok _ w' =>
      ∃ n, copy_throws v = false ∧ (n ∉ dom (nodes w)) ∧ n ≠ 0 ∧
           evolved w w' this l live (resized l (size_ l + 1)) ((n, v) :: live)
  | Throw w' => evolved w w' this l live l live
  | Undefined | OutOfFuel => False
  end.
Proof.
  intros Hok Hlist. unfold push_front.
  rewrite (bind_Ok _ _ _ _ _ (begin_ok _ _ _ _ Hlist)).
  pose proof (insert_spec w this l [] live v Hok Hlist) as Hs.
  unfold bind, ret. simpl in Hs.
  destruct (insert this (Iter (pos_addr l live)) v w) as [it w'|w'| |]; try done.
  destruct Hs as (n & ? & ? & ? & ? & _). by exists n.
Qed.

Lemma pop_front_empty (w : World) this l :
  is_list w this l [] → pop_front this w = Ok tt w.
Proof.
  intros Hlist. unfold pop_front.
  rewrite (bind_Ok _ _ _ _ _ (size_ok _ _ _ _ Hlist)). done.
Qed.

Lemma pop_back_empty (w : World) this l :
  is_list w this l [] → pop_back this w = Ok tt w.
Proof.
  intros Hlist. unfold pop_back.
  rewrite (bind_Ok _ _ _ _ _ (size_ok _ _ _ _ Hlist)). done.
Qed.

Lemma pop_front_spec (w : World) this l c live :
  alloc_ok w → is_list w this l (c :: live) →
  ∃ w', pop_front this w = Ok tt w' ∧
        evolved w w' this l (c :: live) (resized l (size_ l - 1)) live.
Proof.
  intros Hok Hlist. destruct c as [p x]. unfold pop_front.
  rewrite (bind_Ok _ _ _ _ _ (size_ok _ _ _ _ Hlist)).
  rewrite bool_decide_true by (simpl; lia).
  rewrite (bind_Ok _ _ _ _ _ (begin_ok _ _ _ _ Hlist)).
  destruct (erase_spec w this l [] p x live Hok Hlist) as (w' & He & Hev).
  exists w'. cbn [pos_addr fst]. unfold bind at 1. by rewrite He.
Qed.

Lemma pop_back_spec (w : World) this l live c :
  alloc_ok w → is_list w this l (live ++ [c]) →
  ∃ w', pop_back this w = Ok tt w' ∧
        evolved w w' this l (live ++ [c]) (resized l (size_ l - 1)) live.
Proof.
  intros Hok Hlist. destruct c as [p x]. unfold pop_back.
  rewrite (bind_Ok _ _ _ _ _ (size_ok _ _ _ _ Hlist)).
  rewrite bool_decide_true by (rewrite length_app; simpl; lia).
  rewrite (bind_Ok _ _ _ _ _ (end_ok _ _ _ _ Hlist)).
  assert (decr (Iter (end_ l)) w = Ok (Iter p) w) as Hdecr.
  { replace (live ++ [(p, x)]) with ((live ++ [(p, x)]) ++ []) in Hlist
      by apply app_nil_r.
    pose proof (decr_ok w this l (live ++ [(p, x)]) [] Hlist) as Hd.
    cbn [pos_addr] in Hd. rewrite Hd.
    unfold back_addr. by rewrite last_snoc. }
  rewrite (bind_Ok _ _ _ _ _ Hdecr).
  destruct (erase_spec w this l live p x [] Hok Hlist) as (w' & He & Hev).
  exists w'. rewrite app_nil_r in Hev. unfold bind at 1. by rewrite He.
Qed.

(** The constructor: two new sentinels linked to each other. *)
Lemma ctor_spec (w : World) this alloc :
  alloc_ok w → lists w !! this = None →
  match ctor this alloc w with
  | Ok _ w' =>
      ∃ b e, (b ∉ dom (nodes w)) ∧ (e ∉ dom (nodes w)) ∧
        is_list w' this (mkList (select_on_container_copy_construction alloc) 0 b e) [] ∧
        alloc_ok w' ∧
        (∀ that, that ≠ this → lists w' !! that = lists w !! that) ∧
        (∀ a, a ∈ dom (nodes w) → nodes w' !! a = nodes w !! a)
  | Throw w' =>
      alloc_ok w' ∧ lists w' = lists w ∧
      (∀ a, a ∈ dom (nodes w) → nodes w' !! a = nodes w !! a)
  | Undefined | OutOfFuel => False
  end.
Proof.
  intros Hok Hnone. unfold ctor, constructing. rewrite Hnone.
  unfold bind at 1. unfold allocate_node at 1. cbn [na nodes lists].
  destruct (na_allocate (na w)) as [[b a1]|] eqn:Hb.
  2:{ cbn [na nodes lists]. rewrite delete_insert_id by done. by destruct w. }
  destruct (na_allocate_fresh _ _ _ _ Hok Hb) as (Hb0 & Hbn & Hown1).
  unfold bind at 1. unfold allocate_node at 1. cbn [na nodes lists].
  destruct (na_allocate a1) as [[e a2]|] eqn:He.
  2:{ cbn [na nodes lists]. rewrite delete_insert_id by done.
      split; [|split; [done|]].
      - unfold alloc_ok. simpl. by rewrite dom_insert_L.
      - intros a Ha. apply lookup_insert_ne. by intros <-. }
  rewrite <- dom_insert_L with (x := mkNode None 0 0) in Hown1.
  destruct (na_allocate_fresh _ _ _ _ Hown1 He) as (He0 & Hen & Hown2).
  assert (e ≠ b) as Heb.
  { intros ->. apply Hen. rewrite dom_insert_L. set_solver. }
  assert (e ∉ dom (nodes w)) as Hen'.
  { intros Hin. apply Hen. rewrite dom_insert_L. set_solver. }
  exec. exists b, e. split; [done|]. split; [done|].
  split; [|split; [|split]].
  - split; cbn [lists nodes]; [by rewrite lookup_insert_eq|].
    constructor; cbn [pre post elems size_ begin_ end_ addrs fmap list_fmap app chain
                        hd_addr fst snd length].
    + done.
    + done.
    + split; [|split; [|done]].
      * by exec_simpl.
      * by exec_simpl.
    + apply NoDup_cons. split; [|apply NoDup_singleton].
      intros Hin. apply list_elem_of_singleton in Hin. done.
    + intros Hin. apply elem_of_cons in Hin as [?|Hin]; [done|].
      apply list_elem_of_singleton in Hin. done.
  - unfold alloc_ok. cbn [na nodes]. rewrite !dom_insert_L.
    rewrite dom_insert_L in Hown2.
    match goal with
    | |- na_owns _ ?X =>
        replace X with ({[e]} ∪ ({[b]} ∪ dom (nodes w))) by set_solver
    end.
    done.
  - intros that Hne. cbn [lists]. by rewrite !lookup_insert_ne.
  - intros a Ha. cbn [nodes]. rewrite !lookup_insert_ne; [done|..]; by intros <-.
Qed.

(** *** Traversals *)

Lemma forward_ok (w : World) this l live1 live2 fuel :
  is_list w this l (live1 ++ live2) → (length live2 < fuel)%nat →
  forward fuel (Iter (pos_addr l live2)) (Iter (end_ l)) w = Ok (live2.*2) w.
Proof.
  revert live1 fuel. induction live2 as [|[p x] live2 IH]; intros live1 fuel Hlist Hfuel.
  - destruct fuel as [|fuel]; [simpl in Hfuel; lia|]. simpl.
    unfold iter_eqb. simpl. by rewrite Z.eqb_refl.
  - destruct fuel as [|fuel]; [simpl in Hfuel; lia|]. cbn [forward].
    unfold iter_eqb. cbn [ptr_ pos_addr fst].
    assert (p ≠ end_ l) as Hpe
      by apply (pos_addr_not_end _ _ _ (p, x) _ (proj2 Hlist)).
    apply Z.eqb_neq in Hpe. rewrite Hpe. cbn [negb].
    rewrite (bind_Ok _ _ _ _ _ (deref_ok _ _ _ _ _ _ _ Hlist)).
    rewrite (bind_Ok _ _ _ _ _ (incr_ok _ _ _ _ (p, x) _ Hlist)).
    replace (live1 ++ (p, x) :: live2) with ((live1 ++ [(p, x)]) ++ live2) in Hlist
      by (by rewrite <- (assoc_L (++))).
    rewrite (bind_Ok _ _ _ _ _ (IH _ fuel Hlist ltac:(simpl in Hfuel; lia))).
    done.
Qed.

Lemma traverse_ok (w : World) this l live fuel :
  is_list w this l live → (length live < fuel)%nat →
  traverse fuel this w = Ok (live.*2) w.
Proof.
  intros Hlist Hfuel. unfold traverse.
  rewrite (bind_Ok _ _ _ _ _ (begin_ok _ _ _ _ Hlist)).
  rewrite (bind_Ok _ _ _ _ _ (end_ok _ _ _ _ Hlist)).
  by apply (forward_ok w this l []).
Qed.

Lemma first_is_not_later m l c live1 live2 :
  rep m l ((live1 ++ [c]) ++ live2) →
  pos_addr l live2 ≠ pos_addr l ((live1 ++ [c]) ++ live2).
Proof.
  intros Hr E. pose proof (rep_nodup _ _ _ Hr) as Hnd.
  rewrite addrs_split in Hnd. apply NoDup_app in Hnd as (_ & Hnd & _).
  apply (Hnd (pos_addr l live2)); [|apply pos_addr_elem].
  rewrite E, pre_addrs. right.
  destruct live1 as [|c1 live1]; simpl; by left.
Qed.

Lemma backward_ok (w : World) this l live1 live2 fuel :
  is_list w this l (live1 ++ live2) → (length live1 < fuel)%nat →
  backward fuel (RIter (Iter (pos_addr l live2)))
    (RIter (Iter (pos_addr l (live1 ++ live2)))) w
  = Ok (rev (live1.*2)) w.
Proof.
  revert live2 fuel. induction live1 as [|[p x] live1 IH] using rev_ind;
    intros live2 fuel Hlist Hfuel.
  - destruct fuel as [|fuel]; [simpl in Hfuel; lia|]. simpl.
    unfold iter_eqb. simpl. by rewrite Z.eqb_refl.
  - destruct fuel as [|fuel]; [rewrite length_app in Hfuel; simpl in Hfuel; lia|].
    cbn [backward]. unfold iter_eqb. cbn [ptr_ current].
    pose proof (first_is_not_later _ _ _ _ _ (proj2 Hlist)) as Hne.
    apply Z.eqb_neq in Hne. rewrite Hne. cbn [negb].
    assert (decr (Iter (pos_addr l live2)) w = Ok (Iter p) w) as Hdecr.
    { rewrite (decr_ok w this l (live1 ++ [(p, x)]) live2 Hlist).
      unfold back_addr. by rewrite last_snoc. }
    rewrite <- (assoc_L (++)) in Hlist. cbn [app] in Hlist.
    assert (rderef (RIter (Iter (pos_addr l live2))) w = Ok x w) as Hrd.
    { unfold rderef. cbn [current]. rewrite (bind_Ok _ _ _ _ _ Hdecr).
      eapply deref_ok. exact Hlist. }
    assert (rincr (RIter (Iter (pos_addr l live2))) w = Ok (RIter (Iter p)) w) as Hri.
    { unfold rincr. cbn [current]. by rewrite (bind_Ok _ _ _ _ _ Hdecr). }
    rewrite (bind_Ok _ _ _ _ _ Hrd), (bind_Ok _ _ _ _ _ Hri).
    rewrite length_app in Hfuel. simpl in Hfuel.
    pose proof (IH ((p, x) :: live2) fuel Hlist ltac:(lia)) as Hrest.
    change (pos_addr l ((p, x) :: live2)) with p in Hrest.
    rewrite <- (assoc_L (++)). cbn [app].
    rewrite (bind_Ok _ _ _ _ _ Hrest).
    unfold ret. by rewrite fmap_app, rev_app_distr.
Qed.

Lemma rtraverse_ok (w : World) this l live fuel :
  is_list w this l live → (length live < fuel)%nat →
  rtraverse fuel this w = Ok (rev (live.*2)) w.
Proof.
  intros Hlist Hfuel. unfold rtraverse.
  assert (rbegin this w = Ok (RIter (Iter (end_ l))) w) as Hrb.
  { unfold rbegin. by rewrite (bind_Ok _ _ _ _ _ (members_ok _ _ _ _ Hlist)). }
  assert (rend this w = Ok (RIter (Iter (pos_addr l live))) w) as Hre.
  { unfold rend. rewrite (bind_Ok _ _ _ _ _ (members_ok _ _ _ _ Hlist)).
    unfold get_next, load, bind, ret. by rewrite (rep_begin _ _ _ (proj2 Hlist)). }
  rewrite (bind_Ok _ _ _ _ _ Hrb), (bind_Ok _ _ _ _ _ Hre).
  rewrite <- (app_nil_r live) in Hlist.
  pose proof (backward_ok w this l live [] fuel Hlist Hfuel) as Hb.
  by rewrite app_nil_r in Hb.
Qed.

(** [std::next]: [k] steps from a position, undefined past [end()]. *)
Lemma advance_ok (w : World) this l live1 live2 k :
  is_list w this l (live1 ++ live2) →
  advance this k (Iter (pos_addr l live2)) w =
    if decide (k ≤ length live2)%nat
    then Ok (Iter (pos_addr l (drop k live2))) w
    else Undefined.
Proof.
  revert live1 live2. induction k as [|k IH]; intros live1 live2 Hlist.
  - cbn [advance]. unfold ret. destruct (decide _); [by rewrite drop_0|lia].
  - cbn [advance].
    rewrite (bind_Ok _ _ _ _ _ (end_ok _ _ _ _ Hlist)).
    unfold iter_eqb. cbn [ptr_].
    destruct live2 as [|[p x] live2].
    + cbn [pos_addr]. rewrite Z.eqb_refl.
      destruct (decide _) as [Hle|]; [simpl in Hle; lia|done].
    + cbn [pos_addr fst].
      assert (p ≠ end_ l) as Hpe
        by apply (pos_addr_not_end _ _ _ (p, x) _ (proj2 Hlist)).
      apply Z.eqb_neq in Hpe. rewrite Hpe.
      rewrite (bind_Ok _ _ _ _ _ (incr_ok _ _ _ _ (p, x) _ Hlist)).
      replace (live1 ++ (p, x) :: live2) with ((live1 ++ [(p, x)]) ++ live2) in Hlist
        by (by rewrite <- (assoc_L (++))).
      rewrite (IH _ _ Hlist). cbn [length drop].
      destruct (decide (k ≤ length live2)%nat), (decide (S k ≤ S (length live2))%nat);
        try done; lia.
Qed.

Lemma empty_ok (w : World) this l live :
  is_list w this l live → empty this w = Ok (bool_decide (live = [])) w.
Proof.
  intros Hlist. unfold empty.
  rewrite (bind_Ok _ _ _ _ _ (begin_ok _ _ _ _ Hlist)).
  rewrite (bind_Ok _ _ _ _ _ (end_ok _ _ _ _ Hlist)).
  unfold ret, iter_eqb. cbn [ptr_]. f_equal.
  destruct live as [|c live].
  - cbn [pos_addr]. by rewrite Z.eqb_refl.
  - cbn [pos_addr]. rewrite bool_decide_false by done.
    apply Z.eqb_neq. by apply (pos_addr_not_end _ _ [] c live (proj2 Hlist)).
Qed.

(** *** Runs of calls *)

Definition balance (t : tally) : Z :=
  Z.of_nat (inserted t) - Z.of_nat (removed t).

(** What every counted call keeps: the list stays well formed on the same
    two sentinels, and the number of live nodes moves with the tally. *)
Definition tracked (w : World) (t : tally) (w' : World) (t' : tally) (this : Z)
  (l : List) (live : list (Z * T)) : Prop :=
  ∃ l' live',
    evolved w w' this l live l' live' ∧
    begin_ l' = begin_ l ∧ end_ l' = end_ l ∧
    Z.of_nat (length live') - balance t' = Z.of_nat (length live) - balance t.

Lemma tracked_insertion (w : World) t this l live1 live2 v
  (r : outcome World list_iterator) :
  is_list w this l (live1 ++ live2) →
  match r with
  | Ok it w' =>
      ∃ n, copy_throws v = false ∧ (n ∉ dom (nodes w)) ∧ n ≠ 0 ∧
           evolved w w' this l (live1 ++ live2)
             (resized l (size_ l + 1)) (live1 ++ (n, v) :: live2) ∧
           ptr_ it = after l live2
  | Throw w' => evolved w w' this l (live1 ++ live2) l (live1 ++ live2)
  | Undefined | OutOfFuel => False
  end →
  ∀ w' t',
    match r with
    | Ok _ w' => Some (w', mkTally (S (inserted t)) (removed t))
    | Throw w' => Some (w', t)
    | Undefined | OutOfFuel => None
    end = Some (w', t') →
    tracked w t w' t' this l (live1 ++ live2).
Proof.
  intros Hlist Hs w' t' Hc. destruct r as [it w1|w1| |]; try done.
  - destruct Hs as (n & _ & _ & _ & Hev & _). injection Hc as <- <-.
    exists (resized l (size_ l + 1)), (live1 ++ (n, v) :: live2).
    split; [done|]. split; [done|]. split; [done|].
    unfold balance. rewrite !length_app. simpl. lia.
  - injection Hc as <- <-. exists l, (live1 ++ live2).
    split; [done|]. split; [done|]. split; [done|]. lia.
Qed.

Lemma counted_tracked (w : World) t o w' t' this l live :
  alloc_ok w → is_list w this l live →
  counted this o (w, t) = Some (w', t') →
  tracked w t w' t' this l live.
Proof.
  intros Hok Hlist Hc. unfold counted in Hc.
  destruct o as [v|v|k v| | |k]; cbn [perform] in Hc.
  - unfold push_front in Hc.
    rewrite (bind_Ok _ _ _ _ _ (begin_ok _ _ _ _ Hlist)) in Hc.
    pose proof (insert_spec w this l [] live v Hok Hlist) as Hs.
    cbn [app] in Hs. unfold bind, ret in Hc.
    apply (tracked_insertion w t this l [] live v _ Hlist Hs).
    by destruct (insert this (Iter (pos_addr l live)) v w).
  - unfold push_back in Hc.
    rewrite (bind_Ok _ _ _ _ _ (end_ok _ _ _ _ Hlist)) in Hc.
    rewrite <- (app_nil_r live) in Hlist.
    pose proof (insert_spec w this l live [] v Hok Hlist) as Hs.
    cbn [pos_addr] in Hs. unfold bind, ret in Hc.
    rewrite <- (app_nil_r live).
    apply (tracked_insertion w t this l live [] v _ Hlist Hs).
    by destruct (insert this (Iter (end_ l)) v w).
  - rewrite (bind_Ok _ _ _ _ _ (begin_ok _ _ _ _ Hlist)) in Hc.
    unfold bind at 1 in Hc.
    rewrite (advance_ok w this l [] live k Hlist) in Hc.
    destruct (decide (k ≤ length live)%nat); [|done].
    rewrite <- (take_drop k live) in Hlist.
    pose proof (insert_spec w this l (take k live) (drop k live) v Hok Hlist) as Hs.
    unfold bind, ret in Hc.
    rewrite <- (take_drop k live).
    apply (tracked_insertion w t this l _ _ v _ Hlist Hs).
    by destruct (insert this (Iter (pos_addr l (drop k live))) v w).
  - rewrite (empty_ok _ _ _ _ Hlist) in Hc.
    destruct live as [|c live].
    + rewrite (pop_front_empty _ _ _ Hlist) in Hc.
      rewrite bool_decide_true in Hc by done. injection Hc as <- <-.
      exists l, []. split; [by apply evolved_refl|].
      split; [done|]. split; [done|]. lia.
    + destruct (pop_front_spec w this l c live Hok Hlist) as (w1 & Hp & Hev).
      rewrite Hp, bool_decide_false in Hc by done. injection Hc as <- <-.
      exists (resized l (size_ l - 1)), live. split; [done|].
      split; [done|]. split; [done|]. unfold balance. simpl. lia.
  - rewrite (empty_ok _ _ _ _ Hlist) in Hc.
    destruct live as [|c live _] using rev_ind.
    + rewrite (pop_back_empty _ _ _ Hlist) in Hc.
      rewrite bool_decide_true in Hc by done. injection Hc as <- <-.
      exists l, []. split; [by apply evolved_refl|].
      split; [done|]. split; [done|]. lia.
    + destruct (pop_back_spec w this l live c Hok Hlist) as (w1 & Hp & Hev).
      rewrite Hp, bool_decide_false in Hc by (by destruct live).
      injection Hc as <- <-.
      exists (resized l (size_ l - 1)), live. split; [done|].
      split; [done|]. split; [done|]. unfold balance.
      rewrite length_app. simpl. lia.
  - rewrite (bind_Ok _ _ _ _ _ (begin_ok _ _ _ _ Hlist)) in Hc.
    unfold bind at 1 in Hc.
    rewrite (advance_ok w this l [] live k Hlist) in Hc.
    destruct (decide (k ≤ length live)%nat); [|done].
    rewrite (bind_Ok _ _ _ _ _ (end_ok _ _ _ _ Hlist)) in Hc.
    unfold iter_eqb in Hc. cbn [ptr_] in Hc.
    rewrite <- (take_drop k live) in Hlist.
    destruct (drop k live) as [|[p x] rest] eqn:Hdrop.
    + cbn [pos_addr] in Hc. by rewrite Z.eqb_refl in Hc.
    + cbn [pos_addr fst] in Hc.
      assert (p ≠ end_ l) as Hpe
        by apply (pos_addr_not_end _ _ _ (p, x) _ (proj2 Hlist)).
      apply Z.eqb_neq in Hpe. rewrite Hpe in Hc.
      destruct (erase_spec w this l _ p x rest Hok Hlist) as (w1 & He & Hev).
      unfold bind, ret in Hc. rewrite He in Hc. injection Hc as <- <-.
      rewrite <- (take_drop k live), Hdrop.
      exists (resized l (size_ l - 1)), (take k live ++ rest). split; [done|].
      split; [done|]. split; [done|]. unfold balance.
      rewrite !length_app. simpl. lia.
Qed.

Lemma tracked_trans (w : World) t w1 t1 w2 t2 this l live :
  is_list w this l live →
  tracked w t w1 t1 this l live →
  (∀ l1 live1, is_list w1 this l1 live1 → alloc_ok w1 →
               tracked w1 t1 w2 t2 this l1 live1) →
  tracked w t w2 t2 this l live.
Proof.
  intros Hlist (l1 & live1 & Hev1 & Hb1 & He1 & Hn1) Hnext.
  destruct (Hnext l1 live1) as (l2 & live2 & Hev2 & Hb2 & He2 & Hn2);
    [apply Hev1..|].
  exists l2, live2. split; [by eapply evolved_trans|].
  split; [congruence|]. split; [congruence|]. lia.
Qed.

Lemma run_tracked this os (w : World) t w' t' l live :
  alloc_ok w → is_list w this l live →
  run this os (w, t) = Some (w', t') →
  tracked w t w' t' this l live.
Proof.
  revert w t l live. induction os as [|o os IH]; intros w t l live Hok Hlist Hrun.
  - simpl in Hrun. injection Hrun as <- <-. exists l, live.
    split; [by apply evolved_refl|]. split; [done|]. split; [done|]. lia.
  - cbn [run] in Hrun.
    destruct (counted this o (w, t)) as [[w1 t1]|] eqn:Hc; [|done].
    eapply tracked_trans; [done| |].
    + by eapply counted_tracked.
    + intros l1 live1 Hlist1 Hok1. by eapply IH.
Qed.

(** *** The loops of the list *)

Lemma resized_id (l : List) : resized l (size_ l) = l.
Proof. by destruct l. Qed.

Lemma pop_all_spec fuel (w : World) this l live :
  alloc_ok w → is_list w this l live →
  match pop_all fuel this w with
  | Ok _ w' => evolved w w' this l live (resized l 0) []
  | OutOfFuel => (fuel ≤ length live)%nat
  | Throw _ | Undefined => False
  end.
Proof.
  revert fuel w l. induction live as [|c live IH] using rev_ind;
    intros fuel w l Hok Hlist.
  - destruct fuel as [|fuel]; [simpl; lia|]. cbn [pop_all].
    rewrite (bind_Ok _ _ _ _ _ (size_ok _ _ _ _ Hlist)). cbn [length].
    change (0 <? Z.of_nat 0) with false. cbv iota. unfold ret.
    rewrite <- (rep_size _ _ _ (proj2 Hlist) : size_ l = 0), resized_id.
    by apply evolved_refl.
  - destruct fuel as [|fuel]; [simpl; lia|]. cbn [pop_all].
    rewrite (bind_Ok _ _ _ _ _ (size_ok _ _ _ _ Hlist)).
    replace (0 <? Z.of_nat (length (live ++ [c]))) with true
      by (symmetry; apply Z.ltb_lt; rewrite length_app; simpl; lia).
    destruct (pop_back_spec w this l live c Hok Hlist) as (w1 & Hp & Hev).
    rewrite (bind_Ok _ _ _ _ _ Hp).
    pose proof Hev as (Hlist1 & Hok1 & _).
    pose proof (IH fuel w1 _ Hok1 Hlist1) as Hrest.
    destruct (pop_all fuel this w1) as [[] w'|w'| |]; try done.
    + by eapply evolved_trans.
    + rewrite length_app. simpl. lia.
Qed.

(** Two list objects with the same sentinels and allocator. *)
Definition same_object (l l' : List) : Prop :=
  begin_ l' = begin_ l ∧ end_ l' = end_ l ∧ allocator_ l' = allocator_ l.

Lemma copy_from_spec fuel (w : World) this rhs l done lr live1 live2 :
  alloc_ok w → this ≠ rhs →
  is_list w this l done → is_list w rhs lr (live1 ++ live2) →
  addrs lr (live1 ++ live2) ## addrs l done →
  match copy_from fuel this rhs (Iter (pos_addr lr live2)) w with
  | Ok _ w' =>
      ∃ l' added, evolved w w' this l done l' (done ++ added) ∧
                  same_object l l' ∧ added.*2 = live2.*2
  | Throw w' =>
      ∃ l' added k, (k < length live2)%nat ∧
                    evolved w w' this l done l' (done ++ added) ∧
                    same_object l l' ∧ added.*2 = take k (live2.*2)
  | OutOfFuel => (fuel ≤ length live2)%nat
  | Undefined => False
  end.
Proof.
  revert fuel w l done live1.
  induction live2 as [|[p x] live2 IH]; intros fuel w l done live1 Hok Hne Hthis Hrhs Hdisj.
  - destruct fuel as [|fuel]; [simpl; lia|]. cbn [copy_from]. unfold cend.
    rewrite (bind_Ok _ _ _ _ _ (end_ok _ _ _ _ Hrhs)).
    unfold iter_eqb. cbn [ptr_ pos_addr]. rewrite Z.eqb_refl. cbn [negb].
    exists l, []. rewrite app_nil_r. split; [by apply evolved_refl|]. done.
  - destruct fuel as [|fuel]; [simpl; lia|]. cbn [copy_from]. unfold cend.
    rewrite (bind_Ok _ _ _ _ _ (end_ok _ _ _ _ Hrhs)).
    unfold iter_eqb. cbn [ptr_ pos_addr fst].
    assert (p ≠ end_ lr) as Hpe
      by apply (pos_addr_not_end _ _ _ (p, x) _ (proj2 Hrhs)).
    apply Z.eqb_neq in Hpe. rewrite Hpe. cbn [negb].
    rewrite (bind_Ok _ _ _ _ _ (deref_ok _ _ _ _ _ _ _ Hrhs)).
    pose proof (push_back_spec w this l done x Hok Hthis) as Hpush.
    unfold bind at 1.
    destruct (push_back this x w)  as [[] w1|w1| |]; try done.
    + destruct Hpush as (n & _ & _ & _ & Hev).
      pose proof Hev as (Hthis1 & Hok1 & _).
      destruct (evolved_other _ _ _ _ _ _ _ rhs lr (live1 ++ (p, x) :: live2) Hev)
        as [Hrhs1 Hdisj1]; [done..|].
      rewrite (bind_Ok _ _ _ _ _ (incr_ok _ _ _ _ (p, x) _ Hrhs1)).
      replace (live1 ++ (p, x) :: live2) with ((live1 ++ [(p, x)]) ++ live2) in *
        by (by rewrite <- (assoc_L (++))).
      pose proof (IH fuel w1 _ _ _ Hok1 Hne Hthis1 Hrhs1 Hdisj1) as Hrest.
      destruct (copy_from fuel this rhs (Iter (pos_addr lr live2)) w1)
        as [[] w'|w'| |]; try done.
      * destruct Hrest as (l' & added & Hev' & (Hb & He & Ha) & Hvals).
        exists l', ((n, x) :: added).
        replace (done ++ (n, x) :: added) with ((done ++ [(n, x)]) ++ added)
          by (by rewrite <- (assoc_L (++))).
        split; [by eapply evolved_trans|]. split; [done|].
        rewrite !fmap_cons. by rewrite Hvals.
      * destruct Hrest as (l' & added & k & Hk & Hev' & (Hb & He & Ha) & Hvals).
        exists l', ((n, x) :: added), (S k).
        replace (done ++ (n, x) :: added) with ((done ++ [(n, x)]) ++ added)
          by (by rewrite <- (assoc_L (++))).
        split; [simpl; lia|].
        split; [by eapply evolved_trans|]. split; [done|].
        rewrite !fmap_cons. cbn [take]. by rewrite Hvals.
      * simpl. lia.
    + exists l, [], 0%nat. rewrite app_nil_r. split; [simpl; lia|]. done.
Qed.

Lemma copy__spec fuel (w : World) this rhs l lr live :
  alloc_ok w → this ≠ rhs →
  is_list w this l [] → is_list w rhs lr live →
  addrs lr live ## addrs l [] →
  match copy_ fuel this rhs w with
  | Ok _ w' =>
      ∃ l' copied, evolved w w' this l [] l' copied ∧
                   same_object l l' ∧ copied.*2 = live.*2
  | Throw w' =>
      ∃ l' copied k, (k < length live)%nat ∧
                     evolved w w' this l [] l' copied ∧
                     same_object l l' ∧ copied.*2 = take k (live.*2)
  | OutOfFuel => (fuel ≤ length live)%nat
  | Undefined => False
  end.
Proof.
  intros Hok Hne Hthis Hrhs Hdisj. unfold copy_, cbegin.
  rewrite (bind_Ok _ _ _ _ _ (begin_ok _ _ _ _ Hrhs)).
  exact (copy_from_spec fuel w this rhs l [] lr [] live Hok Hne Hthis Hrhs Hdisj).
Qed.

Lemma begin_in_addrs (l : List) live : begin_ l ∈ addrs l live.
Proof. by left. Qed.

Lemma end_in_addrs (l : List) live : end_ l ∈ addrs l live.
Proof. right. apply elem_of_app. right. by left. Qed.

Lemma deallocate_node_ok (w : World) p nd :
  nodes w !! p = Some nd →
  deallocate_node p w =
    Ok tt {| nodes := delete p (nodes w); lists := lists w;
             na := na_deallocate p (na w); destroyed := destroyed w |}.
Proof. intros Hp. unfold deallocate_node. by rewrite Hp. Qed.

(** The destructor leaves every other list as it is. *)
Lemma dtor_spec fuel (w : World) this l live :
  alloc_ok w → is_list w this l live →
  match dtor fuel this w with
  | Ok _ w' =>
      alloc_ok w' ∧ lists w' !! this = None ∧
      ∀ that l2 live2, that ≠ this → is_list w that l2 live2 →
                       addrs l2 live2 ## addrs l live → is_list w' that l2 live2
  | OutOfFuel => (fuel ≤ length live)%nat
  | Throw _ | Undefined => False
  end.
Proof.
  intros Hok Hlist. unfold dtor.
  pose proof (pop_all_spec fuel w this l live Hok Hlist) as Hpop.
  unfold bind at 1.
  destruct (pop_all fuel this w) as [[] w1|w1| |]; try done.
  pose proof Hpop as (Hlist1 & Hok1 & _).
  set (l1 := resized l 0) in *.
  pose proof (rep_begin _ _ _ (proj2 Hlist1)) as Hb.
  pose proof (rep_end _ _ _ (proj2 Hlist1)) as He.
  pose proof (rep_nodup _ _ _ (proj2 Hlist1)) as Hnd.
  apply NoDup_cons in Hnd as [Hbe _].
  assert (begin_ l1 ≠ end_ l1) as Hbe' by (intros E; apply Hbe; rewrite E; by left).
  rewrite (bind_Ok _ _ _ _ _ (members_ok _ _ _ _ Hlist1)).
  rewrite (bind_Ok _ _ _ _ _ (deallocate_node_ok _ _ _ Hb)).
  unfold bind at 1. unfold members at 1. cbn [lists].
  rewrite (proj1 Hlist1).
  erewrite (bind_Ok (deallocate_node (end_ l1))).
  2:{ eapply deallocate_node_ok. cbn [nodes].
      rewrite lookup_delete_ne by done. exact He. }
  cbn [nodes lists na].
  split; [|split].
  - unfold alloc_ok. cbn [na nodes]. rewrite !dom_delete_L.
    apply na_deallocate_owns.
    + apply na_deallocate_owns; [done|]. by apply elem_of_dom_2 in Hb.
    + apply elem_of_difference. split; [by apply elem_of_dom_2 in He|].
      intros Hin. apply elem_of_singleton in Hin. done.
  - by rewrite lookup_delete_eq.
  - intros that l2 live2 Hne Hthat Hdisj.
    destruct (evolved_other _ _ _ _ _ _ _ that l2 live2 Hpop Hne Hthat Hdisj)
      as [[Hl2 Hr2] Hdisj1].
    split; cbn [lists nodes]; [by rewrite lookup_delete_ne|].
    eapply rep_frame; [|done]. intros a Ha.
    rewrite !lookup_delete_ne; [done| |].
    + intros <-. apply (Hdisj1 _ Ha). apply begin_in_addrs.
    + intros <-. apply (Hdisj1 _ Ha). apply end_in_addrs.
Qed.

(** *** The claims about the list *)

(** C9.  On an empty list [pop_front] and [pop_back] return and leave the
    whole memory as it is (size, sentinels, nodes); on a list that is not
    empty [pop_front] removes the first live node and [pop_back] the last
    one, the other nodes staying linked between the same two sentinels. *)
Theorem pop_is_noop_on_empty_and_removes_boundary_otherwise
  (w : World) this l live :
  alloc_ok w → is_list w this l live →
  (live = [] → pop_front this w = Ok tt w ∧ pop_back this w = Ok tt w) ∧
  (∀ c rest, live = c :: rest →
     ∃ w', pop_front this w = Ok tt w' ∧
           is_list w' this (resized l (size_ l - 1)) rest) ∧
  (∀ init c, live = init ++ [c] →
     ∃ w', pop_back this w = Ok tt w' ∧
           is_list w' this (resized l (size_ l - 1)) init).
Proof.
  intros Hok Hlist. split; [|split].
  - intros ->. split; [by eapply pop_front_empty|by eapply pop_back_empty].
  - intros c rest ->.
    destruct (pop_front_spec w this l c rest Hok Hlist) as (w' & Hp & Hev).
    exists w'. split; [done|]. apply Hev.
  - intros init c ->.
    destruct (pop_back_spec w this l init c Hok Hlist) as (w' & Hp & Hev).
    exists w'. split; [done|]. apply Hev.
Qed.

Lemma disjoint_sym (xs ys : list Z) : xs ## ys → ys ## xs.
Proof. intros Hd a Ha Ha'. exact (Hd a Ha' Ha). Qed.

Lemma ctor_Ok_fresh (w : World) this alloc w' :
  ctor this alloc w = Ok tt w' → lists w !! this = None.
Proof.
  unfold ctor, constructing. by destruct (lists w !! this).
Qed.

(** C6.  From the empty list the constructor builds, after any run of
    [push_front], [push_back], [insert], [pop_front], [pop_back] and
    [erase] calls none of which is undefined, [size()] returns the number
    of insertions that returned minus the number of removals that removed
    an element, and that is the number of live nodes linked between the
    two sentinels, which a traversal from [begin()] to [end()] visits. *)
Theorem size_is_insertions_minus_removals
  (w0 : World) this alloc w1 os w t :
  alloc_ok w0 → ctor this alloc w0 = Ok tt w1 →
  run this os (w1, mkTally 0 0) = Some (w, t) →
  ∃ l live,
    is_list w this l live ∧
    size this w = Ok (Z.of_nat (inserted t) - Z.of_nat (removed t)) w ∧
    Z.of_nat (length live) = Z.of_nat (inserted t) - Z.of_nat (removed t) ∧
    traverse (S (length live)) this w = Ok (live.*2) w.
Proof.
  intros Hok Hctor Hrun.
  pose proof (ctor_spec w0 this alloc Hok (ctor_Ok_fresh _ _ _ _ Hctor)) as Hs.
  rewrite Hctor in Hs. destruct Hs as (b & e & _ & _ & Hlist1 & Hok1 & _).
  destruct (run_tracked this os w1 _ w t _ _ Hok1 Hlist1 Hrun)
    as (l & live & (Hlist & _) & _ & _ & Hbal).
  unfold balance in Hbal. simpl in Hbal.
  exists l, live. split; [done|].
  assert (Z.of_nat (length live) = Z.of_nat (inserted t) - Z.of_nat (removed t))
    as Hlen by lia.
  split; [|split; [done|]].
  - rewrite <- Hlen. by eapply size_ok.
  - eapply traverse_ok; [done|lia].
Qed.

(** X3: what [insert] does, for C1.  [insert] links a
    new node holding [v] immediately before the node of the position, but
    the iterator it returns holds the address of the node after the
    position (null when the position is [end()]), which is never the
    address of the new node. *)
Theorem insert_links_before_position_and_returns_the_node_after
  (w : World) this l live1 live2 v it w' :
  alloc_ok w → is_list w this l (live1 ++ live2) →
  insert this (Iter (pos_addr l live2)) v w = Ok it w' →
  ∃ n, is_list w' this (resized l (size_ l + 1)) (live1 ++ (n, v) :: live2) ∧
       ptr_ it = after l live2 ∧ ptr_ it ≠ n.
Proof.
  intros Hok Hlist Hins.
  pose proof (insert_spec w this l live1 live2 v Hok Hlist) as Hs.
  rewrite Hins in Hs. destruct Hs as (n & _ & Hn & Hn0 & Hev & Hit).
  exists n. split; [apply Hev|]. split; [done|]. rewrite Hit.
  destruct live2 as [|c [|c' rest]]; cbn [after pos_addr]; [done| |].
  - intros <-. apply Hn. eapply rep_dom; [apply Hlist|]. apply end_in_addrs.
  - intros <-. apply Hn. eapply rep_dom; [apply Hlist|].
    unfold addrs. right. rewrite fmap_app, !fmap_cons.
    apply elem_of_app. left. apply elem_of_app. right. right. by left.
Qed.
End Rep.

(** *** Running the list

    [int] elements, whose copy never throws; an allocator type with the
    traits of [std::allocator]; and a node allocator that hands out the
    addresses [bump_next], [bump_next + 1], ... and throws std::bad_alloc
    once [bump_budget] allocations have been made. *)

#[export] Instance int_copy : CopyConstructible Z := {| copy_throws := λ _, false |}.

#[export] Instance std_allocator_traits : AllocatorTraits unit :=
  {| select_on_container_copy_construction := id;
     propagate_on_container_copy_assignment := false |}.

Record Bump := mkBump { bump_next : Z; bump_used : nat; bump_budget : nat }.

Definition bump_allocate (a : Bump) : option (Z * Bump) :=
  match bump_budget a with
  | O => None
  | S b => Some (bump_next a, mkBump (bump_next a + 1) (S (bump_used a)) b)
  end.

Definition bump_owns (a : Bump) (live : gset Z) : Prop :=
  0 < bump_next a ∧
  set_Forall (λ p, 0 < p < bump_next a) live ∧
  (base.size live ≤ bump_used a)%nat ∧
  Z.of_nat (bump_used a + bump_budget a) < SizeT.modulus.

Lemma bump_fresh a live p a' :
  bump_owns a live → bump_allocate a = Some (p, a') →
  p ≠ 0 ∧ (p ∉ live) ∧ bump_owns a' ({[p]} ∪ live).
Proof.
  intros (Hp & Hr & Hs & Hb) Ha. unfold bump_allocate in Ha.
  destruct (bump_budget a) as [|b] eqn:E; [done|]. injection Ha as <- <-.
  assert (bump_next a ∉ live) as Hn by (intros Hin; apply Hr in Hin; lia).
  split; [lia|]. split; [done|].
  split; [simpl; lia|]. split; [|split]; simpl.
  - intros q Hq. apply elem_of_union in Hq as [Hq|Hq].
    + apply elem_of_singleton in Hq. lia.
    + apply Hr in Hq. lia.
  - rewrite size_union by (by apply disjoint_singleton_l).
    rewrite size_singleton. lia.
  - lia.
Qed.

Lemma bump_dealloc a live p :
  bump_owns a live → p ∈ live → bump_owns a (live ∖ {[p]}).
Proof.
  intros (Hp & Hr & Hs & Hb) Hin. split; [done|]. split; [|split; [|done]].
  - intros q Hq. apply Hr. by apply elem_of_difference in Hq as [? _].
  - etrans; [|exact Hs]. apply subseteq_size. apply subseteq_difference_l. done.
Qed.

Lemma bump_bounded a live :
  bump_owns a live → Z.of_nat (base.size live) < SizeT.modulus.
Proof. intros (Hp & Hr & Hs & Hb). lia. Qed.

#[export] Instance bump_allocator : NodeAllocator Bump :=
  {| na_allocate := bump_allocate;
     na_deallocate := λ _ a, a;
     na_owns := bump_owns;
     na_allocate_fresh := bump_fresh;
     na_deallocate_owns := bump_dealloc;
     na_bounded := bump_bounded |}.

Abbreviation IntWorld := (World (T:=Z) (A:=Bump) (Alloc:=unit)).

(** The memory with no node and no list, and room for [budget] nodes. *)
Definition nothing (budget : nat) : IntWorld :=
  mkWorld ∅ ∅ (mkBump 100 0 budget) [].

(** The memory a program leaves that returns. *)
Definition after_running (prog : M IntWorld unit) (w : IntWorld) : IntWorld :=
  match prog w with
  | Ok _ w' => w'
  | _ => w
  end.

(** The list 1, 2, 3 at the object address 1. *)
Definition one_two_three (budget : nat) : IntWorld :=
  after_running
    (ctor 1 tt ;; push_back 1 1 ;; push_back 1 2 ;; push_back 1 3)
    (nothing budget).

Ltac concrete_alloc_ok :=
  split; [reflexivity|]; split; [compute_done|];
  split; [vm_compute; lia|vm_compute; reflexivity].

Ltac concrete_rep :=
  constructor;
  [ reflexivity
  | vm_compute; reflexivity
  | repeat split; vm_compute; reflexivity
  | compute_done
  | compute_done ].

Ltac concrete_is_list := split; [vm_compute; reflexivity|concrete_rep].

(** The empty list at the object address 1. *)
Definition empty_list (budget : nat) : IntWorld :=
  after_running (ctor 1 tt) (nothing budget).

(** The list 1, 2, 3 at the object address 1 and the list 4, 5 at the
    object address 2. *)
Definition two_lists (budget : nat) : IntWorld :=
  after_running
    (ctor 1 tt ;; push_back 1 1 ;; push_back 1 2 ;; push_back 1 3 ;;
     ctor 2 tt ;; push_back 2 4 ;; push_back 2 5)
    (nothing budget).

Lemma one_two_three_ok :
  alloc_ok (one_two_three 10) ∧
  is_list (one_two_three 10) 1 (mkList tt 3 100 101) [(102, 1); (103, 2); (104, 3)].
Proof. split; [concrete_alloc_ok|concrete_is_list]. Qed.

Lemma nothing_ok budget :
  Z.of_nat budget < SizeT.modulus → alloc_ok (nothing budget).
Proof.
  intros Hb. split; [reflexivity|]. split; [|split]; simpl.
  - intros p Hp. by apply not_elem_of_empty in Hp.
  - by rewrite dom_empty_L, size_empty.
  - done.
Qed.

Lemma empty_list_ok :
  alloc_ok (empty_list 10) ∧ is_list (empty_list 10) 1 (mkList tt 0 100 101) [].
Proof. split; [concrete_alloc_ok|concrete_is_list]. Qed.

Lemma two_lists_ok :
  alloc_ok (two_lists 10) ∧
  is_list (two_lists 10) 1 (mkList tt 3 100 101) [(102, 1); (103, 2); (104, 3)] ∧
  is_list (two_lists 10) 2 (mkList tt 2 105 106) [(107, 4); (108, 5)].
Proof. split; [concrete_alloc_ok|split; concrete_is_list]. Qed.

Section Ints.
Context {A : Type} `{NodeAllocator A}.
Context {Alloc : Type} `{AllocatorTraits Alloc}.

(** C8.  On the list built by [push_back(1); push_back(2); push_back(3)]
    the traversal from [begin()] to [end()] yields 1, 2, 3 and the one from
    [rbegin()] to [rend()] yields 3, 2, 1; after [erase(begin())] the size
    is 2 and the forward traversal yields 2, 3. *)
Theorem traversals_of_one_two_three
  (w0 : World (T:=Z) (A:=A) (Alloc:=Alloc)) this alloc w :
  alloc_ok w0 →
  (ctor this alloc ;; push_back this 1 ;; push_back this 2 ;; push_back this 3) w0
    = Ok tt w →
  traverse 4 this w = Ok [1; 2; 3] w ∧
  rtraverse 4 this w = Ok [3; 2; 1] w ∧
  ∃ it w', (b <- begin this ;; erase this b) w = Ok it w' ∧
           size this w' = Ok 2 w' ∧
           traverse 4 this w' = Ok [2; 3] w'.
Proof.
  intros Hok0 Hprog. unfold bind in Hprog.
  destruct (ctor this alloc w0) as [[] w1|w1| |] eqn:Hctor; try done.
  pose proof (ctor_spec w0 this alloc Hok0 (ctor_Ok_fresh _ _ _ _ Hctor)) as Hs.
  rewrite Hctor in Hs. destruct Hs as (b & e & _ & _ & Hlist1 & Hok1 & _).
  pose proof (push_back_spec w1 this _ _ 1 Hok1 Hlist1) as Hs1.
  destruct (push_back this 1 w1) as [[] w2|w2| |]; try done.
  destruct Hs1 as (n1 & _ & _ & _ & Hlist2 & Hok2 & _).
  pose proof (push_back_spec w2 this _ _ 2 Hok2 Hlist2) as Hs2.
  destruct (push_back this 2 w2) as [[] w3|w3| |]; try done.
  destruct Hs2 as (n2 & _ & _ & _ & Hlist3 & Hok3 & _).
  pose proof (push_back_spec w3 this _ _ 3 Hok3 Hlist3) as Hs3.
  destruct (push_back this 3 w3) as [[] w4|w4| |]; try done.
  destruct Hs3 as (n3 & _ & _ & _ & Hlist & Hokw & _).
  injection Hprog as <-. cbn [app] in Hlist.
  split; [by apply (traverse_ok _ _ _ _ 4 Hlist ltac:(simpl; lia))|].
  split; [by apply (rtraverse_ok _ _ _ _ 4 Hlist ltac:(simpl; lia))|].
  destruct (erase_spec w4 this _ [] n1 1 _ Hokw Hlist) as (w' & He & Hev).
  exists (Iter n2), w'. split.
  - rewrite (bind_Ok _ _ _ _ _ (begin_ok _ _ _ _ Hlist)). exact He.
  - destruct Hev as (Hlist' & _). cbn [app] in Hlist'. split.
    + by apply (size_ok _ _ _ _ Hlist').
    + by apply (traverse_ok _ _ _ _ 4 Hlist' ltac:(simpl; lia)).
Qed.
End Ints.

(** C1, at the failing input.  On the empty list [insert(end(), 7)] links
    the node of 7 but returns a null iterator (dereferencing it is
    undefined); on the list 1, 2, 3 [insert] of 9 at the position of 2 makes
    the list 1, 9, 2, 3 and returns an iterator to 3. *)
Theorem insert_returns_iterator_to_the_wrong_node :
  (∃ it w',
     (e <- end' 1 ;; insert 1 e 7) (empty_list 10) = Ok it w' ∧
     traverse 2 1 w' = Ok [7] w' ∧
     ptr_ it = 0 ∧ deref it w' = Undefined) ∧
  (∃ it w',
     (b <- begin 1 ;; p <- incr b ;; insert 1 p 9) (one_two_three 10) = Ok it w' ∧
     traverse 5 1 w' = Ok [1; 9; 2; 3] w' ∧
     deref it w' = Ok 3 w').
Proof.
  split; eexists _, _.
  - split; [vm_compute; reflexivity|]. split; [vm_compute; reflexivity|].
    split; [reflexivity|]. vm_compute; reflexivity.
  - split; [vm_compute; reflexivity|]. split; vm_compute; reflexivity.
Qed.

Lemma insert_links_before_position_and_returns_the_node_after_witness :
  ∃ it w' n,
    insert 1 (Iter 103) 9 (one_two_three 10) = Ok it w' ∧
    is_list w' 1 (mkList tt 4 100 101)
      [(102, 1); (n, 9); (103, 2); (104, 3)] ∧
    ptr_ it = 104 ∧ ptr_ it ≠ n.
Proof.
  assert (∃ it w', insert 1 (Iter 103) 9 (one_two_three 10) = Ok it w')
    as (it & w' & Hins) by (eexists _, _; vm_compute; reflexivity).
  destruct (insert_links_before_position_and_returns_the_node_after
              (one_two_three 10) 1 (mkList tt 3 100 101)
              [(102, 1)] [(103, 2); (104, 3)] 9 it w'
              (proj1 one_two_three_ok) (proj2 one_two_three_ok) Hins)
    as (n & Hlist & Hit & Hne).
  exists it, w', n. split; [exact Hins|]. split; [exact Hlist|].
  split; [exact Hit|exact Hne].
Defined.

Lemma pop_is_noop_on_empty_and_removes_boundary_otherwise_witness :
  (pop_front 1 (empty_list 10) = Ok tt (empty_list 10) ∧
   pop_back 1 (empty_list 10) = Ok tt (empty_list 10)) ∧
  (∃ w', pop_front 1 (one_two_three 10) = Ok tt w' ∧
         is_list w' 1 (mkList tt 2 100 101) [(103, 2); (104, 3)]) ∧
  (∃ w', pop_back 1 (one_two_three 10) = Ok tt w' ∧
         is_list w' 1 (mkList tt 2 100 101) [(102, 1); (103, 2)]).
Proof.
  split; [|split].
  - apply (proj1 (pop_is_noop_on_empty_and_removes_boundary_otherwise
                    (empty_list 10) 1 (mkList tt 0 100 101) []
                    (proj1 empty_list_ok) (proj2 empty_list_ok))).
    reflexivity.
  - apply (proj1 (proj2 (pop_is_noop_on_empty_and_removes_boundary_otherwise
                    (one_two_three 10) 1 (mkList tt 3 100 101)
                    [(102, 1); (103, 2); (104, 3)]
                    (proj1 one_two_three_ok) (proj2 one_two_three_ok)))
                 (102, 1) [(103, 2); (104, 3)]).
    reflexivity.
  - apply (proj2 (proj2 (pop_is_noop_on_empty_and_removes_boundary_otherwise
                    (one_two_three 10) 1 (mkList tt 3 100 101)
                    [(102, 1); (103, 2); (104, 3)]
                    (proj1 one_two_three_ok) (proj2 one_two_three_ok)))
                 [(102, 1); (103, 2)] (104, 3)).
    reflexivity.
Defined.

(** A run with every kind of call in it: a pop on the empty list, which
    removes nothing, and insertions and removals at both ends and in the
    middle. *)
Definition mixed_run : list (op (T:=Z)) :=
  [PopFront; PushBack 1; PushFront 2; Insert 1 5; PopBack; Erase 0;
   PushBack 8; PopFront; Insert 1 4].

Lemma size_is_insertions_minus_removals_witness :
  ∃ w t,
    run 1 mixed_run (empty_list 10, mkTally 0 0) = Some (w, t) ∧
    inserted t = 5%nat ∧ removed t = 3%nat ∧
    ∃ l live,
      is_list w 1 l live ∧
      size 1 w = Ok (Z.of_nat (inserted t) - Z.of_nat (removed t)) w ∧
      Z.of_nat (length live) = Z.of_nat (inserted t) - Z.of_nat (removed t) ∧
      traverse (S (length live)) 1 w = Ok (live.*2) w.
Proof.
  assert (∃ w t, run 1 mixed_run (empty_list 10, mkTally 0 0) = Some (w, t) ∧
                 inserted t = 5%nat ∧ removed t = 3%nat)
    as (w & t & Hrun & Hi & Hr)
    by (eexists _, _; split; [vm_compute; reflexivity|split; reflexivity]).
  exists w, t. split; [exact Hrun|]. split; [exact Hi|]. split; [exact Hr|].
  apply (size_is_insertions_minus_removals (nothing 10) 1 tt (empty_list 10)
           mixed_run w t).
  - apply nothing_ok. reflexivity.
  - vm_compute; reflexivity.
  - exact Hrun.
Defined.

Lemma traversals_of_one_two_three_witness :
  traverse 4 1 (one_two_three 10) = Ok [1; 2; 3] (one_two_three 10) ∧
  rtraverse 4 1 (one_two_three 10) = Ok [3; 2; 1] (one_two_three 10) ∧
  ∃ it w', (b <- begin 1 ;; erase 1 b) (one_two_three 10) = Ok it w' ∧
           size 1 w' = Ok 2 w' ∧
           traverse 4 1 w' = Ok [2; 3] w'.
Proof.
  apply (traversals_of_one_two_three (nothing 10) 1 tt (one_two_three 10)).
  - apply nothing_ok. reflexivity.
  - vm_compute; reflexivity.
Defined.

Lemma two_lists_disjoint :
  addrs (mkList tt 2 105 106) [(107, 4); (108, 5)]
    ## addrs (mkList tt 3 100 101) [(102, 1); (103, 2); (104, 3)].
Proof.
  assert (NoDup (addrs (mkList tt 2 105 106) [(107, 4); (108, 5)] ++
                 addrs (mkList tt 3 100 101) [(102, 1); (103, 2); (104, 3)]))
    as Hnd by compute_done.
  apply NoDup_app in Hnd as (_ & Hd & _).
  intros x Hx Hy. exact (Hd x Hx Hy).
Qed.

(** *** Which nodes a call allocates and frees *)

Section Footprint.
Context {T : Type} `{CopyConstructible T}.
Context {A : Type} `{NodeAllocator A}.
Context {Alloc : Type} `{AllocatorTraits Alloc}.

Local Abbreviation World := (World (T:=T) (A:=A) (Alloc:=Alloc)).

Lemma bind_Ok_inv {S X Y} (m : M S X) (k : X → M S Y) s r s' :
  bind m k s = Ok r s' → ∃ a s1, m s = Ok a s1 ∧ k a s1 = Ok r s'.
Proof. unfold bind. destruct (m s) as [a s1| | |]; [|done..]. by exists a, s1. Qed.

Lemma bind_Throw_inv {S X Y} (m : M S X) (k : X → M S Y) s s' :
  bind m k s = Throw s' →
  m s = Throw s' ∨ ∃ a s1, m s = Ok a s1 ∧ k a s1 = Throw s'.
Proof.
  unfold bind. destruct (m s) as [a s1|s1| |].
  - right. by exists a, s1.
  - intros [= ->]. by left.
  - done.
  - done.
Qed.

(** A step that allocates and frees nothing and does not throw: reads and
    writes of nodes and of list members. *)
Record quiet {R} (m : M World R) : Prop := {
  quiet_Ok : ∀ w r w', m w = Ok r w' →
               dom (nodes w') = dom (nodes w) ∧ na w' = na w;
  quiet_Throw : ∀ w w', m w ≠ Throw w'
}.

Lemma quiet_ret {R} (r : R) : quiet (ret r).
Proof. split; [by intros w r' w' [= _ <-]|done]. Qed.

Lemma quiet_undefined {R} : quiet (undefined (R:=R)).
Proof. by split. Qed.

Lemma quiet_bind {X Y} (m : M World X) (k : X → M World Y) :
  quiet m → (∀ a, quiet (k a)) → quiet (bind m k).
Proof.
  intros Hm Hk. split.
  - intros w r w' (a & w1 & Hm1 & Hk1)%bind_Ok_inv.
    destruct (quiet_Ok _ Hm _ _ _ Hm1) as [Hd Hn].
    destruct (quiet_Ok _ (Hk a) _ _ _ Hk1) as [Hd' Hn'].
    split; congruence.
  - intros w w' [Ht|(a & w1 & _ & Ht)]%bind_Throw_inv.
    + by apply (quiet_Throw _ Hm) in Ht.
    + by apply (quiet_Throw _ (Hk a)) in Ht.
Qed.

Lemma quiet_load p : quiet (load p).
Proof.
  split; intros w; unfold load; destruct (nodes w !! p); try done.
  by intros r w' [= _ <-].
Qed.

Lemma quiet_store p nd : quiet (store p nd).
Proof.
  split; intros w; unfold store; destruct (nodes w !! p) eqn:E; try done.
  intros r w' [= _ <-]. simpl. split; [|done].
  rewrite dom_insert_L. apply elem_of_dom_2 in E. set_solver.
Qed.

Lemma quiet_members this : quiet (members this).
Proof.
  split; intros w; unfold members; destruct (lists w !! this); try done.
  by intros r w' [= _ <-].
Qed.

Lemma quiet_set_members this l : quiet (set_members this l).
Proof.
  split; intros w; unfold set_members; destruct (lists w !! this); try done.
  by intros r w' [= _ <-].
Qed.

Lemma quiet_if {R} (b : bool) (m1 m2 : M World R) :
  quiet m1 → quiet m2 → quiet (if b then m1 else m2).
Proof. by destruct b. Qed.

Lemma quiet_destroy p : quiet (destroy p).
Proof.
  unfold destroy. apply quiet_bind; [apply quiet_load|]. intros nd.
  apply quiet_bind; [|intros _; apply quiet_store].
  destruct (elem_ nd) as [x|]; [|apply quiet_ret].
  split; [|done]. by intros w r w' [= _ <-].
Qed.

Create HintDb quiet discriminated.
#[local] Hint Resolve quiet_ret quiet_undefined quiet_load quiet_store
  quiet_members quiet_set_members quiet_destroy : quiet.
#[local] Hint Extern 1 (quiet (bind _ _)) =>
  apply quiet_bind; [|intros ?] : quiet.
#[local] Hint Extern 1 (quiet (if _ then _ else _)) => apply quiet_if : quiet.
#[local] Hint Unfold get_next get_prev set_next set_prev set_size_ set_begin_
  set_end_ set_allocator_ size begin end' cbegin cend
  incr decr : quiet.

Ltac quiet := repeat autounfold with quiet; auto 20 with quiet.

Lemma quiet_begin this : quiet (begin this).
Proof. quiet. Qed.
Lemma quiet_end this : quiet (end' this).
Proof. quiet. Qed.
Lemma quiet_size this : quiet (size this).
Proof. quiet. Qed.
Lemma quiet_incr it : quiet (incr it).
Proof. quiet. Qed.
Lemma quiet_decr it : quiet (decr it).
Proof. quiet. Qed.
Lemma quiet_deref it : quiet (deref it).
Proof.
  unfold deref. apply quiet_bind; [quiet|]. intros nd.
  destruct (elem_ nd); quiet.
Qed.

(** What [allocate_node] and [deallocate_node] do to the set of nodes. *)
Lemma allocate_node_Ok (w : World) p w' :
  allocate_node w = Ok p w' →
  na_allocate (na w) = Some (p, na w') ∧
  nodes w' = <[p := mkNode None 0 0]> (nodes w) ∧ lists w' = lists w ∧
  destroyed w' = destroyed w.
Proof.
  unfold allocate_node. destruct (na_allocate (na w)) as [[q a]|]; [|done].
  by intros [= <- <-].
Qed.

Lemma allocate_node_Throw (w : World) w' :
  allocate_node w = Throw w' → na_allocate (na w) = None ∧ w' = w.
Proof.
  unfold allocate_node. destruct (na_allocate (na w)) as [[q a]|]; [done|].
  by intros [= <-].
Qed.

(** [insert_before_]: one node is allocated when it returns; when it
    throws, either the allocation failed and nothing has changed, or the
    element's copy constructor threw and the node allocated for it stays
    allocated, in no list. *)
Lemma insert_before__footprint this ptr v (w : World) :
  match insert_before_ this ptr v w with
  | Ok _ w' =>
      ∃ n, na_allocate (na w) = Some (n, na w') ∧ copy_throws v = false ∧
           dom (nodes w') = {[n]} ∪ dom (nodes w)
  | Throw w' =>
      (na_allocate (na w) = None ∧ w' = w) ∨
      (∃ n a', na_allocate (na w) = Some (n, a') ∧ copy_throws v = true ∧
               w' = {| nodes := <[n := mkNode None 0 0]> (nodes w);
                       lists := lists w; na := a'; destroyed := destroyed w |})
  | Undefined | OutOfFuel => True
  end.
Proof.
  unfold insert_before_. unfold bind at 1.
  destruct (allocate_node w) as [n w1|w1| |] eqn:Ha; [| |done..].
  2:{ left. by apply allocate_node_Throw. }
  apply allocate_node_Ok in Ha as (Hn & Hnodes & Hlists & Hlog).
  unfold construct. destruct (copy_throws v) eqn:Hc.
  { unfold bind, throw. right. exists n, (na w1). split; [done|]. split; [done|].
    destruct w1; simpl in *. by subst. }
  match goal with
  | |- context [bind ?m ?k w1] =>
      assert (quiet (bind m k)) as Hq by quiet;
      destruct (bind m k w1) as [r w'|w'| |] eqn:E; [| |done..]
  end.
  - apply (quiet_Ok _ Hq) in E as [Hd Hna]. exists n.
    rewrite Hna. split; [done|]. split; [done|].
    by rewrite Hd, Hnodes, dom_insert_L.
  - by apply (quiet_Throw _ Hq) in E.
Qed.

(** A step that only reads: it returns in the state it was called in. *)
Record reads {R} (m : M World R) : Prop := {
  reads_Ok : ∀ w r w', m w = Ok r w' → w' = w;
  reads_Throw : ∀ w w', m w ≠ Throw w'
}.

Lemma reads_quiet {R} (m : M World R) : reads m → quiet m.
Proof.
  intros Hm. split; [|apply Hm].
  intros w r w' E. by rewrite (reads_Ok _ Hm _ _ _ E).
Qed.

Lemma reads_ret {R} (r : R) : reads (ret r).
Proof. split; [by intros w r' w' [= _ <-]|done]. Qed.

Lemma reads_bind {X Y} (m : M World X) (k : X → M World Y) :
  reads m → (∀ a, reads (k a)) → reads (bind m k).
Proof.
  intros Hm Hk. split.
  - intros w r w' (a & w1 & Hm1 & Hk1)%bind_Ok_inv.
    rewrite (reads_Ok _ (Hk a) _ _ _ Hk1). by apply (reads_Ok _ Hm) in Hm1.
  - intros w w' [Ht|(a & w1 & _ & Ht)]%bind_Throw_inv.
    + by apply (reads_Throw _ Hm) in Ht.
    + by apply (reads_Throw _ (Hk a)) in Ht.
Qed.

Lemma reads_load p : reads (load p).
Proof.
  split; intros w; unfold load; destruct (nodes w !! p); try done.
  by intros r w' [= _ <-].
Qed.

Lemma reads_members this : reads (members this).
Proof.
  split; intros w; unfold members; destruct (lists w !! this); try done.
  by intros r w' [= _ <-].
Qed.

Lemma reads_begin this : reads (begin this).
Proof.
  unfold begin, get_next.
  repeat (first [apply reads_bind; [|intros ?] | apply reads_members
                | apply reads_load | apply reads_ret]).
Qed.

Lemma reads_end this : reads (end' this).
Proof. unfold end'. apply reads_bind; [apply reads_members|intros ?; apply reads_ret]. Qed.

Lemma reads_get_next p : reads (get_next p).
Proof. unfold get_next. apply reads_bind; [apply reads_load|intros ?; apply reads_ret]. Qed.

(** [grows v m]: when [m] returns it has allocated one node; when it
    throws, either the allocation failed and nothing has changed, or the
    copy constructor of [v] threw and the node allocated for the copy
    stays allocated, linked into no list. *)
Definition grows (v : T) {R} (m : M World R) : Prop :=
  ∀ w, match m w with
       | Ok _ w' =>
           ∃ n, na_allocate (na w) = Some (n, na w') ∧ copy_throws v = false ∧
                dom (nodes w') = {[n]} ∪ dom (nodes w)
       | Throw w' =>
           (na_allocate (na w) = None ∧ w' = w) ∨
           (∃ n a', na_allocate (na w) = Some (n, a') ∧ copy_throws v = true ∧
                    w' = {| nodes := <[n := mkNode None 0 0]> (nodes w);
                            lists := lists w; na := a'; destroyed := destroyed w |})
       | Undefined | OutOfFuel => True
       end.

Lemma grows_insert_before_ this ptr v : grows v (insert_before_ this ptr v).
Proof. intros w. apply insert_before__footprint. Qed.

Lemma grows_then_quiet {X Y} v (m : M World X) (k : X → M World Y) :
  grows v m → (∀ a, quiet (k a)) → grows v (bind m k).
Proof.
  intros Hm Hk w. specialize (Hm w). unfold bind.
  destruct (m w) as [a w1|w1| |]; [|done..].
  destruct (k a w1) as [r w'|w'| |] eqn:E; [| |done..].
  - apply (quiet_Ok _ (Hk a)) in E as [Hd Hn].
    destruct Hm as (n & ? & ? & ?). exists n. rewrite Hd, Hn. done.
  - by apply (quiet_Throw _ (Hk a)) in E.
Qed.

Lemma reads_then_grows {X Y} v (m : M World X) (k : X → M World Y) :
  reads m → (∀ a, grows v (k a)) → grows v (bind m k).
Proof.
  intros Hm Hk w. unfold bind.
  destruct (m w) as [a w1|w1| |] eqn:E; [| |done..].
  - apply (reads_Ok _ Hm) in E as ->. apply Hk.
  - by apply (reads_Throw _ Hm) in E.
Qed.

Lemma grows_insert this it v : grows v (insert this it v).
Proof.
  unfold insert. apply grows_then_quiet; [apply grows_insert_before_|].
  intros _. quiet.
Qed.

Lemma grows_push_back this v : grows v (push_back this v).
Proof.
  unfold push_back. apply reads_then_grows; [apply reads_end|]. intros it.
  apply grows_then_quiet; [apply grows_insert|]. intros _. quiet.
Qed.

Lemma grows_push_front this v : grows v (push_front this v).
Proof.
  unfold push_front. apply reads_then_grows; [apply reads_begin|]. intros it.
  apply grows_then_quiet; [apply grows_insert|]. intros _. quiet.
Qed.

(** [frees p m]: [m] does not throw, and when it returns it has given the
    node at [p] back to the allocator and no other. *)
Definition frees (p : Z) {R} (m : M World R) : Prop :=
  ∀ w, match m w with
       | Ok _ w' => dom (nodes w') = dom (nodes w) ∖ {[p]} ∧
                    na w' = na_deallocate p (na w)
       | Throw _ => False
       | Undefined | OutOfFuel => True
       end.

Lemma quiet_then_frees {X Y} p (m : M World X) (k : X → M World Y) :
  quiet m → (∀ a, frees p (k a)) → frees p (bind m k).
Proof.
  intros Hm Hk w. unfold bind.
  destruct (m w) as [a w1|w1| |] eqn:E; [| |done..].
  - apply (quiet_Ok _ Hm) in E as [Hd Hn]. specialize (Hk a w1).
    destruct (k a w1); [|done..]. by rewrite <- Hd, <- Hn.
  - by apply (quiet_Throw _ Hm) in E.
Qed.

Lemma frees_then_quiet {X Y} p (m : M World X) (k : X → M World Y) :
  frees p m → (∀ a, quiet (k a)) → frees p (bind m k).
Proof.
  intros Hm Hk w. specialize (Hm w). unfold bind.
  destruct (m w) as [a w1|w1| |]; [|done..].
  destruct (k a w1) as [r w'|w'| |] eqn:E; [| |done..].
  - apply (quiet_Ok _ (Hk a)) in E as [Hd Hn]. by rewrite Hd, Hn.
  - by apply (quiet_Throw _ (Hk a)) in E.
Qed.

Lemma frees_deallocate_node p : frees p (deallocate_node p).
Proof.
  intros w. unfold deallocate_node. destruct (nodes w !! p); [|done].
  simpl. by rewrite dom_delete_L.
Qed.

Lemma frees_erase_ this ptr : frees ptr (erase_ this ptr).
Proof.
  unfold erase_.
  do 7 (apply quiet_then_frees; [quiet|intros ?]).
  apply frees_then_quiet; [apply frees_deallocate_node|]. intros _. quiet.
Qed.

Lemma frees_erase this it : frees (ptr_ it) (erase this it).
Proof.
  unfold erase. apply quiet_then_frees; [quiet|]. intros p.
  apply frees_then_quiet; [apply frees_erase_|]. intros _. quiet.
Qed.

(** *** Round trips *)

Lemma chain_determines (m m' : gmap Z (Node (T:=T))) pv cs nx a :
  chain m pv cs nx → chain m' pv cs nx → a ∈ cs.*1 → m !! a = m' !! a.
Proof.
  revert pv. induction cs as [|c cs IH]; intros pv Hc Hc' Ha; simpl in *.
  - by apply elem_of_nil in Ha.
  - destruct Hc as [Hm Hc], Hc' as [Hm' Hc'].
    apply elem_of_cons in Ha as [->|Ha]; [congruence|]. by eapply IH.
Qed.

(** The nodes of a list are determined by its two sentinels and its
    cells. *)
Lemma rep_determines (m m' : gmap Z (Node (T:=T))) (l l' : List (Alloc:=Alloc)) live a :
  begin_ l' = begin_ l → end_ l' = end_ l →
  rep m l live → rep m' l' live → a ∈ addrs l live → m !! a = m' !! a.
Proof.
  intros Hb He Hr Hr' Ha.
  pose proof (rep_chain _ _ _ Hr) as Hc. pose proof (rep_chain _ _ _ Hr') as Hc'.
  unfold pre, post in Hc'. rewrite Hb, He in Hc'.
  eapply chain_determines; [exact Hc|exact Hc'|]. by rewrite cells_addrs.
Qed.

Lemma pop_back_unfold (w : World) this l live p x :
  is_list w this l (live ++ [(p, x)]) →
  pop_back this w = (erase this (Iter p) ;; ret tt) w.
Proof.
  intros Hlist. unfold pop_back.
  rewrite (bind_Ok _ _ _ _ _ (size_ok _ _ _ _ Hlist)).
  rewrite bool_decide_true by (rewrite length_app; simpl; lia).
  rewrite (bind_Ok _ _ _ _ _ (end_ok _ _ _ _ Hlist)).
  assert (decr (Iter (end_ l)) w = Ok (Iter p) w) as Hdecr.
  { replace (live ++ [(p, x)]) with ((live ++ [(p, x)]) ++ []) in Hlist
      by apply app_nil_r.
    pose proof (decr_ok w this l (live ++ [(p, x)]) [] Hlist) as Hd.
    cbn [pos_addr] in Hd. rewrite Hd.
    unfold back_addr. by rewrite last_snoc. }
  by rewrite (bind_Ok _ _ _ _ _ Hdecr).
Qed.

Lemma pop_front_unfold (w : World) this l live p x :
  is_list w this l ((p, x) :: live) →
  pop_front this w = (erase this (Iter p) ;; ret tt) w.
Proof.
  intros Hlist. unfold pop_front.
  rewrite (bind_Ok _ _ _ _ _ (size_ok _ _ _ _ Hlist)).
  rewrite bool_decide_true by (simpl; lia).
  by rewrite (bind_Ok _ _ _ _ _ (begin_ok _ _ _ _ Hlist)).
Qed.

Lemma frees_pop (p : Z) this : frees p (erase this (Iter p) ;; ret tt).
Proof.
  apply frees_then_quiet; [apply (frees_erase this (Iter p))|]. intros _. quiet.
Qed.

(** A call that grew the list by the node [n] and a call that removed
    [n] again leave the nodes and the list objects as they were. *)
Lemma grow_shrink_restores (w w1 w2 : World) this l live l1 live1 n :
  is_list w this l live →
  evolved w w1 this l live l1 live1 →
  evolved w1 w2 this l1 live1 l live →
  n ∉ dom (nodes w) →
  dom (nodes w1) = {[n]} ∪ dom (nodes w) →
  dom (nodes w2) = dom (nodes w1) ∖ {[n]} →
  nodes w2 = nodes w ∧ lists w2 = lists w.
Proof.
  intros [Hl Hr] (_ & _ & [Hl1 Hn1] & Hnew1) ([Hl2' Hr2] & _ & [Hl2 Hn2] & _)
    Hn Hd1 Hd2.
  assert (dom (nodes w2) = dom (nodes w)) as Hd by set_solver.
  split.
  - apply map_eq. intros a.
    destruct (decide (a ∈ addrs l live)) as [Ha|Ha].
    + symmetry. by eapply (rep_determines _ _ l l).
    + destruct (decide (a ∈ dom (nodes w))) as [Hin|Hout].
      * rewrite Hn2, Hn1; [done..| |].
        -- rewrite Hd1. set_solver.
        -- intros Ha1. by destruct (Hnew1 _ Ha1).
      * apply not_elem_of_dom in Hout. rewrite Hout.
        apply not_elem_of_dom. rewrite Hd. by apply not_elem_of_dom.
  - apply map_eq. intros that. destruct (decide (that = this)) as [->|Hne].
    + by rewrite Hl2', Hl.
    + by rewrite Hl2, Hl1.
Qed.

Lemma resized_back (l : List (Alloc:=Alloc)) :
  resized (resized l (size_ l + 1)) (size_ (resized l (size_ l + 1)) - 1) = l.
Proof. destruct l. unfold resized. simpl. f_equal. lia. Qed.

(** X10.  [push_back(v)] followed by [pop_back()], and [push_front(v)]
    followed by [pop_front()], leave every node and every list object
    exactly as before: the links, the elements and the size of the list
    are restored and the node allocated for [v] has been given back. *)
Theorem push_then_pop_restores_the_list (w : World) this l live v :
  alloc_ok w → is_list w this l live →
  (∀ w1, push_back this v w = Ok tt w1 →
     ∃ w2, pop_back this w1 = Ok tt w2 ∧
           nodes w2 = nodes w ∧ lists w2 = lists w) ∧
  (∀ w1, push_front this v w = Ok tt w1 →
     ∃ w2, pop_front this w1 = Ok tt w2 ∧
           nodes w2 = nodes w ∧ lists w2 = lists w).
Proof.
  intros Hok Hlist. split; intros w1 Hpush.
  - pose proof (push_back_spec w this l live v Hok Hlist) as Hs.
    pose proof (grows_push_back this v w) as Hg.
    rewrite Hpush in Hs, Hg.
    destruct Hs as (n & _ & Hn & _ & Hev). destruct Hg as (n' & _ & _ & Hd1).
    pose proof Hev as (Hlist1 & Hok1 & _).
    assert (n' = n) as ->.
    { assert (n ∈ dom (nodes w1)) as Hin.
      { eapply rep_dom; [apply Hlist1|]. unfold addrs. right.
        rewrite fmap_app. apply elem_of_app. left. apply elem_of_app. right.
        by left. }
      rewrite Hd1 in Hin. set_solver. }
    destruct (pop_back_spec w1 this _ live (n, v) Hok1 Hlist1) as (w2 & Hpop & Hev2).
    exists w2. split; [done|].
    pose proof (frees_pop n this w1) as Hf.
    rewrite <- (pop_back_unfold _ _ _ _ _ _ Hlist1), Hpop in Hf.
    destruct Hf as [Hd2 _]. rewrite resized_back in Hev2.
    by eapply grow_shrink_restores.
  - pose proof (push_front_spec w this l live v Hok Hlist) as Hs.
    pose proof (grows_push_front this v w) as Hg.
    rewrite Hpush in Hs, Hg.
    destruct Hs as (n & _ & Hn & _ & Hev). destruct Hg as (n' & _ & _ & Hd1).
    pose proof Hev as (Hlist1 & Hok1 & _).
    assert (n' = n) as ->.
    { assert (n ∈ dom (nodes w1)) as Hin.
      { eapply rep_dom; [apply Hlist1|]. unfold addrs. right. by left. }
      rewrite Hd1 in Hin. set_solver. }
    destruct (pop_front_spec w1 this _ (n, v) live Hok1 Hlist1) as (w2 & Hpop & Hev2).
    exists w2. split; [done|].
    pose proof (frees_pop n this w1) as Hf.
    rewrite <- (pop_front_unfold _ _ _ _ _ _ Hlist1), Hpop in Hf.
    destruct Hf as [Hd2 _]. rewrite resized_back in Hev2.
    by eapply grow_shrink_restores.
Qed.

(** *** Destruction *)

Lemma pop_all_footprint fuel (w : World) this l live w' :
  alloc_ok w → is_list w this l live →
  pop_all fuel this w = Ok tt w' →
  dom (nodes w') = dom (nodes w) ∖ list_to_set (live.*1).
Proof.
  revert fuel w l. induction live as [|[p x] live IH] using rev_ind;
    intros fuel w l Hok Hlist Hrun.
  - destruct fuel as [|fuel]; [done|]. cbn [pop_all] in Hrun.
    rewrite (bind_Ok _ _ _ _ _ (size_ok _ _ _ _ Hlist)) in Hrun.
    cbn [length] in Hrun. change (0 <? Z.of_nat 0) with false in Hrun.
    injection Hrun as <-. simpl. set_solver.
  - destruct fuel as [|fuel]; [done|]. cbn [pop_all] in Hrun.
    rewrite (bind_Ok _ _ _ _ _ (size_ok _ _ _ _ Hlist)) in Hrun.
    replace (0 <? Z.of_nat (length (live ++ [(p, x)]))) with true in Hrun
      by (symmetry; apply Z.ltb_lt; rewrite length_app; simpl; lia).
    destruct (pop_back_spec w this l live (p, x) Hok Hlist) as (w1 & Hp & Hev).
    rewrite (bind_Ok _ _ _ _ _ Hp) in Hrun.
    pose proof Hev as (Hlist1 & Hok1 & _).
    pose proof (frees_pop p this w) as Hf.
    rewrite <- (pop_back_unfold _ _ _ _ _ _ Hlist), Hp in Hf.
    destruct Hf as [Hd1 _].
    rewrite (IH fuel w1 _ Hok1 Hlist1 Hrun), Hd1.
    rewrite fmap_app, list_to_set_app_L. simpl. set_solver.
Qed.

Lemma dtor_footprint fuel (w : World) this l live :
  alloc_ok w → is_list w this l live → (length live < fuel)%nat →
  ∃ w', dtor fuel this w = Ok tt w' ∧
        alloc_ok w' ∧
        lists w' = delete this (lists w) ∧
        dom (nodes w') = dom (nodes w) ∖ list_to_set (addrs l live) ∧
        (∀ a, a ∉ addrs l live → nodes w' !! a = nodes w !! a).
Proof.
  intros Hok Hlist Hfuel.
  pose proof (dtor_spec fuel w this l live Hok Hlist) as Hd.
  unfold dtor in *.
  pose proof (pop_all_spec fuel w this l live Hok Hlist) as Hpop.
  pose proof (pop_all_footprint fuel w this l live) as Hfoot.
  unfold bind at 1. unfold bind at 1 in Hd.
  destruct (pop_all fuel this w) as [[] w1|w1| |]; [|done|done|lia].
  specialize (Hfoot w1 Hok Hlist eq_refl).
  pose proof Hpop as (Hlist1 & Hok1 & [Hl1 Hn1] & _).
  set (l1 := resized l 0) in *.
  pose proof (rep_begin _ _ _ (proj2 Hlist1)) as Hb.
  pose proof (rep_end _ _ _ (proj2 Hlist1)) as He.
  pose proof (rep_nodup _ _ _ (proj2 Hlist1)) as Hnd.
  apply NoDup_cons in Hnd as [Hbe _].
  assert (begin_ l1 ≠ end_ l1) as Hbe' by (intros E; apply Hbe; rewrite E; by left).
  rewrite (bind_Ok _ _ _ _ _ (members_ok _ _ _ _ Hlist1)) in Hd |- *.
  rewrite (bind_Ok _ _ _ _ _ (deallocate_node_ok _ _ _ Hb)) in Hd |- *.
  unfold bind at 1. unfold bind at 1 in Hd.
  unfold members at 1. unfold members at 1 in Hd. cbn [lists] in Hd |- *.
  rewrite (proj1 Hlist1) in Hd |- *.
  assert (deallocate_node (end_ l1)
            {| nodes := delete (begin_ l1) (nodes w1); lists := lists w1;
               na := na_deallocate (begin_ l1) (na w1); destroyed := destroyed w1 |}
          = Ok tt {| nodes := delete (end_ l1) (delete (begin_ l1) (nodes w1));
                     lists := lists w1;
                     na := na_deallocate (end_ l1)
                             (na_deallocate (begin_ l1) (na w1));
                     destroyed := destroyed w1 |}) as Hde.
  { erewrite deallocate_node_ok; [done|]. cbn [nodes].
    rewrite lookup_delete_ne by done. exact He. }
  rewrite (bind_Ok _ _ _ _ _ Hde) in Hd |- *. cbn [nodes lists na] in Hd |- *.
  eexists. split; [reflexivity|]. cbn [nodes lists na].
  split; [apply Hd|]. split; [|split].
  - apply map_eq. intros that. destruct (decide (that = this)) as [->|Hne].
    + by rewrite !lookup_delete_eq.
    + rewrite !lookup_delete_ne by done. by apply Hl1.
  - rewrite !dom_delete_L, Hfoot. unfold addrs.
    change (begin_ l1) with (begin_ l). change (end_ l1) with (end_ l).
    rewrite list_to_set_cons, list_to_set_app_L. simpl. set_solver.
  - intros a Ha.
    assert (a ≠ begin_ l) as Hab by (intros ->; apply Ha, begin_in_addrs).
    assert (a ≠ end_ l) as Hae by (intros ->; apply Ha, end_in_addrs).
    change (begin_ l1) with (begin_ l). change (end_ l1) with (end_ l).
    rewrite !lookup_delete_ne by done.
    destruct (decide (a ∈ dom (nodes w))) as [Hin|Hout]; [by apply Hn1|].
    apply not_elem_of_dom in Hout. rewrite Hout. apply not_elem_of_dom.
    rewrite Hfoot. apply not_elem_of_dom in Hout. set_solver.
Qed.

(** X11.  The destructor of a list returns when it is given one loop
    iteration per element: it gives every node of the list, the two
    sentinels included, back to the allocator, removes the list object,
    and leaves every other node and every other list object as it was. *)
Theorem destructor_frees_every_node_of_the_list fuel (w : World) this l live :
  alloc_ok w → is_list w this l live → (length live < fuel)%nat →
  ∃ w', dtor fuel this w = Ok tt w' ∧
        alloc_ok w' ∧
        lists w' = delete this (lists w) ∧
        dom (nodes w') = dom (nodes w) ∖ list_to_set (addrs l live) ∧
        (∀ a, a ∉ addrs l live → nodes w' !! a = nodes w !! a).
Proof. apply dtor_footprint. Qed.

(** *** Exceptions of the insertions *)

(** What a throwing insertion leaves behind: the list as it was, and
    either the whole state as it was (the allocation failed) or one more
    node, allocated for the copy and given back to nobody (the copy
    constructor of the element threw). *)
Definition unchanged_or_leaked (w w' : World) this
  (l : List (Alloc:=Alloc)) (live : list (Z * T)) (v : T) : Prop :=
  is_list w' this l live ∧ lists w' = lists w ∧
  ((na_allocate (na w) = None ∧ w' = w) ∨
   (copy_throws v = true ∧
    ∃ n, (n ∉ dom (nodes w)) ∧ n ≠ 0 ∧ (n ∉ addrs l live) ∧
         na_allocate (na w) = Some (n, na w') ∧
         nodes w' = <[n := mkNode None 0 0]> (nodes w))).

Lemma throw_unchanged_or_leaked {R} (m : M World R) (w w' : World) this l live v :
  alloc_ok w → is_list w this l live → grows v m →
  m w = Throw w' → evolved w w' this l live l live →
  unchanged_or_leaked w w' this l live v.
Proof.
  intros Hok Hlist Hg Hm Hev. specialize (Hg w). rewrite Hm in Hg.
  split; [apply Hev|].
  destruct Hg as [[Hnone ->]|(n & a' & Hn & Hc & ->)].
  - split; [done|]. by left.
  - split; [done|]. right. split; [done|]. exists n.
    destruct (na_allocate_fresh _ _ _ _ Hok Hn) as (Hn0 & Hfresh & _).
    split; [done|]. split; [done|]. split; [|done].
    intros Hin. apply Hfresh. eapply rep_dom; [apply Hlist|done].
Qed.

(** X12.  [insert], [push_back] and [push_front] give the strong
    guarantee for the list but not for the allocator: when one of them
    throws, the list has the elements, the links and the size it had; if
    the node allocation threw nothing at all has changed, and if the
    element's copy constructor threw, the node allocated for the copy is
    not given back. *)
Theorem throwing_insertion_keeps_the_list_and_may_leak_a_node
  (w : World) this l live1 live2 v :
  alloc_ok w → is_list w this l (live1 ++ live2) →
  (∀ w', insert this (Iter (pos_addr l live2)) v w = Throw w' →
         unchanged_or_leaked w w' this l (live1 ++ live2) v) ∧
  (∀ w', push_back this v w = Throw w' →
         unchanged_or_leaked w w' this l (live1 ++ live2) v) ∧
  (∀ w', push_front this v w = Throw w' →
         unchanged_or_leaked w w' this l (live1 ++ live2) v).
Proof.
  intros Hok Hlist. split; [|split]; intros w' Hthrow.
  - pose proof (insert_spec w this l live1 live2 v Hok Hlist) as Hs.
    rewrite Hthrow in Hs.
    by eapply throw_unchanged_or_leaked; [..|apply grows_insert| |].
  - pose proof (push_back_spec w this l _ v Hok Hlist) as Hs.
    rewrite Hthrow in Hs.
    by eapply throw_unchanged_or_leaked; [..|apply grows_push_back| |].
  - pose proof (push_front_spec w this l _ v Hok Hlist) as Hs.
    rewrite Hthrow in Hs.
    by eapply throw_unchanged_or_leaked; [..|apply grows_push_front| |].
Qed.

(** *** Order of the elements *)

(** X13.  When [push_back(v)] returns, [v] is the last element, the
    elements before it are the old ones in their order, and the size is one
    more; when [push_front(v)] returns, [v] is the first element.  A list
    that shares no node with this one is as it was. *)
Theorem push_back_appends_and_push_front_prepends
  (w : World) this l live v :
  alloc_ok w → is_list w this l live →
  (∀ w', push_back this v w = Ok tt w' →
     size this w' = Ok (Z.of_nat (length live) + 1) w' ∧
     traverse (S (S (length live))) this w' = Ok (live.*2 ++ [v]) w' ∧
     ∀ that l2 live2, that ≠ this → is_list w that l2 live2 →
                      addrs l2 live2 ## addrs l live → is_list w' that l2 live2) ∧
  (∀ w', push_front this v w = Ok tt w' →
     size this w' = Ok (Z.of_nat (length live) + 1) w' ∧
     traverse (S (S (length live))) this w' = Ok (v :: live.*2) w' ∧
     ∀ that l2 live2, that ≠ this → is_list w that l2 live2 →
                      addrs l2 live2 ## addrs l live → is_list w' that l2 live2).
Proof.
  intros Hok Hlist. split; intros w' Hpush.
  - pose proof (push_back_spec w this l live v Hok Hlist) as Hs.
    rewrite Hpush in Hs. destruct Hs as (n & _ & _ & _ & Hev).
    pose proof Hev as (Hlist' & _). split; [|split].
    + rewrite (size_ok _ _ _ _ Hlist'). f_equal. rewrite length_app. simpl. lia.
    + rewrite (traverse_ok _ _ _ _ (S (S (length live))) Hlist')
        by (rewrite length_app; simpl; lia).
      by rewrite fmap_app.
    + intros that l2 live2 Hne Hthat Hdisj.
      by destruct (evolved_other _ _ _ _ _ _ _ that l2 live2 Hev).
  - pose proof (push_front_spec w this l live v Hok Hlist) as Hs.
    rewrite Hpush in Hs. destruct Hs as (n & _ & _ & _ & Hev).
    pose proof Hev as (Hlist' & _). split; [|split].
    + rewrite (size_ok _ _ _ _ Hlist'). f_equal. simpl. lia.
    + by rewrite (traverse_ok _ _ _ _ (S (S (length live))) Hlist')
        by (simpl; lia).
    + intros that l2 live2 Hne Hthat Hdisj.
      by destruct (evolved_other _ _ _ _ _ _ _ that l2 live2 Hev).
Qed.

(** X14.  [erase(position)] at an element returns: the element is
    removed and its node given back, the elements before and after it keep
    their order, the size is one less, and the iterator returned designates
    the element that followed the erased one ([end()] when it was the
    last): the traversal from it to [end()] yields the elements after the
    erased one. *)
Theorem erase_removes_the_element_and_returns_its_successor
  (w : World) this l live1 p x live2 :
  alloc_ok w → is_list w this l (live1 ++ (p, x) :: live2) →
  ∃ it w',
    erase this (Iter p) w = Ok it w' ∧
    ptr_ it = pos_addr l live2 ∧
    is_list w' this (resized l (size_ l - 1)) (live1 ++ live2) ∧
    nodes w' !! p = None ∧
    size this w' = Ok (Z.of_nat (length (live1 ++ (p, x) :: live2)) - 1) w' ∧
    traverse (length (live1 ++ (p, x) :: live2)) this w'
      = Ok (live1.*2 ++ live2.*2) w' ∧
    forward (S (length live2)) it (Iter (end_ l)) w' = Ok (live2.*2) w'.
Proof.
  intros Hok Hlist.
  destruct (erase_spec w this l live1 p x live2 Hok Hlist) as (w' & He & Hev).
  exists (Iter (pos_addr l live2)), w'. split; [done|]. split; [done|].
  pose proof Hev as (Hlist' & _). split; [done|].
  pose proof (frees_erase this (Iter p) w) as Hf. rewrite He in Hf.
  destruct Hf as [Hd _]. cbn [ptr_] in Hd.
  split; [|split; [|split]].
  - apply not_elem_of_dom. rewrite Hd. set_solver.
  - rewrite (size_ok _ _ _ _ Hlist'). f_equal. rewrite !length_app. simpl. lia.
  - rewrite (traverse_ok _ _ _ _ _ Hlist')
      by (rewrite !length_app; simpl; lia).
    by rewrite fmap_app.
  - apply (forward_ok w' this _ live1 live2 _ Hlist'). lia.
Qed.

(** *** Iterators *)

(** X15.  On a well-formed list [++] and [--] are inverse to each other:
    from the position of an element, [++] then [--] comes back to it; from
    any position but [begin()], [end()] included, [--] then [++] comes back
    to it.  At the two ends the iterators leave the range without a check:
    [--begin()] designates the head sentinel and [++end()] is the null
    iterator. *)
Theorem increment_and_decrement_are_inverse (w : World) this l live1 live2 :
  is_list w this l (live1 ++ live2) →
  (∀ c rest, live2 = c :: rest →
     (it <- incr (Iter c.1) ;; decr it) w = Ok (Iter c.1) w) ∧
  (live1 ≠ [] →
     (it <- decr (Iter (pos_addr l live2)) ;; incr it) w
       = Ok (Iter (pos_addr l live2)) w) ∧
  (live1 = [] → decr (Iter (pos_addr l live2)) w = Ok (Iter (begin_ l)) w) ∧
  incr (Iter (end_ l)) w = Ok (Iter 0) w.
Proof.
  intros Hlist. split; [|split; [|split]].
  - intros c rest ->.
    rewrite (bind_Ok _ _ _ _ _ (incr_ok w this l live1 c rest Hlist)).
    replace (live1 ++ c :: rest) with ((live1 ++ [c]) ++ rest) in Hlist
      by (by rewrite <- (assoc_L (++))).
    rewrite (decr_ok w this l (live1 ++ [c]) rest Hlist).
    unfold back_addr. by rewrite last_snoc.
  - intros Hne.
    destruct live1 as [|c0 init0 _] using rev_ind; [done|].
    rewrite (bind_Ok _ _ _ _ _ (decr_ok w this l _ live2 Hlist)).
    unfold back_addr. rewrite last_snoc.
    rewrite <- (assoc_L (++)) in Hlist.
    apply (incr_ok w this l init0 c0 live2 Hlist).
  - intros ->. apply (decr_ok w this l [] live2 Hlist).
  - unfold incr, get_next, load, bind, ret. cbn [ptr_].
    by rewrite (rep_end _ _ _ (proj2 Hlist)).
Qed.

(** X16.  On every well-formed list the traversal from [rbegin()] to
    [rend()] yields the elements of the traversal from [begin()] to
    [end()] in the reverse order, and [size()] is their number. *)
Theorem reverse_traversal_is_the_forward_one_reversed
  (w : World) this l live fuel :
  is_list w this l live → (length live < fuel)%nat →
  ∃ vs, traverse fuel this w = Ok vs w ∧
        rtraverse fuel this w = Ok (rev vs) w ∧
        size this w = Ok (Z.of_nat (length vs)) w.
Proof.
  intros Hlist Hfuel. exists (live.*2).
  split; [by apply (traverse_ok _ _ l)|].
  split; [by apply (rtraverse_ok _ _ l)|].
  rewrite length_fmap. by apply (size_ok _ _ l).
Qed.

(** *** Constructors *)

Lemma ctor_Throw (w : World) this alloc w' :
  lists w !! this = None → ctor this alloc w = Throw w' →
  (na_allocate (na w) = None ∧ w' = w) ∨
  (∃ b a1, na_allocate (na w) = Some (b, a1) ∧ na_allocate a1 = None ∧
           w' = {| nodes := <[b := mkNode None 0 0]> (nodes w);
                   lists := lists w; na := a1; destroyed := destroyed w |}).
Proof.
  intros Hnone. unfold ctor, constructing. rewrite Hnone.
  unfold bind at 1. unfold allocate_node at 1. cbn [na nodes lists].
  destruct (na_allocate (na w)) as [[b a1]|] eqn:Hb.
  2:{ cbn [na nodes lists]. rewrite delete_insert_id by done.
      intros [= <-]. left. split; [done|]. by destruct w. }
  unfold bind at 1. unfold allocate_node at 1. cbn [na nodes lists].
  destruct (na_allocate a1) as [[e a2]|] eqn:He.
  2:{ cbn [na nodes lists]. rewrite delete_insert_id by done.
      intros [= <-]. right. by exists b, a1. }
  match goal with
  | |- context [bind ?m ?k ?w2] =>
      assert (quiet (bind m k)) as Hq by quiet;
      destruct (bind m k w2) as [r w3|w3| |] eqn:E; try done
  end.
  by apply (quiet_Throw _ Hq) in E.
Qed.

(** X17.  When the constructor returns, the list is empty: [size()] is
    0, [begin()] equals [end()], both traversals yield nothing, the
    allocator member is [select_on_container_copy_construction(alloc)],
    and nothing that existed before has changed.  When it throws no list
    object exists; if the allocation of the second sentinel threw, the
    first sentinel is not given back. *)
Theorem constructor_builds_an_empty_list (w : World) this alloc :
  alloc_ok w → lists w !! this = None →
  match ctor this alloc w with
  | Ok _ w' =>
      size this w' = Ok 0 w' ∧ empty this w' = Ok true w' ∧
      traverse 1 this w' = Ok [] w' ∧ rtraverse 1 this w' = Ok [] w' ∧
      get_allocator this w'
        = Ok (select_on_container_copy_construction alloc) w' ∧
      (∀ that, that ≠ this → lists w' !! that = lists w !! that) ∧
      (∀ a, a ∈ dom (nodes w) → nodes w' !! a = nodes w !! a)
  | Throw w' =>
      lists w' = lists w ∧
      ((na_allocate (na w) = None ∧ w' = w) ∨
       (∃ b a1, na_allocate (na w) = Some (b, a1) ∧ na_allocate a1 = None ∧
                (b ∉ dom (nodes w)) ∧
                nodes w' = <[b := mkNode None 0 0]> (nodes w) ∧ na w' = a1))
  | Undefined | OutOfFuel => False
  end.
Proof.
  intros Hok Hnone.
  pose proof (ctor_spec w this alloc Hok Hnone) as Hs.
  pose proof (ctor_Throw w this alloc) as Ht.
  destruct (ctor this alloc w) as [[] w'|w'| |]; [| |done..].
  - destruct Hs as (b & e & _ & _ & Hlist & _ & Hl & Hn).
    split; [by apply (size_ok _ _ _ _ Hlist)|].
    split; [by rewrite (empty_ok _ _ _ _ Hlist)|].
    split; [by apply (traverse_ok _ _ _ _ 1 Hlist); simpl; lia|].
    split; [by apply (rtraverse_ok _ _ _ _ 1 Hlist); simpl; lia|].
    split; [|done]. unfold get_allocator.
    by rewrite (bind_Ok _ _ _ _ _ (members_ok _ _ _ _ Hlist)).
  - destruct Hs as (_ & Hl & _). split; [done|].
    destruct (Ht w' Hnone eq_refl) as [?|(b & a1 & Hb & He & ->)]; [by left|].
    right. exists b, a1. split; [done|]. split; [done|]. split; [|done].
    by destruct (na_allocate_fresh _ _ _ _ Hok Hb) as (_ & ? & _).
Qed.

Lemma same_object_resized (l : List (Alloc:=Alloc)) n : same_object l (resized l n).
Proof. done. Qed.



(** *** Copies and the allocator member *)


(** X20.  Copy assignment of a list to itself returns at once and
    changes nothing.  Between two distinct lists, whether it returns or
    throws, the allocator member of the left-hand side is the right-hand
    side's when [propagate_on_container_copy_assignment] holds and its own
    old one otherwise, and the allocator member of the right-hand side is
    unchanged. *)
Theorem assignment_propagates_the_allocator_by_the_trait
  fuel (w : World) this rhs l live lr live_r :
  alloc_ok w → this ≠ rhs →
  is_list w this l live → is_list w rhs lr live_r →
  addrs lr live_r ## addrs l live →
  (length live < fuel)%nat → (length live_r < fuel)%nat →
  operator_assign fuel this this w = Ok tt w ∧
  match operator_assign fuel this rhs w with
  | Ok _ w' | Throw w' =>
      get_allocator this w'
        = Ok (if propagate_on_container_copy_assignment
              then allocator_ lr else allocator_ l) w' ∧
      get_allocator rhs w' = Ok (allocator_ lr) w'
  | Undefined | OutOfFuel => False
  end.
Proof.
  intros Hok Hne Hthis Hrhs Hdisj Hfuel Hfuel_r.
  split; [unfold operator_assign; by rewrite bool_decide_true|].
  unfold operator_assign. rewrite bool_decide_false by done.
  pose proof (pop_all_spec fuel w this l live Hok Hthis) as Hpop.
  unfold bind at 1.
  destruct (pop_all fuel this w) as [[] w1|w1| |]; [|done|done|lia].
  pose proof Hpop as (Hthis1 & Hok1 & _).
  destruct (evolved_other _ _ _ _ _ _ _ rhs lr live_r Hpop) as [Hrhs1 Hdisj1];
    [done..|].
  set (a2 := if propagate_on_container_copy_assignment
             then allocator_ lr else allocator_ l).
  set (l2 := mkList a2 0 (begin_ l) (end_ l)).
  assert (∃ w2,
    (if propagate_on_container_copy_assignment
     then (r <- members rhs ;; set_allocator_ this (allocator_ r))
     else ret tt) w1 = Ok tt w2 ∧
    alloc_ok w2 ∧ is_list w2 this l2 [] ∧ is_list w2 rhs lr live_r)
    as (w2 & Hprop & Hok2 & Hthis2 & Hrhs2).
  { subst l2 a2. destruct propagate_on_container_copy_assignment.
    - eexists. split; [|split; [|split]].
      + rewrite (bind_Ok _ _ _ _ _ (members_ok _ _ _ _ Hrhs1)).
        unfold set_allocator_.
        rewrite (bind_Ok _ _ _ _ _ (members_ok _ _ _ _ Hthis1)).
        unfold set_members. by rewrite (proj1 Hthis1).
      + done.
      + split; cbn [lists nodes]; [by rewrite lookup_insert_eq|].
        by destruct Hthis1 as [_ []].
      + destruct Hrhs1 as [Hl Hr]. split; cbn [lists nodes]; [|done].
        by rewrite lookup_insert_ne.
    - exists w1. split; [done|]. split; [done|]. split; [|done].
      by destruct l. }
  rewrite (bind_Ok _ _ _ _ _ Hprop).
  pose proof (copy__spec fuel w2 this rhs l2 lr live_r Hok2 Hne Hthis2 Hrhs2 Hdisj1)
    as Hc.
  assert (∀ (w' : World) l' copied,
            evolved w2 w' this l2 [] l' copied → same_object l2 l' →
            get_allocator this w' = Ok a2 w' ∧
            get_allocator rhs w' = Ok (allocator_ lr) w') as Hfinal.
  { intros w' l' copied Hev (_ & _ & Ha).
    pose proof Hev as (Hthis' & _).
    destruct (evolved_other _ _ _ _ _ _ _ rhs lr live_r Hev) as [Hrhs' _];
      [done..|].
    unfold get_allocator.
    rewrite (bind_Ok _ _ _ _ _ (members_ok _ _ _ _ Hthis')).
    rewrite (bind_Ok _ _ _ _ _ (members_ok _ _ _ _ Hrhs')).
    unfold ret. by rewrite Ha. }
  destruct (copy_ fuel this rhs w2) as [[] w'|w'| |]; [| |done|lia].
  - destruct Hc as (l' & copied & Hev & Hsame & _). by eapply Hfinal.
  - destruct Hc as (l' & copied & k & _ & Hev & Hsame & _). by eapply Hfinal.
Qed.

(** *** The list of default-constructed elements *)

Context `{DefaultConstructible T}.




End Footprint.

Section Lifetime.
Context {T : Type} `{CopyConstructible T}.
Context {A : Type} `{NodeAllocator A}.
Context {Alloc : Type} `{AllocatorTraits Alloc}.

Local Abbreviation World := (World (T:=T) (A:=A) (Alloc:=Alloc)).

(** *** Iterators to the other elements *)

(** X22.  [insert] and [erase] do not invalidate the iterators to the
    other elements: an element that was in the list before the call and
    is not the erased one is at the same node afterwards, so an iterator
    to it still designates an element of the list and dereferences to the
    same value. *)
Theorem iterators_to_other_elements_stay_valid
  (w : World) this l live1 live2 q y :
  alloc_ok w → (q, y) ∈ live1 ++ live2 →
  (∀ v it w',
     is_list w this l (live1 ++ live2) →
     insert this (Iter (pos_addr l live2)) v w = Ok it w' →
     deref (Iter q) w' = Ok y w' ∧
     ∃ l' before after, is_list w' this l' (before ++ (q, y) :: after)) ∧
  (∀ p x it w',
     is_list w this l (live1 ++ (p, x) :: live2) →
     erase this (Iter p) w = Ok it w' →
     deref (Iter q) w' = Ok y w' ∧
     ∃ l' before after, is_list w' this l' (before ++ (q, y) :: after)).
Proof.
  intros Hok Hq. split.
  - intros v it w' Hlist Hins.
    pose proof (insert_spec w this l live1 live2 v Hok Hlist) as Hs.
    rewrite Hins in Hs. destruct Hs as (n & _ & _ & _ & (Hlist' & _) & _).
    assert ((q, y) ∈ live1 ++ (n, v) :: live2) as Hq'.
    { apply elem_of_app in Hq as [Hq|Hq]; apply elem_of_app; [by left|].
      right. by right. }
    apply list_elem_of_split in Hq' as (before & after & Hsplit).
    rewrite Hsplit in Hlist'.
    split; [by eapply deref_ok|]. by eexists _, before, after.
  - intros p x it w' Hlist Her.
    destruct (erase_spec w this l live1 p x live2 Hok Hlist) as (w1 & He & Hev).
    rewrite Her in He. injection He as _ <-. destruct Hev as (Hlist' & _).
    apply list_elem_of_split in Hq as (before & after & Hsplit).
    rewrite Hsplit in Hlist'.
    split; [by eapply deref_ok|]. by eexists _, before, after.
Qed.

(** *** The nodes a list holds over its lifetime *)

(** The nodes in memory after a call are those from before it, without
    the nodes the list had and with the nodes it has. *)
Definition footprint_moved (w w' : World)
  (l : List (Alloc:=Alloc)) (live : list (Z * T))
  (l' : List (Alloc:=Alloc)) (live' : list (Z * T)) : Prop :=
  dom (nodes w') =
    (dom (nodes w) ∖ list_to_set (addrs l live)) ∪ list_to_set (addrs l' live').

Lemma addrs_in_dom (w : World) this l live :
  is_list w this l live →
  (list_to_set (addrs l live) : gset Z) ⊆ dom (nodes w).
Proof.
  intros Hlist a Ha. apply elem_of_list_to_set in Ha.
  eapply rep_dom; [apply Hlist|done].
Qed.

Lemma footprint_moved_refl (w : World) this l live :
  is_list w this l live → footprint_moved w w l live l live.
Proof.
  intros Hlist. unfold footprint_moved.
  pose proof (addrs_in_dom _ _ _ _ Hlist) as Hsub.
  apply set_eq. intros a. rewrite elem_of_union, elem_of_difference.
  split; [|set_solver]. intros Ha.
  destruct (decide (a ∈ (list_to_set (addrs l live) : gset Z))); auto.
Qed.

Lemma footprint_moved_trans (w w1 w2 : World) this l live l1 live1 l2 live2 :
  evolved w w1 this l live l1 live1 →
  footprint_moved w w1 l live l1 live1 →
  footprint_moved w1 w2 l1 live1 l2 live2 →
  footprint_moved w w2 l live l2 live2.
Proof.
  intros (_ & _ & _ & Hnew) H01 H12. unfold footprint_moved in *.
  rewrite H12, H01. apply set_eq. intros a.
  rewrite !elem_of_union, !elem_of_difference, !elem_of_union,
    !elem_of_difference, !elem_of_list_to_set.
  split.
  - intros [[[[Ha Hn0]|Ha1] Hn1]|Ha2]; [by left|done|by right].
  - intros [[Ha Hn0]|Ha2]; [|by right]. left. split; [by left|].
    intros Ha1. by destruct (Hnew _ Ha1).
Qed.

Lemma addrs_with_inserted (l l' : List (Alloc:=Alloc)) (live1 live2 : list (Z * T)) n v :
  begin_ l' = begin_ l → end_ l' = end_ l →
  (list_to_set (addrs l' (live1 ++ (n, v) :: live2)) : gset Z)
  = {[n]} ∪ list_to_set (addrs l (live1 ++ live2)).
Proof.
  intros Hb He. apply set_eq. intros a.
  rewrite elem_of_union, !elem_of_list_to_set, elem_of_singleton.
  unfold addrs. rewrite Hb, He, !fmap_app, fmap_cons.
  repeat (first [rewrite elem_of_cons | rewrite elem_of_app]).
  cbn [fst]. rewrite elem_of_nil. naive_solver.
Qed.

(** An insertion on a list whose elements copy without throwing. *)
Lemma insert_footprint (w : World) this l live1 live2 v :
  (∀ x : T, copy_throws x = false) →
  alloc_ok w → is_list w this l (live1 ++ live2) →
  match insert this (Iter (pos_addr l live2)) v w with
  | Ok _ w' =>
      ∃ l' live', evolved w w' this l (live1 ++ live2) l' live' ∧
                  footprint_moved w w' l (live1 ++ live2) l' live'
  | Throw w' => w' = w
  | Undefined | OutOfFuel => False
  end.
Proof.
  intros Hcopy Hok Hlist.
  pose proof (insert_spec w this l live1 live2 v Hok Hlist) as Hs.
  pose proof (grows_insert this (Iter (pos_addr l live2)) v w) as Hg.
  destruct (insert this (Iter (pos_addr l live2)) v w) as [it w'|w'| |];
    [| |done..].
  - destruct Hs as (n & _ & Hn & _ & Hev & _).
    destruct Hg as (n' & _ & _ & Hd).
    pose proof Hev as (Hlist' & _).
    assert (n' = n) as ->.
    { assert (n ∈ dom (nodes w')) as Hin.
      { eapply rep_dom; [apply Hlist'|]. unfold addrs. right.
        rewrite fmap_app, fmap_cons. apply elem_of_app. left.
        apply elem_of_app. right. by left. }
      rewrite Hd in Hin. set_solver. }
    eexists _, _. split; [exact Hev|]. unfold footprint_moved.
    rewrite (addrs_with_inserted l) by done. rewrite Hd.
    pose proof (addrs_in_dom _ _ _ _ Hlist) as Hsub.
    apply set_eq. intros a.
    rewrite !elem_of_union, elem_of_difference, elem_of_singleton.
    split; [|set_solver]. intros [->|Ha]; [by right; left|].
    destruct (decide (a ∈ (list_to_set (addrs l (live1 ++ live2)) : gset Z))); auto.
  - destruct Hg as [[_ ->]|(n & a' & _ & Hc & _)]; [done|].
    by rewrite Hcopy in Hc.
Qed.

Lemma erase_footprint (w : World) this l live1 p x live2 :
  alloc_ok w → is_list w this l (live1 ++ (p, x) :: live2) →
  ∃ w' l' live',
    erase this (Iter p) w = Ok (Iter (pos_addr l live2)) w' ∧
    evolved w w' this l (live1 ++ (p, x) :: live2) l' live' ∧
    footprint_moved w w' l (live1 ++ (p, x) :: live2) l' live'.
Proof.
  intros Hok Hlist.
  destruct (erase_spec w this l live1 p x live2 Hok Hlist) as (w' & He & Hev).
  pose proof (frees_erase this (Iter p) w) as Hf. rewrite He in Hf.
  destruct Hf as [Hd _]. cbn [ptr_] in Hd.
  exists w'. eexists _, _. split; [exact He|]. split; [exact Hev|].
  unfold footprint_moved.
  rewrite (addrs_with_inserted (resized l (size_ l - 1)) l live1 live2 p x) by done.
  rewrite Hd.
  pose proof Hev as (Hlist' & _).
  assert (p ∉ (list_to_set (addrs (resized l (size_ l - 1)) (live1 ++ live2)) : gset Z))
    as Hp.
  { rewrite elem_of_list_to_set. intros Hin.
    pose proof (rep_nodup _ _ _ (proj2 Hlist)) as Hnd.
    unfold addrs in Hnd, Hin. cbn [begin_ end_ resized] in Hin.
    rewrite fmap_app, fmap_cons in Hnd. rewrite fmap_app in Hin.
    apply NoDup_cons in Hnd as [Hb Hnd].
    rewrite <- (assoc_L (++)) in Hnd.
    apply NoDup_app in Hnd as (_ & H12 & Hnd2).
    simpl in Hnd2. apply NoDup_cons in Hnd2 as [Hp2 _].
    apply elem_of_cons in Hin as [->|Hin].
    - apply Hb. apply elem_of_app. left. apply elem_of_app. right. by left.
    - rewrite <- (assoc_L (++)) in Hin.
      apply elem_of_app in Hin as [Hin|Hin]; [|done].
      apply (H12 _ Hin). by left. }
  assert ((list_to_set (addrs (resized l (size_ l - 1)) (live1 ++ live2)) : gset Z)
          ⊆ dom (nodes w)) as Hsub.
  { intros a Ha. apply elem_of_list_to_set in Ha.
    eapply rep_dom; [apply Hlist|]. destruct Hev as (_ & _ & _ & Hnew).
    destruct (Hnew _ Ha) as [?|Hout]; [done|].
    exfalso. apply Hout. clear Hout.
    assert (a ∈ dom (nodes w')) as Hin' by (eapply rep_dom; [apply Hlist'|done]).
    rewrite Hd in Hin'. set_solver. }
  apply set_eq. intros a.
  rewrite !elem_of_union, !elem_of_difference, !elem_of_union, elem_of_singleton.
  split.
  - intros [Ha Hne].
    destruct (decide (a ∈ (list_to_set (addrs (resized l (size_ l - 1))
                                           (live1 ++ live2)) : gset Z))); auto.
    left. split; [done|]. intros [?|?]; done.
  - intros [[Ha Hn]|Ha]; [split; [done|]; intros ->; apply Hn; by left|].
    split; [by apply Hsub|]. intros ->. done.
Qed.

Lemma counted_insertion_footprint (w : World) t this l live1 live2
  (r : outcome World list_iterator) :
  is_list w this l (live1 ++ live2) → alloc_ok w →
  match r with
  | Ok _ w' =>
      ∃ l' live', evolved w w' this l (live1 ++ live2) l' live' ∧
                  footprint_moved w w' l (live1 ++ live2) l' live'
  | Throw w' => w' = w
  | Undefined | OutOfFuel => False
  end →
  ∀ w' t',
    match r with
    | Ok _ w' => Some (w', mkTally (S (inserted t)) (removed t))
    | Throw w' => Some (w', t)
    | Undefined | OutOfFuel => None
    end = Some (w', t') →
    ∃ l' live', evolved w w' this l (live1 ++ live2) l' live' ∧
                footprint_moved w w' l (live1 ++ live2) l' live'.
Proof.
  intros Hlist Hok Hs w' t' Hc. destruct r as [it w1|w1| |]; try done.
  - by injection Hc as <- <-.
  - injection Hc as <- <-. subst w1. exists l, (live1 ++ live2).
    split; [by apply evolved_refl|by eapply footprint_moved_refl].
Qed.

Lemma counted_footprint (w : World) t o w' t' this l live :
  (∀ x : T, copy_throws x = false) →
  alloc_ok w → is_list w this l live →
  counted this o (w, t) = Some (w', t') →
  ∃ l' live', evolved w w' this l live l' live' ∧
              footprint_moved w w' l live l' live'.
Proof.
  intros Hcopy Hok Hlist Hc. unfold counted in Hc.
  destruct o as [v|v|k v| | |k]; cbn [perform] in Hc.
  - unfold push_front in Hc.
    rewrite (bind_Ok _ _ _ _ _ (begin_ok _ _ _ _ Hlist)) in Hc.
    pose proof (insert_footprint w this l [] live v Hcopy Hok Hlist) as Hs.
    cbn [app] in Hs. unfold bind, ret in Hc.
    apply (counted_insertion_footprint w t this l [] live _ Hlist Hok Hs w' t').
    by destruct (insert this (Iter (pos_addr l live)) v w).
  - unfold push_back in Hc.
    rewrite (bind_Ok _ _ _ _ _ (end_ok _ _ _ _ Hlist)) in Hc.
    rewrite <- (app_nil_r live) in Hlist.
    pose proof (insert_footprint w this l live [] v Hcopy Hok Hlist) as Hs.
    cbn [pos_addr] in Hs. unfold bind, ret in Hc.
    rewrite <- (app_nil_r live).
    apply (counted_insertion_footprint w t this l live [] _ Hlist Hok Hs w' t').
    by destruct (insert this (Iter (end_ l)) v w).
  - rewrite (bind_Ok _ _ _ _ _ (begin_ok _ _ _ _ Hlist)) in Hc.
    unfold bind at 1 in Hc.
    rewrite (advance_ok w this l [] live k Hlist) in Hc.
    destruct (decide (k ≤ length live)%nat); [|done].
    rewrite <- (take_drop k live) in Hlist.
    pose proof (insert_footprint w this l (take k live) (drop k live) v
                  Hcopy Hok Hlist) as Hs.
    unfold bind, ret in Hc.
    rewrite <- (take_drop k live).
    apply (counted_insertion_footprint w t this l _ _ _ Hlist Hok Hs w' t').
    by destruct (insert this (Iter (pos_addr l (drop k live))) v w).
  - rewrite (empty_ok _ _ _ _ Hlist) in Hc.
    destruct live as [|[p x] live].
    + rewrite (pop_front_empty _ _ _ Hlist) in Hc. injection Hc as <- _.
      exists l, []. split; [by apply evolved_refl|by eapply footprint_moved_refl].
    + destruct (erase_footprint w this l [] p x live Hok Hlist)
        as (w1 & l' & live' & He & Hev & Hfoot).
      rewrite (pop_front_unfold _ _ _ _ _ _ Hlist) in Hc.
      unfold bind, ret in Hc. rewrite He in Hc. injection Hc as <- _.
      by exists l', live'.
  - rewrite (empty_ok _ _ _ _ Hlist) in Hc.
    destruct live as [|[p x] live _] using rev_ind.
    + rewrite (pop_back_empty _ _ _ Hlist) in Hc. injection Hc as <- _.
      exists l, []. split; [by apply evolved_refl|by eapply footprint_moved_refl].
    + rewrite (pop_back_unfold _ _ _ _ _ _ Hlist) in Hc.
      destruct (erase_footprint w this l live p x [] Hok Hlist)
        as (w1 & l' & live' & He & Hev & Hfoot).
      unfold bind, ret in Hc. rewrite He in Hc. injection Hc as <- _.
      by exists l', live'.
  - rewrite (bind_Ok _ _ _ _ _ (begin_ok _ _ _ _ Hlist)) in Hc.
    unfold bind at 1 in Hc.
    rewrite (advance_ok w this l [] live k Hlist) in Hc.
    destruct (decide (k ≤ length live)%nat); [|done].
    rewrite (bind_Ok _ _ _ _ _ (end_ok _ _ _ _ Hlist)) in Hc.
    unfold iter_eqb in Hc. cbn [ptr_] in Hc.
    rewrite <- (take_drop k live) in Hlist.
    destruct (drop k live) as [|[p x] rest] eqn:Hdrop.
    + cbn [pos_addr] in Hc. by rewrite Z.eqb_refl in Hc.
    + cbn [pos_addr fst] in Hc.
      assert (p ≠ end_ l) as Hpe
        by apply (pos_addr_not_end _ _ _ (p, x) _ (proj2 Hlist)).
      apply Z.eqb_neq in Hpe. rewrite Hpe in Hc.
      destruct (erase_footprint w this l _ p x rest Hok Hlist)
        as (w1 & l' & live' & He & Hev & Hfoot).
      unfold bind, ret in Hc. rewrite He in Hc. injection Hc as <- _.
      rewrite <- (take_drop k live), Hdrop. by exists l', live'.
Qed.

Lemma run_footprint this os (w : World) t w' t' l live :
  (∀ x : T, copy_throws x = false) →
  alloc_ok w → is_list w this l live →
  run this os (w, t) = Some (w', t') →
  ∃ l' live', evolved w w' this l live l' live' ∧
              footprint_moved w w' l live l' live'.
Proof.
  intros Hcopy. revert w t l live.
  induction os as [|o os IH]; intros w t l live Hok Hlist Hrun.
  - simpl in Hrun. injection Hrun as <- <-. exists l, live.
    split; [by apply evolved_refl|by eapply footprint_moved_refl].
  - cbn [run] in Hrun.
    destruct (counted this o (w, t)) as [[w1 t1]|] eqn:Hc; [|done].
    destruct (counted_footprint _ _ _ _ _ _ _ _ Hcopy Hok Hlist Hc)
      as (l1 & live1 & Hev1 & Hf1).
    pose proof Hev1 as (Hlist1 & Hok1 & _).
    destruct (IH _ _ _ _ Hok1 Hlist1 Hrun) as (l2 & live2 & Hev2 & Hf2).
    exists l2, live2. split; [by eapply evolved_trans|].
    by eapply footprint_moved_trans.
Qed.

Ltac quiet_steps :=
  unfold set_next, set_prev, set_begin_, set_end_, get_next, get_prev;
  repeat (first
    [ apply quiet_bind; [|intros ?] | apply quiet_store | apply quiet_load
    | apply quiet_members | apply quiet_set_members | apply quiet_ret ]).

(** The constructor allocates the two sentinels and nothing else. *)
Lemma ctor_footprint (w : World) this alloc w' :
  alloc_ok w → ctor this alloc w = Ok tt w' →
  ∃ l', is_list w' this l' [] ∧ alloc_ok w' ∧
        (∀ that, that ≠ this → lists w' !! that = lists w !! that) ∧
        lists w !! this = None ∧
        (∀ a, a ∈ dom (nodes w) → nodes w' !! a = nodes w !! a) ∧
        (∀ a, a ∈ addrs (T:=T) l' [] → a ∉ dom (nodes w)) ∧
        dom (nodes w') = dom (nodes w) ∪ list_to_set (addrs (T:=T) l' []).
Proof.
  intros Hok Hctor.
  pose proof (ctor_Ok_fresh _ _ _ _ Hctor) as Hnone.
  pose proof (ctor_spec w this alloc Hok Hnone) as Hs. rewrite Hctor in Hs.
  destruct Hs as (b' & e' & Hb' & He' & Hlist & Hok' & Hl & Hn).
  eexists. split; [exact Hlist|]. split; [done|]. split; [done|].
  split; [done|]. split; [done|].
  assert (∀ a, a ∈ addrs (T:=T)
                 (mkList (select_on_container_copy_construction alloc) 0 b' e') []
               → a ∉ dom (nodes w)) as Hfresh.
  { intros a Ha. apply elem_of_cons in Ha as [->|Ha]; [done|].
    apply list_elem_of_singleton in Ha. by subst. }
  split; [done|].
  pose proof (rep_nodup _ _ _ (proj2 Hlist)) as Hnd.
  apply NoDup_cons in Hnd as [Hne _].
  assert (b' ≠ e') as Hbe by (intros ->; apply Hne; by left).
  pose proof (rep_dom _ _ _ b' (proj2 Hlist) ltac:(by left)) as Hbin.
  pose proof (rep_dom _ _ _ e' (proj2 Hlist) ltac:(right; by left)) as Hein.
  clear Hlist Hok' Hl Hn Hfresh Hne.
  unfold ctor, constructing in Hctor. rewrite Hnone in Hctor.
  unfold bind at 1 in Hctor. unfold allocate_node at 1 in Hctor.
  cbn [na nodes lists] in Hctor.
  destruct (na_allocate (na w)) as [[b a1]|]; [|done].
  unfold bind at 1 in Hctor. unfold allocate_node at 1 in Hctor.
  cbn [na nodes lists] in Hctor.
  destruct (na_allocate a1) as [[e a2]|]; [|done].
  match type of Hctor with
  | context [bind ?m ?k ?w2] =>
      assert (quiet (bind m k)) as Hq by quiet_steps;
      destruct (bind m k w2) as [r w3|w3| |] eqn:E; try done
  end.
  injection Hctor as _ <-.
  apply (quiet_Ok _ Hq) in E as [Hd _]. cbn [nodes] in Hd.
  rewrite !dom_insert_L in Hd. rewrite Hd in Hbin, Hein |- *.
  unfold addrs. simpl. set_solver.
Qed.

(** X23.  For an element type whose copy constructor does not throw, a
    list that is constructed, used by any run of [push_front], [push_back],
    [insert], [pop_front], [pop_back] and [erase] calls none of which is
    undefined, and then destroyed, leaves the memory as it found it: the
    destructor returns, every node the list allocated has been given back,
    and every other node and every list object is as before the
    construction. *)
Theorem list_lifetime_leaves_memory_as_found
  fuel (w0 : World) this alloc w1 os w2 t2 :
  (∀ x : T, copy_throws x = false) →
  alloc_ok w0 →
  ctor this alloc w0 = Ok tt w1 →
  run this os (w1, mkTally 0 0) = Some (w2, t2) →
  (inserted t2 < fuel)%nat →
  ∃ w3, dtor fuel this w2 = Ok tt w3 ∧
        nodes w3 = nodes w0 ∧ lists w3 = lists w0.
Proof.
  intros Hcopy Hok0 Hctor Hrun Hfuel.
  destruct (ctor_footprint _ _ _ _ Hok0 Hctor)
    as (l1 & Hlist1 & Hok1 & Hl1 & Hnone & Hn1 & Hfresh1 & Hd1).
  destruct (run_footprint this os w1 _ w2 t2 l1 [] Hcopy Hok1 Hlist1 Hrun)
    as (l2 & live2 & Hev & Hfoot).
  destruct (run_tracked this os w1 _ w2 t2 l1 [] Hok1 Hlist1 Hrun)
    as (l2' & live2' & (Hlist2' & _) & _ & _ & Hbal).
  pose proof Hev as (Hlist2 & Hok2 & [Hl2 Hn2] & Hnew).
  assert (length live2 < fuel)%nat as Hlen.
  { destruct Hlist2 as [Hl Hr], Hlist2' as [Hl' Hr'].
    rewrite Hl in Hl'. injection Hl' as <-.
    pose proof (rep_size _ _ _ Hr) as Hs. pose proof (rep_size _ _ _ Hr') as Hs'.
    unfold balance in Hbal. simpl in Hbal. lia. }
  destruct (dtor_footprint fuel w2 this l2 live2 Hok2 Hlist2 Hlen)
    as (w3 & Hd & _ & Hl3 & Hd3 & Hn3).
  exists w3. split; [done|].
  assert (∀ a, a ∈ dom (nodes w0) → a ∉ addrs l2 live2) as Hout2.
  { intros a Ha Ha2. destruct (Hnew _ Ha2) as [Ha1|Ha1].
    - by apply (Hfresh1 _ Ha1).
    - apply Ha1. rewrite Hd1. set_solver. }
  split.
  - apply map_eq. intros a.
    destruct (decide (a ∈ dom (nodes w0))) as [Hin|Hnin].
    + rewrite Hn3 by (by apply Hout2).
      rewrite Hn2; [by apply Hn1|rewrite Hd1; set_solver|].
      intros Ha1. by apply (Hfresh1 _ Ha1).
    + rewrite (proj1 (not_elem_of_dom _ _) Hnin).
      apply not_elem_of_dom. rewrite Hd3, Hfoot, Hd1.
      rewrite !elem_of_difference, !elem_of_union, !elem_of_difference,
        !elem_of_union. tauto.
  - rewrite Hl3. apply map_eq. intros that.
    destruct (decide (that = this)) as [->|Hne].
    + by rewrite lookup_delete_eq.
    + rewrite lookup_delete_ne by done. by rewrite Hl2, Hl1.
Qed.
End Lifetime.

(** *** Assignment, writes and the record of destructions *)

Section Independence.
Context {T : Type} `{CopyConstructible T}.
Context {A : Type} `{NodeAllocator A}.
Context {Alloc : Type} `{AllocatorTraits Alloc}.

Local Abbreviation World := (World (T:=T) (A:=A) (Alloc:=Alloc)).
Local Abbreviation Node := (Node (T:=T)).
Local Abbreviation List := (List (Alloc:=Alloc)).

(** A step that runs no element destructor. *)
Definition keeps_log {R} (m : M World R) : Prop :=
  ∀ w, match m w with
       | Ok _ w' | Throw w' => destroyed w' = destroyed w
       | Undefined | OutOfFuel => True
       end.

Lemma keeps_log_bind {X Y} (m : M World X) (k : X → M World Y) :
  keeps_log m → (∀ a, keeps_log (k a)) → keeps_log (bind m k).
Proof.
  intros Hm Hk w. unfold bind. specialize (Hm w).
  destruct (m w) as [a w1|w1| |]; try done.
  specialize (Hk a w1). destruct (k a w1); try done; congruence.
Qed.

Lemma keeps_log_ret {R} (r : R) : keeps_log (ret r).
Proof. by intros w. Qed.

Lemma keeps_log_undefined {R} : keeps_log (undefined (R:=R)).
Proof. by intros w. Qed.

Lemma keeps_log_throw {R} : keeps_log (throw (R:=R)).
Proof. by intros w. Qed.

Lemma keeps_log_load p : keeps_log (load p).
Proof. intros w. unfold load. by destruct (nodes w !! p). Qed.

Lemma keeps_log_store p nd : keeps_log (store p nd).
Proof. intros w. unfold store. by destruct (nodes w !! p). Qed.

Lemma keeps_log_members this : keeps_log (members this).
Proof. intros w. unfold members. by destruct (lists w !! this). Qed.

Lemma keeps_log_set_members this l : keeps_log (set_members this l).
Proof. intros w. unfold set_members. by destruct (lists w !! this). Qed.

Lemma keeps_log_allocate_node : keeps_log allocate_node.
Proof.
  intros w. unfold allocate_node. by destruct (na_allocate (na w)) as [[p a]|].
Qed.

Lemma keeps_log_construct p v : keeps_log (construct p v).
Proof.
  unfold construct. destruct (copy_throws v);
    [apply keeps_log_throw|apply keeps_log_store].
Qed.

Lemma keeps_log_if {R} (b : bool) (m1 m2 : M World R) :
  keeps_log m1 → keeps_log m2 → keeps_log (if b then m1 else m2).
Proof. by destruct b. Qed.

Lemma keeps_log_deref it : keeps_log (deref it).
Proof.
  unfold deref. apply keeps_log_bind; [apply keeps_log_load|]. intros nd.
  destruct (elem_ nd); [apply keeps_log_ret|apply keeps_log_undefined].
Qed.

Create HintDb keeps_log discriminated.
#[local] Hint Resolve keeps_log_ret keeps_log_undefined keeps_log_throw
  keeps_log_load keeps_log_store keeps_log_members keeps_log_set_members
  keeps_log_allocate_node keeps_log_construct keeps_log_deref : keeps_log.
#[local] Hint Extern 1 (keeps_log (bind _ _)) =>
  apply keeps_log_bind; [|intros ?] : keeps_log.
#[local] Hint Extern 1 (keeps_log (if _ then _ else _)) =>
  apply keeps_log_if : keeps_log.
#[local] Hint Unfold get_next get_prev set_next set_prev set_size_ set_begin_
  set_end_ set_allocator_ size begin end' cbegin cend incr decr
  insert_before_ insert push_back : keeps_log.

Ltac keeps_log := repeat autounfold with keeps_log; auto 30 with keeps_log.

Lemma keeps_log_push_back this v : keeps_log (push_back this v).
Proof. keeps_log. Qed.

Lemma keeps_log_copy_ fuel this rhs : keeps_log (copy_ fuel this rhs).
Proof.
  unfold copy_. apply keeps_log_bind; [keeps_log|]. intros it. revert it.
  induction fuel as [|fuel IH]; intros it; [done|]. cbn [copy_from].
  apply keeps_log_bind; [keeps_log|]. intros last.
  apply keeps_log_if; [|apply keeps_log_ret].
  apply keeps_log_bind; [apply keeps_log_deref|]. intros v.
  apply keeps_log_bind; [apply keeps_log_push_back|]. intros _.
  apply keeps_log_bind; [keeps_log|]. intros it'. apply IH.
Qed.

(** [erase_] runs the destructor of the element it unlinks, and no
    other. *)
Lemma erase__log (w : World) this l live1 p x live2 w' :
  is_list w this l (live1 ++ (p, x) :: live2) →
  erase_ this p w = Ok tt w' →
  destroyed w' = destroyed w ++ [(p, x)].
Proof.
  intros [Hl Hr] He.
  destruct (rep_around _ _ _ _ Hr) as
    (_ & Hpost & Hnd & (ndq & Hq & Hqn) & _ & Hq0 & _ & Hqp).
  replace (live1 ++ (p, x) :: live2) with ((live1 ++ [(p, x)]) ++ live2) in Hr
    by (by rewrite <- (assoc_L (++))).
  destruct (rep_around _ _ _ _ Hr) as
    (_ & _ & Hnd' & _ & (ndr & Hrn & Hrp) & _ & Hr0 & Hpr).
  rewrite <- (assoc_L (++)) in Hr. simpl in Hr.
  assert (back_addr l (live1 ++ [(p, x)]) = p) as Hback
    by (unfold back_addr; by rewrite last_snoc).
  rewrite Hback in *.
  change (post l ((p, x) :: live2)) with ((p, Some x) :: post l live2) in Hpost.
  destruct Hpost as [Hp _]. cbn [fst snd pos_addr] in Hp, Hqn, Hqp.
  rewrite hd_post in Hp.
  assert (back_addr l live1 ≠ pos_addr l live2) as Hqr.
  { apply NoDup_app in Hnd as (_ & Hnd & _). intros E.
    apply (Hnd _ (back_addr_elem l live1)). rewrite E.
    change (post l ((p, x) :: live2)) with ((p, Some x) :: post l live2).
    rewrite fmap_cons. right. apply pos_addr_elem. }
  rewrite (erase__exec this p w l
             (mkNode (Some x) (pos_addr l live2) (back_addr l live1)) ndq ndr)
    in He by (simpl; try done; congruence).
  by injection He as <-.
Qed.

Lemma pop_back_log (w : World) this l live p x w' :
  is_list w this l (live ++ [(p, x)]) →
  pop_back this w = Ok tt w' →
  destroyed w' = destroyed w ++ [(p, x)] ∧ na w' = na_deallocate p (na w).
Proof.
  intros Hlist Hp. pose proof (frees_pop p this w) as Hf.
  rewrite <- (pop_back_unfold _ _ _ _ _ _ Hlist), Hp in Hf.
  split; [|apply Hf].
  rewrite (pop_back_unfold _ _ _ _ _ _ Hlist) in Hp.
  unfold erase, get_next, load, bind, ret in Hp. cbn [ptr_] in Hp.
  rewrite (rep_node _ _ _ _ _ _ (proj2 Hlist)) in Hp.
  destruct (erase_ this p w) as [[] w1|w1| |] eqn:He; try done.
  injection Hp as <-. by eapply erase__log.
Qed.

(** The loop [while (size_ > 0) pop_back();] destroys every element of
    the list, the last one first, and gives every node back to the
    allocator. *)
Lemma pop_all_effects fuel (w : World) this l live w' :
  alloc_ok w → is_list w this l live →
  pop_all fuel this w = Ok tt w' →
  destroyed w' = destroyed w ++ reverse live ∧
  dom (nodes w') = dom (nodes w) ∖ list_to_set (live.*1) ∧
  na w' = foldr na_deallocate (na w) (live.*1).
Proof.
  intros Hok Hlist Hrun.
  split; [|split; [by eapply pop_all_footprint|]]; revert fuel w l Hok Hlist Hrun;
    induction live as [|[p x] live IH] using rev_ind;
    intros fuel w l Hok Hlist Hrun;
    (destruct fuel as [|fuel]; [done|]); cbn [pop_all] in Hrun;
    rewrite (bind_Ok _ _ _ _ _ (size_ok _ _ _ _ Hlist)) in Hrun.
  - cbn [length] in Hrun. change (0 <? Z.of_nat 0) with false in Hrun.
    injection Hrun as <-. by rewrite app_nil_r.
  - replace (0 <? Z.of_nat (length (live ++ [(p, x)]))) with true in Hrun
      by (symmetry; apply Z.ltb_lt; rewrite length_app; simpl; lia).
    destruct (pop_back_spec w this l live (p, x) Hok Hlist) as (w1 & Hp & Hev).
    rewrite (bind_Ok _ _ _ _ _ Hp) in Hrun.
    pose proof Hev as (Hlist1 & Hok1 & _).
    destruct (pop_back_log _ _ _ _ _ _ _ Hlist Hp) as [Hlog _].
    rewrite (IH fuel w1 _ Hok1 Hlist1 Hrun), Hlog, reverse_app.
    by rewrite <- (assoc_L (++)).
  - cbn [length] in Hrun. change (0 <? Z.of_nat 0) with false in Hrun.
    by injection Hrun as <-.
  - replace (0 <? Z.of_nat (length (live ++ [(p, x)]))) with true in Hrun
      by (symmetry; apply Z.ltb_lt; rewrite length_app; simpl; lia).
    destruct (pop_back_spec w this l live (p, x) Hok Hlist) as (w1 & Hp & Hev).
    rewrite (bind_Ok _ _ _ _ _ Hp) in Hrun.
    pose proof Hev as (Hlist1 & Hok1 & _).
    destruct (pop_back_log _ _ _ _ _ _ _ Hlist Hp) as [_ Hna].
    rewrite (IH fuel w1 _ Hok1 Hlist1 Hrun), Hna.
    by rewrite fmap_app, foldr_app.
Qed.

(** Replacing the allocator member of a list object. *)
Lemma set_allocator__spec (w : World) this l live a :
  alloc_ok w → is_list w this l live →
  ∃ w', set_allocator_ this a w = Ok tt w' ∧
        evolved w w' this l live
          (mkList a (size_ l) (begin_ l) (end_ l)) live ∧
        destroyed w' = destroyed w.
Proof.
  intros Hok Hlist. eexists. split.
  { unfold set_allocator_.
    rewrite (bind_Ok _ _ _ _ _ (members_ok _ _ _ _ Hlist)).
    unfold set_members. by rewrite (proj1 Hlist). }
  split; [|done]. split; [|split; [done|split; [split|]]].
  - split; cbn [lists nodes]; [by rewrite lookup_insert_eq|].
    by destruct Hlist as [_ []].
  - intros that Hne. cbn [lists]. by rewrite lookup_insert_ne.
  - done.
  - intros a0 Ha0. by left.
Qed.

(** [operator=] between two distinct lists: the state [w1] the copying
    starts from, and where the call ends; every element the target held
    has been destroyed by then and nothing else has. *)
Lemma operator_assign_spec fuel (w : World) this rhs l live lr live_r :
  alloc_ok w → this ≠ rhs →
  is_list w this l live → is_list w rhs lr live_r →
  addrs lr live_r ## addrs l live →
  (length live < fuel)%nat → (length live_r < fuel)%nat →
  ∃ w1,
    pop_all fuel this w = Ok tt w1 ∧
    evolved w w1 this l live (resized l 0) [] ∧
    operator_assign fuel this rhs w =
      ((if propagate_on_container_copy_assignment
        then (r <- members rhs ;; set_allocator_ this (allocator_ r))
        else ret tt) ;;
       copy_ fuel this rhs) w1 ∧
    match operator_assign fuel this rhs w with
    | Ok _ w' =>
        ∃ l' copied,
          evolved w w' this l live l' copied ∧ copied.*2 = live_r.*2 ∧
          destroyed w' = destroyed w1
    | Throw w' =>
        ∃ l' copied k,
          (k < length live_r)%nat ∧
          evolved w w' this l live l' copied ∧
          copied.*2 = take k (live_r.*2) ∧
          destroyed w' = destroyed w1
    | Undefined | OutOfFuel => False
    end.
Proof.
  intros Hok Hne Hthis Hrhs Hdisj Hfuel Hfuel_r.
  pose proof (pop_all_spec fuel w this l live Hok Hthis) as Hpop.
  destruct (pop_all fuel this w) as [[] w1|w1| |] eqn:Hp; try done; [|lia].
  pose proof Hpop as (Hthis1 & Hok1 & _).
  destruct (evolved_other _ _ _ _ _ _ _ rhs lr live_r Hpop) as [Hrhs1 Hdisj1];
    [done..|].
  exists w1. split; [done|]. split; [done|].
  assert (operator_assign fuel this rhs w =
      ((if propagate_on_container_copy_assignment
        then (r <- members rhs ;; set_allocator_ this (allocator_ r))
        else ret tt) ;;
       copy_ fuel this rhs) w1) as Heq.
  { unfold operator_assign. rewrite bool_decide_false by done.
    by rewrite (bind_Ok _ _ _ _ _ Hp). }
  split; [done|]. rewrite Heq. clear Heq.
  set (l1 := resized l 0) in *.
  assert (∃ w2 l2,
    (if propagate_on_container_copy_assignment
     then (r <- members rhs ;; set_allocator_ this (allocator_ r))
     else ret tt) w1 = Ok tt w2 ∧
    evolved w1 w2 this l1 [] l2 [] ∧ destroyed w2 = destroyed w1)
    as (w2 & l2 & Hprop & Hev2 & Hlog2).
  { destruct propagate_on_container_copy_assignment.
    - destruct (set_allocator__spec w1 this l1 [] (allocator_ lr) Hok1 Hthis1)
        as (w2 & Hset & Hev & Hlog).
      exists w2, (mkList (allocator_ lr) (size_ l1) (begin_ l1) (end_ l1)).
      split; [|done].
      by rewrite (bind_Ok _ _ _ _ _ (members_ok _ _ _ _ Hrhs1)).
    - exists w1, l1. split; [done|]. split; [by apply evolved_refl|done]. }
  rewrite (bind_Ok _ _ _ _ _ Hprop).
  pose proof Hev2 as (Hthis2 & Hok2 & _).
  destruct (evolved_other _ _ _ _ _ _ _ rhs lr live_r Hev2) as [Hrhs2 Hdisj2];
    [done..|].
  pose proof (copy__spec fuel w2 this rhs l2 lr live_r Hok2 Hne Hthis2 Hrhs2 Hdisj2)
    as Hc.
  pose proof (keeps_log_copy_ fuel this rhs w2) as Hlog.
  destruct (copy_ fuel this rhs w2) as [[] w'|w'| |]; try done; [| |lia].
  - destruct Hc as (l' & copied & Hev & _ & Hvals).
    exists l', copied. split; [|split; [done|congruence]].
    eapply evolved_trans; [done|done|]. by eapply evolved_trans.
  - destruct Hc as (l' & copied & k & Hk & Hev & _ & Hvals).
    exists l', copied, k. split; [done|]. split; [|split; [done|congruence]].
    eapply evolved_trans; [done|done|]. by eapply evolved_trans.
Qed.

(** *** Writes through an iterator *)

Lemma chain_put (m : gmap Z Node) pv cs1 p x cs2 nx v :
  p ∉ cs1.*1 → p ∉ cs2.*1 →
  chain m pv (cs1 ++ (p, Some x) :: cs2) nx →
  chain (<[p := mkNode (Some v) (hd_addr cs2 nx) (last_addr pv cs1)]> m)
    pv (cs1 ++ (p, Some v) :: cs2) nx.
Proof.
  intros Hn1 Hn2 Hch. apply chain_app in Hch as [Hc1 [Hp Hc2]].
  apply chain_app. split; [|split].
  - eapply chain_frame; [|exact Hc1]. intros q Hq.
    rewrite lookup_insert_ne; [done|]. by intros <-.
  - cbn [fst snd]. by rewrite lookup_insert_eq.
  - eapply chain_frame; [|exact Hc2]. intros q Hq.
    rewrite lookup_insert_ne; [done|]. by intros <-.
Qed.

Lemma rep_put (m : gmap Z Node) (l : List) live1 p x live2 v :
  rep m l (live1 ++ (p, x) :: live2) →
  rep (<[p := mkNode (Some v) (pos_addr l live2) (back_addr l live1)]> m)
    l (live1 ++ (p, v) :: live2).
Proof.
  intros [Hsz Hrg Hch Hnd Hnn].
  assert (addrs l (live1 ++ (p, v) :: live2)
          = addrs l (live1 ++ (p, x) :: live2)) as Haddrs
    by (unfold addrs; by rewrite !fmap_app, !fmap_cons).
  constructor.
  - rewrite Hsz, !length_app. done.
  - rewrite length_app in *. done.
  - assert (pre l [] ++ post l (live1 ++ (p, x) :: live2)
            = pre l live1 ++ (p, Some x) :: post l live2) as E.
    { unfold pre, post, elems. rewrite fmap_app, fmap_cons. simpl.
      by rewrite <- (assoc_L (++)). }
    assert (pre l [] ++ post l (live1 ++ (p, v) :: live2)
            = pre l live1 ++ (p, Some v) :: post l live2) as E'.
    { unfold pre, post, elems. rewrite fmap_app, fmap_cons. simpl.
      by rewrite <- (assoc_L (++)). }
    rewrite E in Hch. rewrite E'.
    rewrite <- (hd_post l live2 0), <- (last_pre 0 l live1).
    rewrite addrs_split in Hnd.
    change (post l ((p, x) :: live2)) with ((p, Some x) :: post l live2) in Hnd.
    rewrite fmap_cons in Hnd. cbn [fst] in Hnd.
    apply NoDup_app in Hnd as (_ & Hd & Hnd2).
    apply NoDup_cons in Hnd2 as [Hp2 _].
    apply (chain_put m 0 (pre l live1) p x (post l live2) 0 v); [|done|done].
    intros Hp1. apply (Hd _ Hp1). by left.
  - by rewrite Haddrs.
  - by rewrite Haddrs.
Qed.

Lemma put_spec (w : World) this l live1 p x live2 v :
  alloc_ok w → is_list w this l (live1 ++ (p, x) :: live2) →
  ∃ w', put (Iter p) v w = Ok tt w' ∧
        evolved w w' this l (live1 ++ (p, x) :: live2)
          l (live1 ++ (p, v) :: live2).
Proof.
  intros Hok [Hl Hr]. pose proof (rep_node _ _ _ _ _ _ Hr) as Hp.
  eexists. split.
  { unfold put, load, store, bind. cbn [ptr_]. rewrite Hp. cbn [elem_].
    rewrite Hp. reflexivity. }
  cbn [next prev].
  assert (addrs l (live1 ++ (p, v) :: live2)
          = addrs l (live1 ++ (p, x) :: live2)) as Haddrs
    by (unfold addrs; by rewrite !fmap_app, !fmap_cons).
  split; [|split; [|split; [split|]]].
  - split; [done|]. cbn [nodes]. by apply (rep_put _ _ _ _ x).
  - unfold alloc_ok. cbn [nodes na]. rewrite dom_insert_L.
    apply elem_of_dom_2 in Hp.
    by replace ({[p]} ∪ dom (nodes w)) with (dom (nodes w)) by set_solver.
  - done.
  - intros a Ha Hx. cbn [nodes]. rewrite lookup_insert_ne; [done|].
    intros <-. apply Hx. rewrite addrs_split. apply elem_of_app. right.
    change (post l ((p, x) :: live2)) with ((p, Some x) :: post l live2).
    rewrite fmap_cons. by left.
  - intros a Ha. left. by rewrite <- Haddrs.
Qed.

(** *** The lists of a program *)

(** Every list object of the world is a well-formed list, on the live
    nodes [R] names for it; no two list objects share a node; and the
    allocator agrees with the memory. *)
Definition lists_ok (w : World) (R : gmap Z (list (Z * T))) : Prop :=
  alloc_ok w ∧
  (∀ o l, lists w !! o = Some l →
          ∃ live, R !! o = Some live ∧ rep (nodes w) l live) ∧
  (∀ o1 o2 l1 l2 live1 live2,
     o1 ≠ o2 →
     lists w !! o1 = Some l1 → lists w !! o2 = Some l2 →
     R !! o1 = Some live1 → R !! o2 = Some live2 →
     addrs l1 live1 ## addrs l2 live2).

Lemma lists_ok_is_list (w : World) R o l :
  lists_ok w R → lists w !! o = Some l →
  ∃ live, R !! o = Some live ∧ is_list w o l live.
Proof.
  intros (_ & Hrep & _) Hl. destruct (Hrep _ _ Hl) as (live & HR & Hr).
  by exists live.
Qed.

(** A call that took one list from one well-formed state to another
    leaves the lists of the program well formed and apart. *)
Lemma evolved_lists_ok (w w' : World) R this l live l' live' :
  lists_ok w R → is_list w this l live → R !! this = Some live →
  evolved w w' this l live l' live' →
  lists_ok w' (<[this := live']> R).
Proof.
  intros Hall Hthis HR Hev.
  pose proof Hev as (Hthis' & Hok' & [Hlists Hnodes] & Hnew).
  destruct Hall as (Hok & Hrep & Hapart).
  assert (∀ o l2 live2, o ≠ this → lists w !! o = Some l2 →
            R !! o = Some live2 →
            is_list w' o l2 live2 ∧ addrs l2 live2 ## addrs l' live')
    as Hother.
  { intros o l2 live2 Hne Hl2 HR2.
    destruct (Hrep _ _ Hl2) as (live2' & HR2' & Hr2).
    assert (live2' = live2) as -> by congruence.
    apply (evolved_other _ _ _ _ _ _ _ o l2 live2 Hev); [done|by split|].
    apply (Hapart o this l2 l live2 live); try done. apply Hthis. }
  split; [done|]. split.
  - intros o l2 Hl2. destruct (decide (o = this)) as [->|Hne].
    + exists live'. rewrite lookup_insert_eq. split; [done|].
      destruct Hthis' as [Hl' Hr']. congruence.
    + rewrite Hlists in Hl2 by done.
      destruct (Hrep _ _ Hl2) as (live2 & HR2 & _).
      exists live2. rewrite lookup_insert_ne by done. split; [done|].
      by apply (Hother o l2 live2).
  - intros o1 o2 l1 l2 live1 live2 Hne Hl1 Hl2 HR1 HR2.
    destruct (decide (o1 = this)) as [->|Hne1];
      [|destruct (decide (o2 = this)) as [->|Hne2]].
    + rewrite lookup_insert_eq in HR1. injection HR1 as <-.
      rewrite (proj1 Hthis') in Hl1. injection Hl1 as <-.
      rewrite lookup_insert_ne in HR2 by done. rewrite Hlists in Hl2 by done.
      apply disjoint_sym. by apply (Hother o2 l2 live2).
    + rewrite lookup_insert_eq in HR2. injection HR2 as <-.
      rewrite (proj1 Hthis') in Hl2. injection Hl2 as <-.
      rewrite lookup_insert_ne in HR1 by done. rewrite Hlists in Hl1 by done.
      by apply (Hother o1 l1 live1).
    + rewrite lookup_insert_ne in HR1, HR2 by done.
      rewrite Hlists in Hl1, Hl2 by done.
      by apply (Hapart o1 o2).
Qed.

(** The constructor adds an empty list to the lists of the program. *)
Lemma ctor_lists_ok (w : World) R this alloc w1 :
  lists_ok w R → ctor this alloc w = Ok tt w1 →
  ∃ l0, is_list w1 this l0 [] ∧ lists_ok w1 (<[this := []]> R) ∧
        (∀ o l live, o ≠ this → is_list w o l live → is_list w1 o l live) ∧
        addrs (T:=T) l0 [] ## elements (dom (nodes w)).
Proof.
  intros (Hok & Hrep & Hapart) Hctor.
  pose proof (ctor_spec w this alloc Hok (ctor_Ok_fresh _ _ _ _ Hctor)) as Hs.
  rewrite Hctor in Hs.
  destruct Hs as (b & e & Hb & He & Hthis1 & Hok1 & Hlists1 & Hnodes1).
  set (l0 := mkList (select_on_container_copy_construction alloc) 0 b e) in *.
  assert (∀ o l live, o ≠ this → is_list w o l live → is_list w1 o l live)
    as Hkept.
  { intros o l live Hne [Hl Hr]. split; [by rewrite Hlists1|].
    eapply rep_frame; [|done]. intros a Ha. apply Hnodes1. by eapply rep_dom. }
  assert (∀ a, a ∈ addrs (T:=T) l0 [] → a ∉ dom (nodes w)) as Hfresh.
  { intros a Ha. apply elem_of_cons in Ha as [->|Ha]; [done|].
    apply list_elem_of_singleton in Ha. by subst a. }
  exists l0. split; [done|]. split; [|split; [done|]].
  - split; [done|]. split.
    + intros o l Hl. destruct (decide (o = this)) as [->|Hne].
      * exists []. rewrite lookup_insert_eq. split; [done|].
        destruct Hthis1 as [Hl0 Hr0]. congruence.
      * rewrite Hlists1 in Hl by done.
        destruct (Hrep _ _ Hl) as (live & HR & Hr).
        exists live. rewrite lookup_insert_ne by done. split; [done|].
        by apply (Hkept o l live).
    + intros o1 o2 l1 l2 live1 live2 Hne Hl1 Hl2 HR1 HR2.
      destruct (decide (o1 = this)) as [->|Hne1];
        [|destruct (decide (o2 = this)) as [->|Hne2]].
      * rewrite lookup_insert_eq in HR1. injection HR1 as <-.
        rewrite (proj1 Hthis1) in Hl1. injection Hl1 as <-.
        rewrite lookup_insert_ne in HR2 by done.
        rewrite Hlists1 in Hl2 by done.
        destruct (Hrep _ _ Hl2) as (live2' & HR2' & Hr2).
        assert (live2' = live2) as -> by congruence.
        intros a Ha Ha'. apply (Hfresh _ Ha). by eapply rep_dom.
      * rewrite lookup_insert_eq in HR2. injection HR2 as <-.
        rewrite (proj1 Hthis1) in Hl2. injection Hl2 as <-.
        rewrite lookup_insert_ne in HR1 by done.
        rewrite Hlists1 in Hl1 by done.
        destruct (Hrep _ _ Hl1) as (live1' & HR1' & Hr1).
        assert (live1' = live1) as -> by congruence.
        intros a Ha Ha'. apply (Hfresh _ Ha'). by eapply rep_dom.
      * rewrite lookup_insert_ne in HR1, HR2 by done.
        rewrite Hlists1 in Hl1, Hl2 by done.
        by apply (Hapart o1 o2).
  - intros a Ha Ha'. apply (Hfresh _ Ha). by apply elem_of_elements in Ha'.
Qed.

(** Every mutation takes the list from one well-formed state to
    another. *)
Lemma mutate_evolved (w : World) R this l live m w' :
  lists_ok w R → is_list w this l live → R !! this = Some live →
  mutate this m w = Some w' →
  ∃ l' live', evolved w w' this l live l' live'.
Proof.
  intros Hall Hlist HR Hm. pose proof Hall as (Hok & _ & Hapart).
  destruct m as [o|k v|src]; cbn [mutate] in Hm.
  - destruct (counted this o (w, mkTally 0 0)) as [[w1 t1]|] eqn:Hc; [|done].
    injection Hm as <-.
    destruct (counted_tracked w _ o w1 t1 this l live Hok Hlist Hc)
      as (l' & live' & Hev & _).
    by exists l', live'.
  - rewrite (bind_Ok _ _ _ _ _ (begin_ok _ _ _ _ Hlist)) in Hm.
    unfold bind at 1 in Hm.
    rewrite (advance_ok w this l [] live k Hlist) in Hm.
    destruct (decide (k ≤ length live)%nat); [|done].
    rewrite <- (take_drop k live) in Hlist.
    destruct (drop k live) as [|[p x] rest] eqn:Hdrop.
    + cbn [pos_addr] in Hm. unfold put, load, bind in Hm. cbn [ptr_] in Hm.
      rewrite (rep_end _ _ _ (proj2 Hlist)) in Hm. done.
    + cbn [pos_addr fst] in Hm.
      destruct (put_spec w this l (take k live) p x rest v Hok Hlist)
        as (w1 & Hp & Hev).
      rewrite Hp in Hm. injection Hm as <-.
      exists l, (take k live ++ (p, v) :: rest).
      by rewrite <- Hdrop, take_drop in Hev.
  - rewrite (bind_Ok _ _ _ _ _ (size_ok _ _ _ _ Hlist)) in Hm.
    unfold bind at 1 in Hm. unfold size at 1, members, bind in Hm.
    destruct (lists w !! src) as [ls|] eqn:Hsrc; [|done].
    unfold ret in Hm.
    destruct (decide (this = src)) as [<-|Hne].
    + unfold operator_assign in Hm. rewrite bool_decide_true in Hm by done.
      injection Hm as <-. exists l, live. by apply evolved_refl.
    + destruct (lists_ok_is_list _ _ _ _ Hall Hsrc) as (live_s & HRs & Hs).
      rewrite (rep_size _ _ _ (proj2 Hs)) in Hm.
      destruct (operator_assign_spec
                  (S (Z.to_nat (Z.max (Z.of_nat (length live))
                                      (Z.of_nat (length live_s)))))
                  w this src l live ls live_s Hok Hne Hlist Hs)
        as (w1 & _ & _ & _ & Hres); [|lia|lia|].
      { apply (Hapart src this ls l live_s live); try done. apply Hlist. }
      destruct (operator_assign _ this src w) as [[] w2|w2| |]; try done;
        injection Hm as <-.
      * destruct Hres as (l' & copied & Hev & _). by exists l', copied.
      * destruct Hres as (l' & copied & k & _ & Hev & _). by exists l', copied.
Qed.

Lemma mutations_evolved this ms (w : World) R l live w' :
  lists_ok w R → is_list w this l live → R !! this = Some live →
  mutations this ms w = Some w' →
  ∃ l' live', evolved w w' this l live l' live'.
Proof.
  revert w R l live. induction ms as [|m ms IH];
    intros w R l live Hall Hlist HR Hrun.
  - injection Hrun as <-. exists l, live. apply evolved_refl; [apply Hall|done].
  - cbn [mutations] in Hrun.
    destruct (mutate this m w) as [w1|] eqn:Hm; [|done].
    destruct (mutate_evolved _ _ _ _ _ _ _ Hall Hlist HR Hm)
      as (l1 & live1 & Hev1).
    pose proof (evolved_lists_ok _ _ _ _ _ _ _ _ Hall Hlist HR Hev1) as Hall1.
    destruct (IH w1 _ l1 live1 Hall1 (proj1 Hev1) (lookup_insert_eq _ _ _) Hrun)
      as (l' & live' & Hev').
    exists l', live'. by eapply evolved_trans.
Qed.

(** C7.  The copy constructor, given one loop iteration per element,
    returns or throws.  When it returns, the new list has as many
    elements as the source, equal to the source's and in the same order,
    in nodes it shares with no list of the program, the source included.
    Whatever is then done to the source, any run of [push_front],
    [push_back], [insert], [pop_front], [pop_back], [erase], of writes to
    its elements through iterators and of assignments to it from other
    lists, the copy holds the same elements in the same nodes; and the
    destructor of the source, given one loop iteration per element of
    what the source then holds, returns and leaves the copy as it is.
    When the copy constructor throws, no new list exists and the source
    is as it was. *)
Theorem copy_is_equal_and_independent
  fuel (w : World) R this rhs lr live :
  lists_ok w R → is_list w rhs lr live → R !! rhs = Some live →
  lists w !! this = None → (length live < fuel)%nat →
  match copy_ctor fuel this rhs w with
  | Ok _ w' =>
      ∃ l' copied,
        is_list w' this l' copied ∧
        copied.*2 = live.*2 ∧
        size this w' = Ok (Z.of_nat (length live)) w' ∧
        traverse (S (length live)) this w' = Ok (live.*2) w' ∧
        is_list w' rhs lr live ∧
        addrs l' copied ## addrs lr live ∧
        lists_ok w' (<[this := copied]> R) ∧
        ∀ ms w'',
          mutations rhs ms w' = Some w'' →
          is_list w'' this l' copied ∧
          traverse (S (length live)) this w'' = Ok (live.*2) w'' ∧
          ∃ lr'' live'',
            is_list w'' rhs lr'' live'' ∧
            ∀ fuel', (length live'' < fuel')%nat →
              ∃ w3, dtor fuel' rhs w'' = Ok tt w3 ∧
                    lists w3 !! rhs = None ∧
                    is_list w3 this l' copied ∧
                    traverse (S (length live)) this w3 = Ok (live.*2) w3
  | Throw w' => lists w' !! this = None ∧ is_list w' rhs lr live
  | Undefined | OutOfFuel => False
  end.
Proof.
  intros Hall Hrhs HR Hnone Hfuel. pose proof Hall as (Hok & _).
  assert (this ≠ rhs) as Hne.
  { intros ->. destruct Hrhs as [Hl _]. congruence. }
  unfold copy_ctor.
  rewrite (bind_Ok _ _ _ _ _ (members_ok _ _ _ _ Hrhs)).
  unfold bind.
  pose proof (ctor_spec w this (allocator_ lr) Hok Hnone) as Hs.
  destruct (ctor this (allocator_ lr) w) as [[] w1|w1| |] eqn:Hctor; try done.
  2:{ destruct Hs as (_ & Hlists1 & Hnodes1). split; [by rewrite Hlists1|].
      destruct Hrhs as [Hl Hr]. split; [by rewrite Hlists1|].
      eapply rep_frame; [|done]. intros a Ha. apply Hnodes1. by eapply rep_dom. }
  clear Hs.
  destruct (ctor_lists_ok _ _ _ _ _ Hall Hctor)
    as (l0 & Hthis1 & Hall1 & Hkept1 & Hfresh1).
  pose proof (Hkept1 rhs lr live (not_eq_sym Hne) Hrhs) as Hrhs1.
  pose proof Hall1 as (Hok1 & _).
  assert (addrs lr live ## addrs (T:=T) l0 []) as Hdisj1.
  { intros a Ha Ha'. apply (Hfresh1 _ Ha'). apply elem_of_elements.
    by apply (rep_dom _ _ _ _ (proj2 Hrhs)). }
  unfold unwinding.
  pose proof (copy__spec fuel w1 this rhs l0 lr live Hok1 Hne Hthis1 Hrhs1 Hdisj1)
    as Hc.
  destruct (copy_ fuel this rhs w1) as [[] w2|w2| |] eqn:Hcp; try done; [| |lia].
  2:{ destruct Hc as (l' & copied & k & Hk & Hev & _ & Hvals).
      pose proof Hev as (Hthis2 & Hok2 & _).
      destruct (evolved_other _ _ _ _ _ _ _ rhs lr live Hev) as [Hrhs2 Hdisj2];
        [done..|].
      pose proof (dtor_spec fuel w2 this l' copied Hok2 Hthis2) as Hds.
      assert (length copied = k) as Hlen.
      { rewrite <- (length_fmap snd copied), Hvals, length_take, length_fmap.
        lia. }
      destruct (dtor fuel this w2) as [[] w3|w3| |]; try done; [|lia].
      destruct Hds as (_ & Hgone & Hkept). split; [done|].
      by apply Hkept. }
  destruct Hc as (l' & copied & Hev & _ & Hvals).
  pose proof Hev as (Hthis' & Hok' & _).
  destruct (evolved_other _ _ _ _ _ _ _ rhs lr live Hev) as [Hrhs' Hdisj'];
    [done..|].
  assert (length copied = length live) as Hlen.
  { rewrite <- (length_fmap snd copied), Hvals. apply length_fmap. }
  pose proof (evolved_lists_ok _ _ _ _ _ _ _ _ Hall1 Hthis1
                (lookup_insert_eq _ _ _) Hev) as Hall'.
  rewrite insert_insert_eq in Hall'.
  exists l', copied. split; [done|]. split; [done|].
  split; [rewrite <- Hlen; by eapply size_ok|].
  split; [rewrite <- Hvals; eapply traverse_ok; [done|lia]|].
  split; [done|]. split; [by apply disjoint_sym|]. split; [done|].
  intros ms w'' Hrun.
  assert (<[this := copied]> R !! rhs = Some live) as HR'
    by (by rewrite lookup_insert_ne).
  destruct (mutations_evolved rhs ms w2 _ lr live w'' Hall' Hrhs' HR' Hrun)
    as (lr'' & live'' & Hev'').
  destruct (evolved_other _ _ _ _ _ _ _ this l' copied Hev'')
    as [Hthis'' Hdisj'']; [done|done|by apply disjoint_sym|].
  split; [done|].
  split; [rewrite <- Hvals; eapply traverse_ok; [done|lia]|].
  destruct Hev'' as (Hrhs'' & Hok'' & _).
  exists lr'', live''. split; [done|]. intros fuel' Hfuel'.
  pose proof (dtor_spec fuel' w'' rhs lr'' live'' Hok'' Hrhs'') as Hds.
  destruct (dtor fuel' rhs w'') as [[] w3|w3| |]; try done; [|lia].
  destruct Hds as (_ & Hgone & Hkept).
  assert (is_list w3 this l' copied) as Hthis3 by (by apply Hkept).
  exists w3. split; [done|]. split; [done|]. split; [done|].
  rewrite <- Hvals. eapply traverse_ok; [done|lia].
Qed.

(** C10.  Copy assignment between two distinct list objects first pops
    every element of the left-hand side: in the state [w1] it copies
    from, the destructor of every element the left-hand side held has
    run, the last element first, every node that held one has been given
    back to the allocator, the left-hand side is empty and the right-hand
    side is as it was.  It then copies the elements of the right-hand
    side one by one and destroys nothing further, so when a node
    allocation or an element copy throws the left-hand side holds copies
    of the first [k] elements of the right-hand side and nothing else; when
    it returns it holds copies of all of them. *)
Theorem assignment_clears_then_copies
  fuel (w : World) this rhs l live lr live_r :
  alloc_ok w → this ≠ rhs →
  is_list w this l live → is_list w rhs lr live_r →
  addrs lr live_r ## addrs l live →
  (length live < fuel)%nat → (length live_r < fuel)%nat →
  ∃ w1,
    pop_all fuel this w = Ok tt w1 ∧
    destroyed w1 = destroyed w ++ reverse live ∧
    dom (nodes w1) = dom (nodes w) ∖ list_to_set (live.*1) ∧
    na w1 = foldr na_deallocate (na w) (live.*1) ∧
    is_list w1 this (resized l 0) [] ∧
    is_list w1 rhs lr live_r ∧
    operator_assign fuel this rhs w =
      ((if propagate_on_container_copy_assignment
        then (r <- members rhs ;; set_allocator_ this (allocator_ r))
        else ret tt) ;;
       copy_ fuel this rhs) w1 ∧
    match operator_assign fuel this rhs w with
    | Ok _ w' =>
        ∃ l' copied,
          is_list w' this l' copied ∧ copied.*2 = live_r.*2 ∧
          is_list w' rhs lr live_r ∧
          destroyed w' = destroyed w ++ reverse live
    | Throw w' =>
        ∃ l' copied k,
          (k < length live_r)%nat ∧
          is_list w' this l' copied ∧ copied.*2 = take k (live_r.*2) ∧
          is_list w' rhs lr live_r ∧
          destroyed w' = destroyed w ++ reverse live
    | Undefined | OutOfFuel => False
    end.
Proof.
  intros Hok Hne Hthis Hrhs Hdisj Hfuel Hfuel_r.
  destruct (operator_assign_spec fuel w this rhs l live lr live_r
              Hok Hne Hthis Hrhs Hdisj Hfuel Hfuel_r)
    as (w1 & Hpop & Hev1 & Heq & Hres).
  destruct (pop_all_effects _ _ _ _ _ _ Hok Hthis Hpop) as (Hlog & Hdom & Hna).
  destruct (evolved_other _ _ _ _ _ _ _ rhs lr live_r Hev1) as [Hrhs1 _];
    [done..|].
  exists w1. split; [done|]. split; [done|]. split; [done|]. split; [done|].
  split; [apply Hev1|]. split; [done|]. split; [done|].
  destruct (operator_assign fuel this rhs w) as [[] w'|w'| |]; try done.
  - destruct Hres as (l' & copied & Hev & Hvals & Hlog').
    destruct (evolved_other _ _ _ _ _ _ _ rhs lr live_r Hev) as [Hrhs' _];
      [done..|].
    exists l', copied. split; [apply Hev|]. split; [done|]. split; [done|].
    congruence.
  - destruct Hres as (l' & copied & k & Hk & Hev & Hvals & Hlog').
    destruct (evolved_other _ _ _ _ _ _ _ rhs lr live_r Hev) as [Hrhs' _];
      [done..|].
    exists l', copied, k. split; [done|]. split; [apply Hev|].
    split; [done|]. split; [done|]. congruence.
Qed.

(** A program with two lists. *)
Lemma lists_ok_two (w : World) o1 o2 l1 l2 live1 live2 :
  alloc_ok w → o1 ≠ o2 → dom (lists w) = {[o1; o2]} →
  is_list w o1 l1 live1 → is_list w o2 l2 live2 →
  addrs l1 live1 ## addrs l2 live2 →
  lists_ok w (<[o1 := live1]> (<[o2 := live2]> ∅)).
Proof.
  intros Hok Hne Hdom [Hl1 Hr1] [Hl2 Hr2] Hdisj.
  assert (∀ o l, lists w !! o = Some l →
            (o = o1 ∧ l = l1) ∨ (o = o2 ∧ l = l2)) as Hcases.
  { intros o l Hl. assert (o ∈ dom (lists w)) as Ho by (by eapply elem_of_dom_2).
    rewrite Hdom in Ho. apply elem_of_union in Ho as [Ho|Ho];
      apply elem_of_singleton in Ho; subst o; [left|right]; split; congruence. }
  split; [done|]. split.
  - intros o l Hl. destruct (Hcases _ _ Hl) as [[-> ->]|[-> ->]].
    + exists live1. by rewrite lookup_insert_eq.
    + exists live2. by rewrite lookup_insert_ne, lookup_insert_eq.
  - intros p1 p2 k1 k2 v1 v2 Hp Hk1 Hk2 Hv1 Hv2.
    destruct (Hcases _ _ Hk1) as [[-> ->]|[-> ->]];
      destruct (Hcases _ _ Hk2) as [[-> ->]|[-> ->]]; try done.
    + rewrite lookup_insert_eq in Hv1.
      rewrite lookup_insert_ne, lookup_insert_eq in Hv2 by done.
      by injection Hv1 as <-; injection Hv2 as <-.
    + rewrite lookup_insert_eq in Hv2.
      rewrite lookup_insert_ne, lookup_insert_eq in Hv1 by done.
      injection Hv1 as <-; injection Hv2 as <-. by apply disjoint_sym.
Qed.
End Independence.

(** *** Running the calls above

    Besides the lists of [int] above: an element type that wraps an
    integer and whose default constructor sets it to 0;
    an element type whose copy constructor throws on one value, [None];
    and an allocator type that carries a tag and propagates on copy
    assignment. *)

#[export] Instance zero_default : DefaultConstructible Z :=
  {| default_init := Some 0; default_throws := false |}.

#[export] Instance fragile_copy : CopyConstructible (option Z) :=
  {| copy_throws := λ v, bool_decide (v = None) |}.

#[export] Instance tagged_allocator_traits : AllocatorTraits nat :=
  {| select_on_container_copy_construction := id;
     propagate_on_container_copy_assignment := true |}.

Abbreviation FragileWorld := (World (T:=option Z) (A:=Bump) (Alloc:=unit)).
Abbreviation TaggedWorld := (World (T:=Z) (A:=Bump) (Alloc:=nat)).

(** The list holding the one element [Some 1], at the object address 1. *)
Definition fragile_list : FragileWorld :=
  match (ctor 1 tt ;; push_back 1 (Some 1)) (mkWorld ∅ ∅ (mkBump 100 0 10) []) with
  | Ok _ w => w
  | _ => mkWorld ∅ ∅ (mkBump 100 0 10) []
  end.

(** The list 1, 2 with the allocator tagged 7 at the object address 1 and
    the list 4 with the allocator tagged 9 at the object address 2. *)
Definition tagged_lists : TaggedWorld :=
  match (ctor 1 7%nat ;; push_back 1 1 ;; push_back 1 2 ;;
         ctor 2 9%nat ;; push_back 2 4) (mkWorld ∅ ∅ (mkBump 100 0 10) []) with
  | Ok _ w => w
  | _ => mkWorld ∅ ∅ (mkBump 100 0 10) []
  end.

Lemma fragile_list_ok :
  alloc_ok fragile_list ∧
  is_list fragile_list 1 (mkList tt 1 100 101) [(102, Some 1)].
Proof. split; [concrete_alloc_ok|concrete_is_list]. Qed.

Lemma tagged_lists_ok :
  alloc_ok tagged_lists ∧
  is_list tagged_lists 1 (mkList 7%nat 2 100 101) [(102, 1); (103, 2)] ∧
  is_list tagged_lists 2 (mkList 9%nat 1 104 105) [(106, 4)].
Proof. split; [concrete_alloc_ok|split; concrete_is_list]. Qed.


Lemma push_then_pop_restores_the_list_witness :
  ∃ w1 w2,
    push_back 1 7 (one_two_three 10) = Ok tt w1 ∧
    pop_back 1 w1 = Ok tt w2 ∧
    nodes w2 = nodes (one_two_three 10) ∧ lists w2 = lists (one_two_three 10).
Proof.
  assert (∃ w1, push_back 1 7 (one_two_three 10) = Ok tt w1) as (w1 & Hpush)
    by (eexists; vm_compute; reflexivity).
  destruct (proj1 (push_then_pop_restores_the_list (one_two_three 10) 1
                     (mkList tt 3 100 101) [(102, 1); (103, 2); (104, 3)] 7
                     (proj1 one_two_three_ok) (proj2 one_two_three_ok)) w1 Hpush)
    as (w2 & Hpop & Hnodes & Hlists).
  exists w1, w2. split; [exact Hpush|]. split; [exact Hpop|].
  split; [exact Hnodes|exact Hlists].
Defined.

Lemma destructor_frees_every_node_of_the_list_witness :
  ∃ w', dtor 4 1 (one_two_three 10) = Ok tt w' ∧
        alloc_ok w' ∧
        lists w' = delete 1 (lists (one_two_three 10)) ∧
        dom (nodes w')
          = dom (nodes (one_two_three 10)) ∖ list_to_set [100; 102; 103; 104; 101] ∧
        (∀ a, a ∉ [100; 102; 103; 104; 101] →
              nodes w' !! a = nodes (one_two_three 10) !! a).
Proof.
  exact (destructor_frees_every_node_of_the_list 4 (one_two_three 10) 1
           (mkList tt 3 100 101) [(102, 1); (103, 2); (104, 3)]
           (proj1 one_two_three_ok) (proj2 one_two_three_ok) ltac:(simpl; lia)).
Defined.

Lemma throwing_insertion_keeps_the_list_and_may_leak_a_node_witness :
  ∃ w',
    push_back 1 None fragile_list = Throw w' ∧
    unchanged_or_leaked fragile_list w' 1 (mkList tt 1 100 101)
      [(102, Some 1)] None ∧
    nodes w' !! 103 = Some (mkNode None 0 0).
Proof.
  assert (∃ w', push_back 1 None fragile_list = Throw w' ∧
                nodes w' !! 103 = Some (mkNode None 0 0))
    as (w' & Hthrow & Hleak)
    by (eexists; split; vm_compute; reflexivity).
  exists w'. split; [exact Hthrow|]. split; [|exact Hleak].
  exact (proj1 (proj2 (throwing_insertion_keeps_the_list_and_may_leak_a_node
                         fragile_list 1 (mkList tt 1 100 101) []
                         [(102, Some 1)] None
                         (proj1 fragile_list_ok) (proj2 fragile_list_ok)))
           w' Hthrow).
Defined.

Lemma push_back_appends_and_push_front_prepends_witness :
  (∃ w', push_back 1 7 (one_two_three 10) = Ok tt w' ∧
         size 1 w' = Ok 4 w' ∧ traverse 5 1 w' = Ok [1; 2; 3; 7] w') ∧
  (∃ w', push_front 1 7 (one_two_three 10) = Ok tt w' ∧
         size 1 w' = Ok 4 w' ∧ traverse 5 1 w' = Ok [7; 1; 2; 3] w').
Proof.
  pose proof (push_back_appends_and_push_front_prepends (one_two_three 10) 1
                (mkList tt 3 100 101) [(102, 1); (103, 2); (104, 3)] 7
                (proj1 one_two_three_ok) (proj2 one_two_three_ok))
    as [Hback Hfront].
  split.
  - assert (∃ w', push_back 1 7 (one_two_three 10) = Ok tt w') as (w' & Hpush)
      by (eexists; vm_compute; reflexivity).
    destruct (Hback w' Hpush) as (Hsize & Htrav & _).
    exists w'. split; [exact Hpush|]. split; [exact Hsize|exact Htrav].
  - assert (∃ w', push_front 1 7 (one_two_three 10) = Ok tt w') as (w' & Hpush)
      by (eexists; vm_compute; reflexivity).
    destruct (Hfront w' Hpush) as (Hsize & Htrav & _).
    exists w'. split; [exact Hpush|]. split; [exact Hsize|exact Htrav].
Defined.

Lemma erase_removes_the_element_and_returns_its_successor_witness :
  ∃ it w',
    erase 1 (Iter 103) (one_two_three 10) = Ok it w' ∧
    ptr_ it = 104 ∧
    is_list w' 1 (mkList tt 2 100 101) [(102, 1); (104, 3)] ∧
    nodes w' !! 103 = None ∧
    size 1 w' = Ok 2 w' ∧
    traverse 3 1 w' = Ok [1; 3] w' ∧
    forward 2 it (Iter 101) w' = Ok [3] w'.
Proof.
  exact (erase_removes_the_element_and_returns_its_successor
           (one_two_three 10) 1 (mkList tt 3 100 101) [(102, 1)] 103 2 [(104, 3)]
           (proj1 one_two_three_ok) (proj2 one_two_three_ok)).
Defined.

Lemma increment_and_decrement_are_inverse_witness :
  (it <- incr (Iter 103) ;; decr it) (one_two_three 10)
    = Ok (Iter 103) (one_two_three 10) ∧
  (it <- decr (Iter 103) ;; incr it) (one_two_three 10)
    = Ok (Iter 103) (one_two_three 10) ∧
  (it <- decr (Iter 101) ;; incr it) (one_two_three 10)
    = Ok (Iter 101) (one_two_three 10) ∧
  decr (Iter 102) (one_two_three 10) = Ok (Iter 100) (one_two_three 10) ∧
  incr (Iter 101) (one_two_three 10) = Ok (Iter 0) (one_two_three 10).
Proof.
  pose proof (increment_and_decrement_are_inverse (one_two_three 10) 1
                (mkList tt 3 100 101) [(102, 1)] [(103, 2); (104, 3)]
                (proj2 one_two_three_ok)) as (Hid & Hdi & _ & Hend).
  pose proof (increment_and_decrement_are_inverse (one_two_three 10) 1
                (mkList tt 3 100 101) [(102, 1); (103, 2); (104, 3)] []
                (proj2 one_two_three_ok)) as (_ & Hdi_end & _).
  pose proof (increment_and_decrement_are_inverse (one_two_three 10) 1
                (mkList tt 3 100 101) [] [(102, 1); (103, 2); (104, 3)]
                (proj2 one_two_three_ok)) as (_ & _ & Hbegin & _).
  split; [exact (Hid (103, 2) [(104, 3)] eq_refl)|].
  split; [apply Hdi; discriminate|].
  split; [apply Hdi_end; discriminate|].
  split; [exact (Hbegin eq_refl)|exact Hend].
Defined.

Lemma reverse_traversal_is_the_forward_one_reversed_witness :
  ∃ vs, traverse 4 1 (one_two_three 10) = Ok vs (one_two_three 10) ∧
        rtraverse 4 1 (one_two_three 10) = Ok (rev vs) (one_two_three 10) ∧
        size 1 (one_two_three 10) = Ok (Z.of_nat (length vs)) (one_two_three 10).
Proof.
  exact (reverse_traversal_is_the_forward_one_reversed (one_two_three 10) 1
           (mkList tt 3 100 101) [(102, 1); (103, 2); (104, 3)] 4
           (proj2 one_two_three_ok) ltac:(simpl; lia)).
Defined.

Lemma constructor_builds_an_empty_list_witness :
  (∃ w', ctor 1 tt (nothing 10) = Ok tt w' ∧
         size 1 w' = Ok 0 w' ∧ empty 1 w' = Ok true w' ∧
         traverse 1 1 w' = Ok [] w' ∧ rtraverse 1 1 w' = Ok [] w' ∧
         get_allocator 1 w' = Ok tt w') ∧
  (∃ w', ctor 1 tt (nothing 1) = Throw w' ∧
         lists w' = ∅ ∧ nodes w' = {[ 100 := mkNode None 0 0 ]}).
Proof.
  split.
  - pose proof (constructor_builds_an_empty_list (nothing 10) 1 tt
                  (nothing_ok 10 eq_refl) eq_refl) as Hc.
    destruct (ctor 1 tt (nothing 10)) as [[] w'|w'| |] eqn:E;
      [|vm_compute in E; discriminate..].
    destruct Hc as (H1 & H2 & H3 & H4 & H5 & _).
    exists w'. split; [reflexivity|]. split; [exact H1|]. split; [exact H2|].
    split; [exact H3|]. split; [exact H4|exact H5].
  - pose proof (constructor_builds_an_empty_list (nothing 1) 1 tt
                  (nothing_ok 1 eq_refl) eq_refl) as Hc.
    destruct (ctor 1 tt (nothing 1)) as [[] w'|w'| |] eqn:E;
      [vm_compute in E; discriminate| |vm_compute in E; discriminate..].
    destruct Hc as (Hl & [[Hnone _]|(b & a1 & Hb & _ & _ & Hn & _)]);
      [vm_compute in Hnone; discriminate|].
    exists w'. split; [reflexivity|]. split; [exact Hl|].
    vm_compute in Hb. injection Hb as <- <-. exact Hn.
Defined.



Lemma assignment_propagates_the_allocator_by_the_trait_witness :
  operator_assign 3 1 1 tagged_lists = Ok tt tagged_lists ∧
  ∃ w', operator_assign 3 1 2 tagged_lists = Ok tt w' ∧
        get_allocator 1 w' = Ok 9%nat w' ∧
        get_allocator 2 w' = Ok 9%nat w' ∧
        traverse 2 1 w' = Ok [4] w'.
Proof.
  destruct (assignment_propagates_the_allocator_by_the_trait 3 tagged_lists 1 2
              (mkList 7%nat 2 100 101) [(102, 1); (103, 2)]
              (mkList 9%nat 1 104 105) [(106, 4)]
              (proj1 tagged_lists_ok) ltac:(done)
              (proj1 (proj2 tagged_lists_ok)) (proj2 (proj2 tagged_lists_ok)))
    as [Hself Hc]; [|simpl; lia|simpl; lia|].
  { assert (NoDup (addrs (mkList 9%nat 1 104 105) [(106, 4)] ++
                   addrs (mkList 7%nat 2 100 101) [(102, 1); (103, 2)]))
      as Hnd by compute_done.
    apply NoDup_app in Hnd as (_ & Hd & _).
    intros x Hx Hy. exact (Hd x Hx Hy). }
  split; [exact Hself|].
  assert (∃ w', operator_assign 3 1 2 tagged_lists = Ok tt w' ∧
                traverse 2 1 w' = Ok [4] w') as (w' & Hassign & Htrav)
    by (eexists; split; vm_compute; reflexivity).
  rewrite Hassign in Hc. destruct Hc as [H1 H2].
  exists w'. split; [exact Hassign|]. split; [exact H1|]. split; [exact H2|exact Htrav].
Defined.


Lemma iterators_to_other_elements_stay_valid_witness :
  (∃ it w', insert 1 (Iter 103) 9 (one_two_three 10) = Ok it w' ∧
            deref (Iter 103) w' = Ok 2 w') ∧
  (∃ it w', erase 1 (Iter 103) (one_two_three 10) = Ok it w' ∧
            deref (Iter 104) w' = Ok 3 w').
Proof.
  split.
  - assert (∃ it w', insert 1 (Iter 103) 9 (one_two_three 10) = Ok it w')
      as (it & w' & Hins) by (eexists _, _; vm_compute; reflexivity).
    exists it, w'. split; [exact Hins|].
    apply (proj1 (iterators_to_other_elements_stay_valid (one_two_three 10) 1
                    (mkList tt 3 100 101) [(102, 1)] [(103, 2); (104, 3)] 103 2
                    (proj1 one_two_three_ok) ltac:(compute_done))
             9 it w' (proj2 one_two_three_ok) Hins).
  - assert (∃ it w', erase 1 (Iter 103) (one_two_three 10) = Ok it w')
      as (it & w' & Her) by (eexists _, _; vm_compute; reflexivity).
    exists it, w'. split; [exact Her|].
    apply (proj2 (iterators_to_other_elements_stay_valid (one_two_three 10) 1
                    (mkList tt 3 100 101) [(102, 1)] [(104, 3)] 104 3
                    (proj1 one_two_three_ok) ltac:(compute_done))
             103 2 it w' (proj2 one_two_three_ok) Her).
Defined.

Lemma list_lifetime_leaves_memory_as_found_witness :
  ∃ w1 w2 t2 w3,
    ctor 1 tt (nothing 10) = Ok tt w1 ∧
    run 1 mixed_run (w1, mkTally 0 0) = Some (w2, t2) ∧
    dtor 6 1 w2 = Ok tt w3 ∧
    nodes w3 = nodes (nothing 10) ∧ lists w3 = lists (nothing 10).
Proof.
  assert (∃ w1 w2 t2,
            ctor 1 tt (nothing 10) = Ok tt w1 ∧
            run 1 mixed_run (w1, mkTally 0 0) = Some (w2, t2) ∧
            inserted t2 = 5%nat) as (w1 & w2 & t2 & Hctor & Hrun & Hins)
    by (eexists _, _, _; split; [vm_compute; reflexivity|];
        split; [vm_compute; reflexivity|reflexivity]).
  destruct (list_lifetime_leaves_memory_as_found 6 (nothing 10) 1 tt w1
              mixed_run w2 t2 (λ x, eq_refl (@copy_throws Z int_copy x))
              (nothing_ok 10 eq_refl) Hctor Hrun
              ltac:(rewrite Hins; lia))
    as (w3 & Hd & Hnodes & Hlists).
  exists w1, w2, t2, w3. split; [exact Hctor|]. split; [exact Hrun|].
  split; [exact Hd|]. split; [exact Hnodes|exact Hlists].
Defined.
Lemma two_lists_roomy_ok :
  lists_ok (two_lists 40)
    (<[1 := [(102, 1); (103, 2); (104, 3)]]> (<[2 := [(107, 4); (108, 5)]]> ∅)).
Proof.
  apply (lists_ok_two (two_lists 40) 1 2
           (mkList tt 3 100 101) (mkList tt 2 105 106)).
  - concrete_alloc_ok.
  - done.
  - vm_compute. reflexivity.
  - concrete_is_list.
  - concrete_is_list.
  - apply disjoint_sym, two_lists_disjoint.
Qed.

(** What is done to the source after the copy was taken. *)
Definition source_changes : list (mutation (T:=Z)) :=
  [Call (PushBack 9); Write 0 7; Assign 2; Call PopFront].

Lemma copy_is_equal_and_independent_witness :
  ∃ w' w'' w3,
    copy_ctor 4 3 1 (two_lists 40) = Ok tt w' ∧
    traverse 4 3 w' = Ok [1; 2; 3] w' ∧
    mutations 1 source_changes w' = Some w'' ∧
    traverse 4 1 w'' = Ok [5] w'' ∧
    traverse 4 3 w'' = Ok [1; 2; 3] w'' ∧
    dtor 4 1 w'' = Ok tt w3 ∧
    lists w3 !! 1 = None ∧
    traverse 4 3 w3 = Ok [1; 2; 3] w3.
Proof.
  assert (∃ w' w'',
            copy_ctor 4 3 1 (two_lists 40) = Ok tt w' ∧
            mutations 1 source_changes w' = Some w'' ∧
            traverse 4 1 w'' = Ok [5] w'' ∧
            size 1 w'' = Ok 1 w'')
    as (w' & w'' & Hcopy & Hrun & Htr1 & Hsize).
  { eexists _, _. split; [vm_compute; reflexivity|].
    split; [vm_compute; reflexivity|]. split; vm_compute; reflexivity. }
  assert (is_list (two_lists 40) 1 (mkList tt 3 100 101)
            [(102, 1); (103, 2); (104, 3)]) as Hsrc by concrete_is_list.
  assert (lists (two_lists 40) !! 3 = None) as Hnone
    by (vm_compute; reflexivity).
  pose proof (copy_is_equal_and_independent 4 (two_lists 40) _ 3 1
                (mkList tt 3 100 101) [(102, 1); (103, 2); (104, 3)]
                two_lists_roomy_ok Hsrc eq_refl Hnone ltac:(simpl; lia))
    as Hthm.
  rewrite Hcopy in Hthm.
  destruct Hthm as (l' & copied & _ & _ & _ & Htr & _ & _ & _ & Hind).
  destruct (Hind _ _ Hrun) as (_ & Htr'' & lr'' & live'' & Hrhs'' & Hd).
  assert (length live'' < 4)%nat as Hlen.
  { pose proof (size_ok _ _ _ _ Hrhs'') as Hs. rewrite Hsize in Hs.
    injection Hs as Hs. lia. }
  destruct (Hd 4%nat Hlen) as (w3 & Hdtor & Hgone & _ & Htr3).
  exists w', w'', w3. split; [exact Hcopy|]. split; [exact Htr|].
  split; [exact Hrun|]. split; [exact Htr1|]. split; [exact Htr''|].
  split; [exact Hdtor|]. split; [exact Hgone|exact Htr3].
Defined.

Lemma assignment_clears_then_copies_witness :
  ∃ w1,
    pop_all 4 1 (two_lists 10) = Ok tt w1 ∧
    destroyed w1 = [(104, 3); (103, 2); (102, 1)] ∧
    dom (nodes w1) = dom (nodes (two_lists 10)) ∖ {[102; 103; 104]} ∧
    is_list w1 1 (mkList tt 0 100 101) [] ∧
    is_list w1 2 (mkList tt 2 105 106) [(107, 4); (108, 5)] ∧
    operator_assign 4 1 2 (two_lists 10) = (ret tt ;; copy_ 4 1 2) w1 ∧
    ∃ w', operator_assign 4 1 2 (two_lists 10) = Throw w' ∧
          traverse 2 1 w' = Ok [4] w' ∧
          traverse 3 2 w' = Ok [4; 5] w' ∧
          destroyed w' = [(104, 3); (103, 2); (102, 1)].
Proof.
  destruct (assignment_clears_then_copies 4 (two_lists 10) 1 2
              (mkList tt 3 100 101) [(102, 1); (103, 2); (104, 3)]
              (mkList tt 2 105 106) [(107, 4); (108, 5)]
              (proj1 two_lists_ok) ltac:(done)
              (proj1 (proj2 two_lists_ok)) (proj2 (proj2 two_lists_ok))
              two_lists_disjoint ltac:(simpl; lia) ltac:(simpl; lia))
    as (w1 & Hpop & Hlog & Hdom & _ & Hl & Hr & Heq & Hres).
  exists w1. split; [exact Hpop|].
  split; [rewrite Hlog; vm_compute; reflexivity|].
  split; [rewrite Hdom; f_equal; vm_compute; reflexivity|].
  split; [exact Hl|]. split; [exact Hr|]. split; [exact Heq|].
  assert (∃ w', operator_assign 4 1 2 (two_lists 10) = Throw w' ∧
                traverse 2 1 w' = Ok [4] w' ∧ traverse 3 2 w' = Ok [4; 5] w')
    as (w' & Hthrow & Ht1 & Ht2)
    by (eexists; split; [vm_compute; reflexivity|split; vm_compute; reflexivity]).
  rewrite Hthrow in Hres. destruct Hres as (_ & _ & _ & _ & _ & _ & _ & Hlog').
  exists w'. split; [exact Hthrow|]. split; [exact Ht1|]. split; [exact Ht2|].
  rewrite Hlog'. vm_compute. reflexivity.
Defined.
End ListFacts.
